(** * The RFNoC graph: connection, commit gate, property walk and action drain

    A shallow embedding of [host/lib/rfnoc/graph.cpp] (class
    [uhd::rfnoc::detail::graph_t]) together with the parts of
    [uhd/rfnoc/node.hpp], [uhd/rfnoc/dirtifier.hpp] and the mock nodes of
    [host/tests/rfnoc_graph_mock_nodes.hpp] that the graph code reads.

    The C++ code mutates node objects through pointers and leaves its state
    as it is when an exception is thrown.  The embedding therefore threads
    one [world] (node store, graph members, log) through a state monad
    whose result is a value, a thrown exception or an exhausted loop budget;
    the state is returned in all three cases. *)

From Stdlib Require Import String List Bool Arith NArith ZArith Lia.
From Stdlib Require Import RelationClasses Permutation.
Import ListNotations.

Set Implicit Arguments.

(* ===================================================================== *)
(** ** Data model *)
(* ===================================================================== *)

(** [res_source_info::source_t] and [res_source_info]. *)
Inductive source_t := USER | INPUT_EDGE | OUTPUT_EDGE | FRAMEWORK.

Record res_source_info := mk_src {
  type : source_t;
  instance : nat
}.

Definition source_eqb (a b : source_t) : bool :=
  match a, b with
  | USER, USER | INPUT_EDGE, INPUT_EDGE
  | OUTPUT_EDGE, OUTPUT_EDGE | FRAMEWORK, FRAMEWORK => true
  | _, _ => false
  end.

(** Modelled from the spec: [res_source_info::invert_edge] lives in
    res_source_info.hpp, which is not part of the sources at hand.  It swaps
    INPUT_EDGE and OUTPUT_EDGE; the graph only calls it on those two tags,
    the other two are left as they are here. *)
Definition invert_edge (t : source_t) : source_t :=
  match t with
  | INPUT_EDGE => OUTPUT_EDGE
  | OUTPUT_EDGE => INPUT_EDGE
  | other => other
  end.

(** A property.  [data_t] stands for a [property_t<T>] (a tag for [T] and
    the value), [dirtifier_t] for the ALWAYS_DIRTY sentinel of
    dirtifier.hpp. *)
Inductive prop_data :=
| data_t (type_tag : string) (value : Z)
| dirtifier_t.

Record property_base_t := mk_prop {
  get_id : string;
  get_src_info : res_source_info;
  _data : prop_data;
  _dirty : bool
}.

(** [dirtifier_t::is_dirty] always answers true. *)
Definition is_dirty (p : property_base_t) : bool :=
  match _data p with
  | dirtifier_t => true
  | data_t _ _ => _dirty p
  end.

(** Modelled from the spec: [property_t<T>::equal] is declared in
    property.hpp, which is not part of the sources at hand; two properties
    are equal when they have the same type and the same value.
    [dirtifier_t::equal] (dirtifier.hpp) always answers false. *)
Definition equal (p q : property_base_t) : bool :=
  match _data p, _data q with
  | data_t t v, data_t t' v' => String.eqb t t' && Z.eqb v v'
  | _, _ => false
  end.

Definition ALWAYS_DIRTY : property_base_t :=
  mk_prop "__ALWAYS_DIRTY__" (mk_src FRAMEWORK 0) dirtifier_t true.

(** The two callbacks the framework installs in a node: either the default
    of node.hpp or the closure over the graph that [connect] installs. *)
Inductive callback_t := cb_default | cb_graph.

(** What the graph reads of a [node_t]. *)
Record node_t := mk_node {
  get_unique_id : string;
  _props : list property_base_t;
  _resolve_all_cb : callback_t;
  _post_action_cb : callback_t
}.

(** [node_ref_t] is a [node_t*]: an address in the node store. *)
Definition node_ref_t := nat.

(** A [property_base_t*]: the owning node and the slot in its registry. *)
Definition prop_ptr := (node_ref_t * nat)%type.

(** Modelled from the spec: [graph_edge_t] is declared in graph_edge.hpp,
    which is not part of the sources at hand.  An edge is the pair of ports
    with the two block ids and the [property_propagation_active] flag;
    [operator==] compares every attribute. *)
Record graph_edge_t := mk_edge {
  src_blockid : string;
  src_port : nat;
  dst_blockid : string;
  dst_port : nat;
  property_propagation_active : bool
}.

Definition edge_eqb (a b : graph_edge_t) : bool :=
  String.eqb (src_blockid a) (src_blockid b)
  && Nat.eqb (src_port a) (src_port b)
  && String.eqb (dst_blockid a) (dst_blockid b)
  && Nat.eqb (dst_port a) (dst_port b)
  && Bool.eqb (property_propagation_active a) (property_propagation_active b).

(** Modelled from the spec: [rfnoc_graph_t] is a [boost::adjacency_list]
    declared in graph.hpp, which is not part of the sources at hand.
    Vertices are numbered in insertion order and carry a node reference;
    edges are appended by [connect], parallel edges included, and carry a
    [graph_edge_t].  An edge descriptor is the position in [edges]. *)
Definition vertex_descriptor := nat.

Record rfnoc_graph_t := mk_bgl {
  vertices : list node_ref_t;
  edges : list (vertex_descriptor * vertex_descriptor * graph_edge_t)
}.

Record action_info := mk_action {
  key : string;
  action_id : nat
}.

Definition queued_action := (node_ref_t * res_source_info * action_info)%type.

(** The members of [graph_t].  [_release_count] is a [std::atomic<size_t>]. *)
Record graph_t := mk_graph {
  _graph : rfnoc_graph_t;
  _node_map : list (node_ref_t * vertex_descriptor);
  _release_count : N;
  _action_queue : list queued_action;
  _action_handling_ongoing : bool
}.

Definition size_t_modulus : N := 2 ^ 64.

(** Exceptions.  [assertion_error] is what UHD_ASSERT_THROW and
    UHD_THROW_INVALID_CODE_PATH throw, [out_of_range] what [std::map::at]
    throws, [bad_node_ref] stands for the use of a pointer or an iterator
    that refers to nothing (undefined in C++), [node_error] for whatever the
    code of a node throws. *)
Inductive exn :=
| rfnoc_error (what : string)
| resolve_error (what : string)
| runtime_error (what : string)
| assertion_error
| out_of_range
| bad_node_ref
| node_error (what : string).

(** The log lines of graph.cpp at INFO level and above, the calls the graph
    makes into nodes through [node_accessor_t], and the actions taken off
    the action queue. *)
Inductive event :=
| log_ignoring_repeated (e : graph_edge_t)
| log_modify_edge (e : graph_edge_t)
| log_reconnect_output (e : graph_edge_t)
| log_reconnect_input (e : graph_edge_t)
| log_unresolvable_edge (e : graph_edge_t)
| log_multiple_dirty (n : nat)
| log_dirty_node (node_id : string)
| log_could_not_resolve
| log_dirty_prop (node_id : string) (src : res_source_info) (prop_id : string)
| log_inconsistent (prop_id : string) (e : graph_edge_t)
| log_not_committed (a : action_info)
| log_no_neighbour (a : action_info)
| pop_front (a : action_info)
| log_bad_topology (node_id : string)
| call_resolve_props (n : node_ref_t)
| call_forward_edge_property (n : node_ref_t) (port : nat) (p : prop_ptr)
| call_clean_props (n : node_ref_t)
| call_check_topology (n : node_ref_t) (ins outs : list nat)
| call_send_action (n : node_ref_t) (port : res_source_info) (a : action_info).

Record world := mk_world {
  nodes : list node_t;
  graph : graph_t;
  log : list event
}.

(* ===================================================================== *)
(** ** State and exceptions *)
(* ===================================================================== *)

Inductive result (A : Type) :=
| ok (a : A)
| throw (e : exn)
| out_of_fuel.
Arguments throw {A} e.
Arguments out_of_fuel {A}.

Definition M (A : Type) := world -> result A * world.

Definition ret {A} (a : A) : M A := fun w => (ok a, w).
Definition raise {A} (e : exn) : M A := fun w => (throw e, w).
Definition bind {A B} (m : M A) (k : A -> M B) : M B :=
  fun w =>
    match m w with
    | (ok a, w') => k a w'
    | (throw e, w') => (throw e, w')
    | (out_of_fuel, w') => (out_of_fuel, w')
    end.

Declare Scope m_scope.
Delimit Scope m_scope with m.
Notation "x <- m ;; k" := (bind m (fun x => k))
  (at level 61, m at next level, right associativity) : m_scope.
Notation "m ;; k" := (bind m (fun _ => k))
  (at level 61, right associativity) : m_scope.
Local Open Scope m_scope.

(** [try { m } catch (const uhd::rfnoc_error&) { h }] *)
Definition try_catch_rfnoc {A} (m : M A) (h : M A) : M A :=
  fun w =>
    match m w with
    | (throw (rfnoc_error _), w') => h w'
    | r => r
    end.

Definition get_nodes : M (list node_t) := fun w => (ok (nodes w), w).
Definition get_graph : M graph_t := fun w => (ok (graph w), w).
Definition modify_graph (f : graph_t -> graph_t) : M unit :=
  fun w => (ok tt, mk_world (nodes w) (f (graph w)) (log w)).
Definition UHD_LOG (e : event) : M unit :=
  fun w => (ok tt, mk_world (nodes w) (graph w) (log w ++ [e])).

Definition UHD_ASSERT_THROW (b : bool) : M unit :=
  if b then ret tt else raise assertion_error.

Fixpoint for_each {A} (l : list A) (body : A -> M unit) : M unit :=
  match l with
  | [] => ret tt
  | x :: rest => body x ;; for_each rest body
  end.

(** Dereferencing a node pointer. *)
Definition deref (n : node_ref_t) : M node_t :=
  fun w =>
    match nth_error (nodes w) n with
    | Some nd => (ok nd, w)
    | None => (throw bad_node_ref, w)
    end.

Fixpoint list_update {A} (l : list A) (i : nat) (x : A) : list A :=
  match l, i with
  | [], _ => []
  | _ :: t, 0 => x :: t
  | h :: t, S j => h :: list_update t j x
  end.

Definition update_node (n : node_ref_t) (f : node_t -> node_t) : M unit :=
  fun w =>
    match nth_error (nodes w) n with
    | Some nd =>
        (ok tt, mk_world (list_update (nodes w) n (f nd)) (graph w) (log w))
    | None => (throw bad_node_ref, w)
    end.

(* ===================================================================== *)
(** ** What the graph calls in a node *)
(* ===================================================================== *)

(** [node_accessor_t] gives the graph access to the private methods of
    [node_t].  The setters for the two callbacks and [filter_props] are
    defined in node.hpp and are embedded below.  The methods of this record
    are implemented in node.cpp, which is not part of the sources at hand,
    and run code supplied by the blocks (resolvers, clean callbacks, action
    handlers); they are taken as parameters.  Each acts on the node store
    and may throw.  [send_action] also returns the actions the recipient
    posted, through [node_t::post_action], while it handled the action. *)
Record node_accessor_t := mk_accessor {
  resolve_props : node_ref_t -> list node_t -> exn + list node_t;
  clean_props : node_ref_t -> list node_t -> exn + list node_t;
  forward_edge_property :
    node_ref_t -> nat -> prop_ptr -> list node_t -> exn + list node_t;
  check_topology : node_ref_t -> list nat -> list nat -> list node_t -> bool;
  send_action :
    node_ref_t -> res_source_info -> action_info -> list node_t ->
    exn + (list node_t * list (res_source_info * action_info))
}.

(** Runs a node method on the store. *)
Definition on_nodes {A} (f : list node_t -> exn + (list node_t * A)) : M A :=
  fun w =>
    match f (nodes w) with
    | inl e => (throw e, w)
    | inr (ns, a) => (ok a, mk_world ns (graph w) (log w))
    end.

Definition on_nodes_ (f : list node_t -> exn + list node_t) : M unit :=
  on_nodes (fun ns => match f ns with
                      | inl e => inl e
                      | inr ns' => inr (ns', tt)
                      end).

(** [node_t::set_resolve_all_callback] and [node_t::set_post_action_callback]
    (node.hpp). *)
Definition set_resolve_all_callback (cb : callback_t) (nd : node_t) : node_t :=
  mk_node (get_unique_id nd) (_props nd) cb (_post_action_cb nd).

Definition set_post_action_callback (cb : callback_t) (nd : node_t) : node_t :=
  mk_node (get_unique_id nd) (_props nd) (_resolve_all_cb nd) cb.

(** [node_t::filter_props] (node.hpp): the registered properties that
    satisfy the predicate, each with its slot. *)
Definition filter_props (nd : node_t) (predicate : property_base_t -> bool)
  : list (nat * property_base_t) :=
  filter (fun ip => predicate (snd ip))
         (combine (seq 0 (length (_props nd))) (_props nd)).

(* ===================================================================== *)
(** ** Topological sorting *)
(* ===================================================================== *)

(** [boost::topological_sort] belongs to the Boost Graph Library
    (boost/graph/topological_sort.hpp and depth_first_search.hpp), which is
    not part of the repository.  It runs [depth_first_search] with a
    [topo_sort_visitor]: the vertices are taken in index order, every
    vertex that is still white is the root of a depth-first visit, the
    out-edges of a vertex are examined in the order in which they were
    added, an edge to a gray vertex ([back_edge]) throws [not_a_dag], and a
    vertex is written to the output iterator when it is finished.  With the
    [front_inserter] of [_get_topo_sorted_nodes] the last vertex finished
    comes first.

    [default_color_type] and the colour map indexed by vertex.  Reading the
    colour of a vertex the graph does not have is undefined in C++ and
    cannot arise, since edges are only added between vertices returned by
    [_add_node]; the model reads it as finished. *)
Inductive default_color_type := white_color | gray_color | black_color.

Definition color_map := list default_color_type.

Definition get (color : color_map) (v : vertex_descriptor)
  : default_color_type :=
  nth v color black_color.

Definition put (color : color_map) (v : vertex_descriptor)
    (c : default_color_type) : color_map :=
  list_update color v c.

(** [adjacent_vertices(u, fg)]: the targets of the out-edges of [u], in the
    order in which the edges were added. *)
Definition adjacent_vertices (es : list (vertex_descriptor * vertex_descriptor))
    (u : vertex_descriptor) : list vertex_descriptor :=
  map snd (filter (fun e => Nat.eqb (fst e) u) es).

(** The state of the search: the colour map and the output list. *)
Definition dfs_state := (color_map * list vertex_descriptor)%type.

(** The inner loop of [depth_first_visit_impl] over the out-edges of one
    vertex: a white target is visited, a gray one is a back-edge
    ([not_a_dag], [None]), a black one is passed over. *)
Fixpoint examine_edges
    (visit : vertex_descriptor -> dfs_state -> option dfs_state)
    (targets : list vertex_descriptor) (st : dfs_state)
  : option dfs_state :=
  match targets with
  | [] => Some st
  | v :: rest =>
      match get (fst st) v with
      | white_color =>
          match visit v st with
          | Some st' => examine_edges visit rest st'
          | None => None
          end
      | gray_color => None
      | black_color => examine_edges visit rest st
      end
  end.

(** [depth_first_visit_impl]: [u] turns gray, its out-edges are examined,
    then [u] turns black and [finish_vertex] puts it in front of the
    output.  Boost keeps its own stack; here the nesting is bounded by
    [depth], and [None] is also the answer when the bound is used up. *)
Fixpoint depth_first_visit (depth : nat)
    (es : list (vertex_descriptor * vertex_descriptor))
    (u : vertex_descriptor) (st : dfs_state) : option dfs_state :=
  match depth with
  | 0 => None
  | S d =>
      match examine_edges (depth_first_visit d es) (adjacent_vertices es u)
                          (put (fst st) u gray_color, snd st) with
      | Some st' => Some (put (fst st') u black_color, u :: snd st')
      | None => None
      end
  end.

(** The loop of [depth_first_search] over all vertices: every vertex that
    is still white starts a visit. *)
Fixpoint depth_first_search (depth : nat)
    (es : list (vertex_descriptor * vertex_descriptor))
    (roots : list vertex_descriptor) (st : dfs_state) : option dfs_state :=
  match roots with
  | [] => Some st
  | u :: rest =>
      match get (fst st) u with
      | white_color =>
          match depth_first_visit depth es u st with
          | Some st' => depth_first_search depth es rest st'
          | None => None
          end
      | _ => depth_first_search depth es rest st
      end
  end.

(** [boost::topological_sort(fg, std::front_inserter(sorted_nodes))];
    [None] is [not_a_dag].  No visit nests deeper than the number of
    vertices ([topological_sort_none] shows that [None] is returned for a
    cycle only). *)
Definition topological_sort (num_vertices : nat)
    (es : list (vertex_descriptor * vertex_descriptor))
  : option (list vertex_descriptor) :=
  match depth_first_search num_vertices es (seq 0 num_vertices)
                           (repeat white_color num_vertices, []) with
  | Some st => Some (snd st)
  | None => None
  end.

(** Modelled from the spec: [ForwardEdgePredicate] and [BackEdgePredicate]
    are declared in graph.hpp, which is not part of the sources at hand.
    The first keeps the edges whose [property_propagation_active] is true,
    the second the others. *)
Definition ForwardEdgePredicate
    (e : vertex_descriptor * vertex_descriptor * graph_edge_t) : bool :=
  property_propagation_active (snd e).

Definition BackEdgePredicate
    (e : vertex_descriptor * vertex_descriptor * graph_edge_t) : bool :=
  negb (property_propagation_active (snd e)).

Definition forward_edges (bg : rfnoc_graph_t)
  : list (vertex_descriptor * vertex_descriptor) :=
  map fst (filter ForwardEdgePredicate (edges bg)).

(** A path of at least one edge. *)
Inductive path (es : list (vertex_descriptor * vertex_descriptor))
  : vertex_descriptor -> vertex_descriptor -> Prop :=
| path_edge u v : In (u, v) es -> path es u v
| path_cons u v w : In (u, v) es -> path es v w -> path es u w.

Definition cyclic (es : list (vertex_descriptor * vertex_descriptor)) : Prop :=
  exists v, path es v v.

(* ===================================================================== *)
(** ** graph.cpp: helpers and [connect] *)
(* ===================================================================== *)

Definition set_bgl (g : graph_t) (bg : rfnoc_graph_t) : graph_t :=
  mk_graph bg (_node_map g) (_release_count g) (_action_queue g)
           (_action_handling_ongoing g).

Definition set_node_map (g : graph_t)
    (m : list (node_ref_t * vertex_descriptor)) : graph_t :=
  mk_graph (_graph g) m (_release_count g) (_action_queue g)
           (_action_handling_ongoing g).

Definition set_release_count (g : graph_t) (c : N) : graph_t :=
  mk_graph (_graph g) (_node_map g) c (_action_queue g)
           (_action_handling_ongoing g).

Definition set_action_queue (g : graph_t) (q : list queued_action) : graph_t :=
  mk_graph (_graph g) (_node_map g) (_release_count g) q
           (_action_handling_ongoing g).

Definition set_action_handling_ongoing (g : graph_t) (b : bool) : graph_t :=
  mk_graph (_graph g) (_node_map g) (_release_count g) (_action_queue g) b.

(** [boost::get(vertex_property_t(), _graph, v)] *)
Definition vertex_property (v : vertex_descriptor) : M node_ref_t :=
  g <- get_graph ;;
  match nth_error (vertices (_graph g)) v with
  | Some n => ret n
  | None => raise bad_node_ref
  end.

Definition out_edges (v : vertex_descriptor) (bg : rfnoc_graph_t) :=
  filter (fun e => Nat.eqb (fst (fst e)) v) (edges bg).

Definition in_edges (v : vertex_descriptor) (bg : rfnoc_graph_t) :=
  filter (fun e => Nat.eqb (snd (fst e)) v) (edges bg).

(** [_node_map.count] and [_node_map.at] *)
Fixpoint node_map_find (m : list (node_ref_t * vertex_descriptor))
    (n : node_ref_t) : option vertex_descriptor :=
  match m with
  | [] => None
  | (k, v) :: rest => if Nat.eqb k n then Some v else node_map_find rest n
  end.

Definition node_map_at (n : node_ref_t) : M vertex_descriptor :=
  g <- get_graph ;;
  match node_map_find (_node_map g) n with
  | Some v => ret v
  | None => raise out_of_range
  end.

(** [assert_edge_new] *)
Definition assert_edge_new (new_edge_info existing_edge_info : graph_edge_t)
  : M unit :=
  if edge_eqb existing_edge_info new_edge_info then
    UHD_LOG (log_ignoring_repeated new_edge_info)
  else if Nat.eqb (src_port existing_edge_info) (src_port new_edge_info)
          && String.eqb (src_blockid existing_edge_info)
                        (src_blockid new_edge_info)
          && Nat.eqb (dst_port existing_edge_info) (dst_port new_edge_info)
          && String.eqb (dst_blockid existing_edge_info)
                        (dst_blockid new_edge_info) then
    UHD_LOG (log_modify_edge existing_edge_info) ;;
    raise (rfnoc_error "Caught attempt to modify properties of edge!")
  else if String.eqb (src_blockid new_edge_info)
                     (src_blockid existing_edge_info)
          && Nat.eqb (src_port new_edge_info) (src_port existing_edge_info) then
    UHD_LOG (log_reconnect_output existing_edge_info) ;;
    raise (rfnoc_error "Attempting to reconnect output port!")
  else if String.eqb (dst_blockid new_edge_info)
                     (dst_blockid existing_edge_info)
          && Nat.eqb (dst_port new_edge_info) (dst_port existing_edge_info) then
    UHD_LOG (log_reconnect_input existing_edge_info) ;;
    raise (rfnoc_error "Attempting to reconnect input port!")
  else ret tt.

(** [graph_t::_add_node] *)
Definition _add_node (new_node : node_ref_t) : M unit :=
  g <- get_graph ;;
  match node_map_find (_node_map g) new_node with
  | Some _ => ret tt
  | None =>
      (* _node_map.emplace(new_node, boost::add_vertex(new_node, _graph)) *)
      modify_graph (fun g =>
        let bg := _graph g in
        let v := length (vertices bg) in
        set_node_map
          (set_bgl g (mk_bgl (vertices bg ++ [new_node]) (edges bg)))
          (_node_map g ++ [(new_node, v)]))
  end.

(** [graph_t::_get_topo_sorted_nodes] *)
Definition _get_topo_sorted_nodes : M (list vertex_descriptor) :=
  g <- get_graph ;;
  match topological_sort (length (vertices (_graph g)))
                         (forward_edges (_graph g)) with
  | Some sorted_nodes => ret sorted_nodes
  | None =>
      raise (rfnoc_error
               "Cannot resolve graph because it has at least one cycle!")
  end.

(** [boost::add_edge]: the descriptor of the new edge and whether it was
    inserted. *)
Definition add_edge (u v : vertex_descriptor) (info : graph_edge_t)
  : M (nat * bool) :=
  g <- get_graph ;;
  modify_graph (fun g =>
    let bg := _graph g in
    set_bgl g (mk_bgl (vertices bg) (edges bg ++ [(u, v, info)]))) ;;
  ret (length (edges (_graph g)), true).

Fixpoint remove_nth {A} (i : nat) (l : list A) : list A :=
  match l, i with
  | [], _ => []
  | _ :: t, 0 => t
  | h :: t, S j => h :: remove_nth j t
  end.

(** [boost::remove_edge] on an edge descriptor *)
Definition remove_edge (edge_descriptor : nat) : M unit :=
  modify_graph (fun g =>
    let bg := _graph g in
    set_bgl g (mk_bgl (vertices bg) (remove_nth edge_descriptor (edges bg)))).

Definition unresolvable_what : string :=
  "Adding edge without disabling property_propagation_active will lead to unresolvable graph!".

(** [graph_t::connect] *)
Definition connect (src_node dst_node : node_ref_t) (edge_info : graph_edge_t)
  : M unit :=
  src <- deref src_node ;;
  dst <- deref dst_node ;;
  (* Correctly populate edge_info *)
  let edge_info :=
    mk_edge (get_unique_id src) (src_port edge_info)
            (get_unique_id dst) (dst_port edge_info)
            (property_propagation_active edge_info) in
  (* Set resolver callbacks *)
  update_node src_node (set_resolve_all_callback cb_graph) ;;
  update_node dst_node (set_resolve_all_callback cb_graph) ;;
  (* Set post action callbacks *)
  update_node src_node (set_post_action_callback cb_graph) ;;
  update_node dst_node (set_post_action_callback cb_graph) ;;
  (* Add nodes to graph, if not already in there *)
  _add_node src_node ;;
  _add_node dst_node ;;
  (* Find vertex descriptors *)
  src_vertex_desc <- node_map_at src_node ;;
  dst_vertex_desc <- node_map_at dst_node ;;
  (* Check if connection exists *)
  g <- get_graph ;;
  for_each (out_edges src_vertex_desc (_graph g))
           (fun e => assert_edge_new edge_info (snd e)) ;;
  for_each (in_edges dst_vertex_desc (_graph g))
           (fun e => assert_edge_new edge_info (snd e)) ;;
  (* Create edge *)
  edge_descriptor <- add_edge src_vertex_desc dst_vertex_desc edge_info ;;
  UHD_ASSERT_THROW (snd edge_descriptor) ;;
  (* Now make sure we didn't add an unintended cycle *)
  try_catch_rfnoc
    (_get_topo_sorted_nodes ;; ret tt)
    (UHD_LOG (log_unresolvable_edge edge_info) ;;
     remove_edge (fst edge_descriptor) ;;
     raise (rfnoc_error unresolvable_what)).

(** A freshly constructed graph.  Modelled from the spec: the initial value
    of [_release_count] is set in graph.hpp, which is not part of the
    sources at hand; the graph starts released. *)
Definition graph_init : graph_t :=
  mk_graph (mk_bgl [] []) [] 1%N [] false.

Definition world_init (ns : list node_t) : world := mk_world ns graph_init [].

(* ===================================================================== *)
(** ** graph.cpp: property propagation, commit gate and action drain *)
(* ===================================================================== *)

(** The predicate of [get_dirty_props]. *)
Definition dirty_pred (prop : property_base_t) : bool :=
  is_dirty prop
  && negb (source_eqb (type (get_src_info prop)) FRAMEWORK).

(** [get_dirty_props] *)
Definition get_dirty_props (node_ref : node_ref_t)
  : M (list (nat * property_base_t)) :=
  nd <- deref node_ref ;;
  ret (filter_props nd dirty_pred).

(** [graph_t::DirtyNodePredicate] *)
Definition DirtyNodePredicate (v : vertex_descriptor) : M bool :=
  n <- vertex_property v ;;
  dirty_props <- get_dirty_props n ;;
  ret (negb (Nat.eqb (length dirty_props) 0)).

Fixpoint filter_M {A} (l : list A) (p : A -> M bool) : M (list A) :=
  match l with
  | [] => ret []
  | x :: rest =>
      b <- p x ;;
      kept <- filter_M rest p ;;
      ret (if b then x :: kept else kept)
  end.

(** [graph_t::_find_dirty_nodes] *)
Definition _find_dirty_nodes : M (list vertex_descriptor) :=
  g <- get_graph ;;
  filter_M (seq 0 (length (vertices (_graph g)))) DirtyNodePredicate.

(** [graph_t::_find_neighbour]: [None] is the pair with the null pointer. *)
Definition _find_neighbour (origin : vertex_descriptor)
    (port_info : res_source_info)
  : M (option (node_ref_t * graph_edge_t)) :=
  g <- get_graph ;;
  match type port_info with
  | INPUT_EDGE =>
      match find (fun e => Nat.eqb (dst_port (snd e)) (instance port_info))
                 (in_edges origin (_graph g)) with
      | Some e => n <- vertex_property (fst (fst e)) ;; ret (Some (n, snd e))
      | None => ret None
      end
  | OUTPUT_EDGE =>
      match find (fun e => Nat.eqb (src_port (snd e)) (instance port_info))
                 (out_edges origin (_graph g)) with
      | Some e => n <- vertex_property (snd (fst e)) ;; ret (Some (n, snd e))
      | None => ret None
      end
  | _ => raise assertion_error
  end.

(** [std::unordered_map<std::string, property_base_t*>] with [emplace] and
    [at]; it is walked in insertion order here. *)
Fixpoint prop_map_find (m : list (string * property_base_t)) (k : string)
  : option property_base_t :=
  match m with
  | [] => None
  | (k', p) :: rest => if String.eqb k' k then Some p else prop_map_find rest k
  end.

Definition prop_map_emplace (m : list (string * property_base_t))
    (k : string) (p : property_base_t) : list (string * property_base_t) :=
  match prop_map_find m k with
  | Some _ => m
  | None => m ++ [(k, p)]
  end.

(** The helper [get_prop_map] of [_assert_edge_props_consistent] *)
Definition get_prop_map (port : nat) (edge_type : source_t) (nd : node_t)
  : list (string * property_base_t) :=
  fold_left
    (fun prop_map ip => prop_map_emplace prop_map (get_id (snd ip)) (snd ip))
    (filter_props nd
       (fun prop => Nat.eqb (instance (get_src_info prop)) port
                    && source_eqb (type (get_src_info prop)) edge_type))
    [].

(** The comparison loop of [_assert_edge_props_consistent] *)
Fixpoint props_match_loop (src_prop_map dst_prop_map :
                             list (string * property_base_t))
    (edge_info : graph_edge_t) (props_match : bool) : M bool :=
  match src_prop_map with
  | [] => ret props_match
  | (_, src_prop) :: rest =>
      match prop_map_find dst_prop_map (get_id src_prop) with
      | None => raise out_of_range
      | Some dst_prop =>
          if negb (equal src_prop dst_prop) then
            UHD_LOG (log_inconsistent (get_id src_prop) edge_info) ;;
            props_match_loop rest dst_prop_map edge_info false
          else props_match_loop rest dst_prop_map edge_info props_match
      end
  end.

(** [graph_t::_assert_edge_props_consistent] *)
Definition _assert_edge_props_consistent
    (edge : vertex_descriptor * vertex_descriptor * graph_edge_t) : M bool :=
  src_node <- vertex_property (fst (fst edge)) ;;
  dst_node <- vertex_property (snd (fst edge)) ;;
  let edge_info := snd edge in
  src <- deref src_node ;;
  dst <- deref dst_node ;;
  let src_prop_map := get_prop_map (src_port edge_info) OUTPUT_EDGE src in
  let dst_prop_map := get_prop_map (dst_port edge_info) INPUT_EDGE dst in
  props_match_loop src_prop_map dst_prop_map edge_info true.

(** The cursor arithmetic at the end of the walk loop: [node_it] is the
    position in the sorted list, [end_it] its length, [begin_it] zero. *)
Definition advance (size : nat) (node_it : nat) (forward_dir : bool)
  : nat * bool :=
  let '(node_it, forward_dir) :=
    if forward_dir then
      let node_it := S node_it in
      (* If we're at the end, flip the direction *)
      if Nat.eqb node_it size then (Nat.pred node_it, false)
      else (node_it, true)
    else (node_it, forward_dir) in
  if negb forward_dir then
    if Nat.ltb 1 size then
      let node_it := Nat.pred node_it in
      (* If we're back at the front, flip direction *)
      if Nat.eqb node_it 0 then (node_it, true) else (node_it, false)
    else (node_it, true)
  else (node_it, forward_dir).

Definition MAX_NUM_ITERATIONS : Z := 2.
Definition MAX_ACTION_ITERATIONS : N := 200.
Definition unsigned_modulus : N := 2 ^ 32.

Definition could_not_resolve_what : string := "Could not resolve properties.".
Definition back_edges_what : string :=
  "Error during property resultion: Back-edges inconsistent!".
Definition topology_what : string := "Graph topology is not valid!".
Definition recursion_limit_what : string :=
  "Terminating action handling: Reached recursion limit!".

(** Dereferencing an iterator into a list. *)
Definition iter_deref {A} (l : list A) (it : nat) : M A :=
  match nth_error l it with
  | Some x => ret x
  | None => raise bad_node_ref
  end.

(** The search for the start: [node_it] is advanced until it points to
    [initial_node]. *)
Fixpoint find_it (l : list vertex_descriptor) (initial_node : vertex_descriptor)
  : option nat :=
  match l with
  | [] => None
  | v :: rest =>
      if Nat.eqb v initial_node then Some 0
      else option_map S (find_it rest initial_node)
  end.

(** The vectors [connected_inputs] and [connected_outputs] that
    [_check_topology] collects for a vertex. *)
Definition connected_inputs_of (v : vertex_descriptor) (bg : rfnoc_graph_t)
  : list nat :=
  map (fun e => dst_port (snd e)) (in_edges v bg).

Definition connected_outputs_of (v : vertex_descriptor) (bg : rfnoc_graph_t)
  : list nat :=
  map (fun e => src_port (snd e)) (out_edges v bg).

Section Graph.

Variable na : node_accessor_t.

(** [graph_t::_forward_edge_props] *)
Definition _forward_edge_props (origin : vertex_descriptor) : M unit :=
  origin_node <- vertex_property origin ;;
  nd <- deref origin_node ;;
  let edge_props :=
    filter_props nd
      (fun prop => source_eqb (type (get_src_info prop)) INPUT_EDGE
                   || source_eqb (type (get_src_info prop)) OUTPUT_EDGE) in
  for_each edge_props (fun ip =>
    let prop := snd ip in
    neighbour_node_info <- _find_neighbour origin (get_src_info prop) ;;
    match neighbour_node_info with
    | Some (neighbour, e) =>
        if property_propagation_active e then
          let neighbour_port :=
            if source_eqb (type (get_src_info prop)) INPUT_EDGE
            then src_port e else dst_port e in
          UHD_LOG (call_forward_edge_property neighbour neighbour_port
                     (origin_node, fst ip)) ;;
          on_nodes_ (forward_edge_property na neighbour neighbour_port
                       (origin_node, fst ip))
        else ret tt
    | None => ret tt
    end).

(** [graph_t::_check_topology] *)
Fixpoint check_topology_loop (vs : list vertex_descriptor) (topo_ok : bool)
  : M bool :=
  match vs with
  | [] => ret topo_ok
  | v :: rest =>
      node <- vertex_property v ;;
      g <- get_graph ;;
      let connected_inputs := connected_inputs_of v (_graph g) in
      let connected_outputs := connected_outputs_of v (_graph g) in
      UHD_LOG (call_check_topology node connected_inputs connected_outputs) ;;
      ns <- get_nodes ;;
      if negb (check_topology na node connected_inputs connected_outputs ns)
      then
        nd <- deref node ;;
        UHD_LOG (log_bad_topology (get_unique_id nd)) ;;
        check_topology_loop rest false
      else check_topology_loop rest topo_ok
  end.

Definition _check_topology : M unit :=
  g <- get_graph ;;
  topo_ok <- check_topology_loop (seq 0 (length (vertices (_graph g)))) true ;;
  if negb topo_ok then raise (runtime_error topology_what) else ret tt.

(** The [while (true)] loop of [resolve_all_properties].  [fuel] bounds the
    number of times the body runs. *)
Fixpoint walk (fuel : nat) (topo_sorted_nodes : list vertex_descriptor)
    (initial_node : vertex_descriptor) (node_it : nat) (forward_dir : bool)
    (num_iterations : Z) : M unit :=
  match fuel with
  | 0 => fun w => (out_of_fuel, w)
  | S fuel' =>
      v <- iter_deref topo_sorted_nodes node_it ;;
      current_node <- vertex_property v ;;
      (* On current node, call local resolution. *)
      UHD_LOG (call_resolve_props current_node) ;;
      on_nodes_ (resolve_props na current_node) ;;
      (* Forward all edge props in all directions from current node. *)
      _forward_edge_props v ;;
      (* Now mark all properties on this node as clean *)
      UHD_LOG (call_clean_props current_node) ;;
      on_nodes_ (clean_props na current_node) ;;
      (* Figure out who's the next node. *)
      let '(node_it, forward_dir) :=
        advance (length topo_sorted_nodes) node_it forward_dir in
      v' <- iter_deref topo_sorted_nodes node_it ;;
      if forward_dir && Nat.eqb v' initial_node then
        let num_iterations := (num_iterations + 1)%Z in
        if Z.eqb num_iterations MAX_NUM_ITERATIONS then ret tt
        else walk fuel' topo_sorted_nodes initial_node node_it forward_dir
                  num_iterations
      else walk fuel' topo_sorted_nodes initial_node node_it forward_dir
                num_iterations
  end.

(** The first sanity check after the walk: no dirty properties are left. *)
Definition quiescence_check : M unit :=
  remaining_dirty_nodes <- _find_dirty_nodes ;;
  match remaining_dirty_nodes with
  | [] => ret tt
  | _ :: _ =>
      UHD_LOG log_could_not_resolve ;;
      for_each remaining_dirty_nodes (fun vertex =>
        node <- vertex_property vertex ;;
        nd <- deref node ;;
        let node_id := get_unique_id nd in
        dirty_props <- get_dirty_props node ;;
        for_each dirty_props (fun ip =>
          UHD_LOG (log_dirty_prop node_id (get_src_info (snd ip))
                                  (get_id (snd ip))))) ;;
      raise (resolve_error could_not_resolve_what)
  end.

(** The second one: the edges marked [!property_propagation_active] match
    up.  [&&] does not evaluate its right operand once [back_edges_valid]
    is false. *)
Fixpoint back_edges_loop
    (es : list (vertex_descriptor * vertex_descriptor * graph_edge_t))
    (back_edges_valid : bool) : M bool :=
  match es with
  | [] => ret back_edges_valid
  | e :: rest =>
      valid <- (if back_edges_valid then _assert_edge_props_consistent e
                else ret false) ;;
      back_edges_loop rest valid
  end.

Definition back_edge_check : M unit :=
  g <- get_graph ;;
  back_edges_valid <-
    back_edges_loop (filter BackEdgePredicate (edges (_graph g))) true ;;
  if negb back_edges_valid then raise (resolve_error back_edges_what)
  else ret tt.

(** The part of [resolve_all_properties] up to the end of the walk. *)
Definition resolve_walk : M unit :=
  (* First, find the node on which we'll start. *)
  initial_dirty_nodes <- _find_dirty_nodes ;;
  (if Nat.ltb 1 (length initial_dirty_nodes) then
     UHD_LOG (log_multiple_dirty (length initial_dirty_nodes)) ;;
     for_each initial_dirty_nodes (fun vertex =>
       node <- vertex_property vertex ;;
       nd <- deref node ;;
       UHD_LOG (log_dirty_node (get_unique_id nd)))
   else ret tt) ;;
  let initial_dirty_nodes :=
    match initial_dirty_nodes with
    | [] => [0] (* the first of boost::vertices(_graph) *)
    | _ => initial_dirty_nodes
    end in
  UHD_ASSERT_THROW (negb (Nat.eqb (length initial_dirty_nodes) 0)) ;;
  let initial_node := hd 0 initial_dirty_nodes in
  (* Now get all nodes in topologically sorted order. *)
  topo_sorted_nodes <- _get_topo_sorted_nodes ;;
  match find_it topo_sorted_nodes initial_node with
  | None => raise bad_node_ref
  | Some node_it =>
      walk (4 * length topo_sorted_nodes) topo_sorted_nodes initial_node
           node_it true 0
  end.

(** [graph_t::resolve_all_properties] *)
Definition resolve_all_properties : M unit :=
  g <- get_graph ;;
  if Nat.eqb (length (vertices (_graph g))) 0 then ret tt
  else if negb (N.eqb (_release_count g) 0) then ret tt
  else
    resolve_walk ;;
    (* Post-iteration sanity checks *)
    quiescence_check ;;
    back_edge_check.

(** [graph_t::commit] *)
Definition commit : M unit :=
  g <- get_graph ;;
  (if negb (N.eqb (_release_count g) 0) then
     modify_graph (fun g => set_release_count g (N.pred (_release_count g))) ;;
     _check_topology
   else ret tt) ;;
  resolve_all_properties.

(** [graph_t::release] *)
Definition release : M unit :=
  modify_graph (fun g =>
    set_release_count g ((_release_count g + 1) mod size_t_modulus)%N).

(** [graph_t::enqueue_action] up to the point where the drain starts.  The
    answer is whether the caller goes on to drain the queue. *)
Definition enqueue_action_head (src_node : node_ref_t)
    (src_edge : res_source_info) (action : action_info) : M bool :=
  g <- get_graph ;;
  if negb (N.eqb (_release_count g) 0) then
    UHD_LOG (log_not_committed action) ;;
    ret false
  else
    (* _action_handling_ongoing.test_and_set() *)
    let handling_ongoing := _action_handling_ongoing g in
    modify_graph (fun g =>
      set_action_queue (set_action_handling_ongoing g true)
                       (_action_queue g ++ [(src_node, src_edge, action)])) ;;
    if handling_ongoing then ret false else ret true.

(** What a handler does when it posts an action: [node_t::post_action]
    calls the node's [_post_action_cb]; the one [connect] installs calls
    [enqueue_action] for this node.  The drain runs while the flag is set,
    so this call gets no further than the head. *)
Definition post_action (node : node_ref_t)
    (posted : res_source_info * action_info) : M unit :=
  nd <- deref node ;;
  match _post_action_cb nd with
  | cb_default => ret tt
  | cb_graph =>
      enqueue_action_head node (fst posted) (snd posted) ;; ret tt
  end.

(** The body of the drain loop from "Unpack next action" on. *)
Definition deliver_next (action : action_info) (next_action : queued_action)
  : M unit :=
  let '(action_src_node, action_src_port, next_action_sptr) := next_action in
  (* _action_queue.pop_front() *)
  modify_graph (fun g => set_action_queue g (tl (_action_queue g))) ;;
  UHD_LOG (pop_front next_action_sptr) ;;
  origin <- node_map_at action_src_node ;;
  recipient_info <- _find_neighbour origin action_src_port ;;
  match recipient_info with
  | None => UHD_LOG (log_no_neighbour action)
  | Some (recipient_node, e) =>
      let recipient_port :=
        mk_src (invert_edge (type action_src_port))
               (if source_eqb (type action_src_port) INPUT_EDGE
                then dst_port e else src_port e) in
      UHD_LOG (call_send_action recipient_node recipient_port
                                next_action_sptr) ;;
      posted <- on_nodes (send_action na recipient_node recipient_port
                                      next_action_sptr) ;;
      for_each posted (post_action recipient_node)
  end.

(** The drain loop of [enqueue_action].  [iteration_count] is an
    [unsigned]; [fuel] bounds the number of times the loop test runs. *)
Fixpoint drain (fuel : nat) (action : action_info) (iteration_count : N)
  : M unit :=
  match fuel with
  | 0 => fun w => (out_of_fuel, w)
  | S fuel' =>
      g <- get_graph ;;
      match _action_queue g with
      | [] => ret tt
      | next_action :: _ =>
          if N.eqb iteration_count MAX_ACTION_ITERATIONS then
            raise (runtime_error recursion_limit_what)
          else
            let iteration_count :=
              ((iteration_count + 1) mod unsigned_modulus)%N in
            deliver_next action next_action ;;
            drain fuel' action iteration_count
      end
  end.

(** [graph_t::enqueue_action] *)
Definition enqueue_action (src_node : node_ref_t) (src_edge : res_source_info)
    (action : action_info) : M unit :=
  start <- enqueue_action_head src_node src_edge action ;;
  if start then
    drain (S (N.to_nat MAX_ACTION_ITERATIONS)) action 0 ;;
    (* Release the action handling flag *)
    modify_graph (fun g => set_action_handling_ongoing g false)
  else ret tt.

End Graph.

(* ===================================================================== *)
(** ** Mock nodes *)
(* ===================================================================== *)

(** Modelled from the spec: node.cpp, which implements the methods behind
    [node_accessor_t], is not part of the sources at hand.  The mock nodes
    below follow the comments of node.hpp and the nodes of
    rfnoc_graph_mock_nodes.hpp; they serve as concrete inputs.

    - [resolve_props] runs two of the resolvers of mock_radio_node_t.  The
      one registered on ALWAYS_DIRTY counts its runs and writes the count
      to the user property [rssi].  The ones registered on the sample
      rates reset a dirty [samp_rate] edge property to the value of the
      user property [master_clock_rate].  A node without [rssi] has no
      resolver of the first kind, a node without [master_clock_rate] none
      of the second.
    - [clean_props] marks all properties of the node as clean.
    - [forward_edge_property] copies the incoming value to the property with
      the same id on the given port and the inverted edge type, and marks
      it dirty if the value changed; a node without such a property drops
      the value (forwarding policy DROP).
    - [check_topology] is the default: all declared ports are connected.
    - [send_action] runs the handler given for the node. *)
Definition on_node (n : node_ref_t) (f : node_t -> node_t) (ns : list node_t)
  : exn + list node_t :=
  match nth_error ns n with
  | Some nd => inr (list_update ns n (f nd))
  | None => inl bad_node_ref
  end.

Definition map_props (f : property_base_t -> property_base_t) (nd : node_t)
  : node_t :=
  mk_node (get_unique_id nd) (map f (_props nd)) (_resolve_all_cb nd)
          (_post_action_cb nd).

Definition rssi_resolver (p : property_base_t) : property_base_t :=
  match _data p with
  | data_t t v =>
      if String.eqb (get_id p) "rssi"
         && source_eqb (type (get_src_info p)) USER
      then mk_prop (get_id p) (get_src_info p) (data_t t (v + 1)) true
      else p
  | dirtifier_t => p
  end.

Definition master_clock_rate_of (nd : node_t) : option prop_data :=
  match find (fun p => String.eqb (get_id p) "master_clock_rate"
                       && source_eqb (type (get_src_info p)) USER)
             (_props nd) with
  | Some p => Some (_data p)
  | None => None
  end.

Definition samp_rate_resolver (master_clock_rate : prop_data)
    (p : property_base_t) : property_base_t :=
  if String.eqb (get_id p) "samp_rate"
     && (source_eqb (type (get_src_info p)) INPUT_EDGE
         || source_eqb (type (get_src_info p)) OUTPUT_EDGE)
     && is_dirty p
  then mk_prop (get_id p) (get_src_info p) master_clock_rate true
  else p.

Definition mock_resolvers (nd : node_t) : node_t :=
  let nd := map_props rssi_resolver nd in
  match master_clock_rate_of nd with
  | Some rate => map_props (samp_rate_resolver rate) nd
  | None => nd
  end.

Definition mark_clean (p : property_base_t) : property_base_t :=
  mk_prop (get_id p) (get_src_info p) (_data p) false.

Definition prop_data_eqb (a b : prop_data) : bool :=
  match a, b with
  | data_t t v, data_t t' v' => String.eqb t t' && Z.eqb v v'
  | dirtifier_t, dirtifier_t => true
  | _, _ => false
  end.

Definition forward_into (incoming : property_base_t) (port : nat)
    (p : property_base_t) : property_base_t :=
  if String.eqb (get_id p) (get_id incoming)
     && source_eqb (type (get_src_info p))
                   (invert_edge (type (get_src_info incoming)))
     && Nat.eqb (instance (get_src_info p)) port
     && negb (prop_data_eqb (_data p) (_data incoming))
  then mk_prop (get_id p) (get_src_info p) (_data incoming) true
  else p.

Definition mock_forward_edge_property (n : node_ref_t) (port : nat)
    (incoming_prop : prop_ptr) (ns : list node_t) : exn + list node_t :=
  match nth_error ns (fst incoming_prop) with
  | None => inl bad_node_ref
  | Some origin =>
      match nth_error (_props origin) (snd incoming_prop) with
      | None => inl bad_node_ref
      | Some incoming => on_node n (map_props (forward_into incoming port)) ns
      end
  end.

Definition all_connected (num_ports : nat) (connected : list nat) : bool :=
  forallb (fun port => existsb (Nat.eqb port) connected) (seq 0 num_ports).

Definition mock_accessor (num_ports : node_ref_t -> nat * nat)
    (handler : node_ref_t -> res_source_info -> action_info ->
               list (res_source_info * action_info))
  : node_accessor_t :=
  mk_accessor
    (fun n => on_node n mock_resolvers)
    (fun n => on_node n (map_props mark_clean))
    mock_forward_edge_property
    (fun n connected_inputs connected_outputs _ =>
       all_connected (fst (num_ports n)) connected_inputs
       && all_connected (snd (num_ports n)) connected_outputs)
    (fun n port a ns => inr (ns, handler n port a)).

(** Handlers: one that drops every action, and one that posts the action
    back on the port it came in on. *)
Definition drop_handler (n : node_ref_t) (port : res_source_info)
    (a : action_info) : list (res_source_info * action_info) := [].

Definition echo_handler (n : node_ref_t) (port : res_source_info)
    (a : action_info) : list (res_source_info * action_info) := [(port, a)].

(** A node with the [rssi] counter and nothing else. *)
Definition counter_node (name : string) : node_t :=
  mk_node name [mk_prop "rssi" (mk_src USER 0) (data_t "double" 0) false]
          cb_default cb_default.

(** The value of the [rssi] counter of a node. *)
Definition rssi_of (w : world) (n : node_ref_t) : option Z :=
  match nth_error (nodes w) n with
  | Some nd =>
      match find (fun p => String.eqb (get_id p) "rssi") (_props nd) with
      | Some p => match _data p with
                  | data_t _ v => Some v
                  | dirtifier_t => None
                  end
      | None => None
      end
  | None => None
  end.

Definition run {A} (m : M A) (w : world) : world := snd (m w).

(** An edge request as [connect] receives it: ports and flag. *)
Definition edge_request (sp dp : nat) (active : bool) : graph_edge_t :=
  mk_edge "" sp "" dp active.

(* ===================================================================== *)
(** ** Frame conditions *)
(* ===================================================================== *)

(** A computation respects a relation between the world before and the
    world after it, whatever its outcome. *)
Definition respects (R : world -> world -> Prop) {A} (m : M A) : Prop :=
  forall w, R w (snd (m w)).

(** A computation that only reads. *)
Definition reads {A} (m : M A) : Prop := forall w, snd (m w) = w.

(** A computation whose loops all have budget enough. *)
Definition terminates {A} (m : M A) : Prop :=
  forall w, fst (m w) <> out_of_fuel.

(** The relations used below: a projection of the world is kept. *)
Definition keeps {X} (f : world -> X) : world -> world -> Prop :=
  fun w w' => f w' = f w.

(** Only the log changes. *)
Definition logs_only : world -> world -> Prop :=
  keeps (fun w => (nodes w, graph w)).

(** Once set, the action handling flag stays set. *)
Definition flag_stays : world -> world -> Prop :=
  fun w w' =>
    _action_handling_ongoing (graph w) = true ->
    _action_handling_ongoing (graph w') = true.

(** The log is extended by events that satisfy [P]. *)
Definition log_adds (P : event -> Prop) : world -> world -> Prop :=
  fun w w' => exists l, log w' = log w ++ l /\ Forall P l.

Definition is_pop (ev : event) : bool :=
  match ev with pop_front _ => true | _ => false end.

Definition is_send (ev : event) : bool :=
  match ev with call_send_action _ _ _ => true | _ => false end.

Definition is_node_call (ev : event) : bool :=
  match ev with
  | call_resolve_props _ | call_forward_edge_property _ _ _
  | call_clean_props _ | call_check_topology _ _ _
  | call_send_action _ _ _ => true
  | _ => false
  end.

(** The number of actions taken off the queue according to a log. *)
Definition pops (l : list event) : nat := length (filter is_pop l).

(** Events that are neither a pop nor a call into a node. *)
Definition quiet (ev : event) : Prop :=
  is_pop ev = false /\ is_node_call ev = false.

(** The world after [pop_front] in the drain loop. *)
Definition popped (a : action_info) (w : world) : world :=
  mk_world (nodes w)
           (set_action_queue (graph w) (tl (_action_queue (graph w))))
           (log w ++ [pop_front a]).

Definition not_pop (ev : event) : Prop := is_pop ev = false.

(** The world after a call of [enqueue_action] that only appends. *)
Definition appended (calls : list queued_action) (w : world) : world :=
  mk_world (nodes w)
           (set_action_queue (graph w) (_action_queue (graph w) ++ calls))
           (log w).

(* ===================================================================== *)
(** ** Concrete graphs *)
(* ===================================================================== *)

(** The chain A -> B -> C of three counter nodes, each port of the chain
    declared by its node. *)
Definition chain_nodes : list node_t :=
  [counter_node "A"; counter_node "B"; counter_node "C"].

Definition chain_ports (n : node_ref_t) : nat * nat :=
  match n with
  | 0 => (0, 1)
  | 1 => (1, 1)
  | _ => (1, 0)
  end.

Definition chain_accessor
    (handler : node_ref_t -> res_source_info -> action_info ->
               list (res_source_info * action_info)) : node_accessor_t :=
  mock_accessor chain_ports handler.

Definition chain_connected : world :=
  run (connect 1 2 (edge_request 0 0 true))
      (run (connect 0 1 (edge_request 0 0 true)) (world_init chain_nodes)).

Definition chain_committed : world :=
  run (commit (chain_accessor echo_handler)) chain_connected.

Definition stream_cmd : action_info := mk_action "stream_cmd" 0.

(** Two radios with different master clock rates, the output of the first
    connected to the input of the second. *)
Definition radio_node (name : string) (rate : Z) : node_t :=
  mk_node name
    [mk_prop "samp_rate" (mk_src INPUT_EDGE 0) (data_t "double" rate) false;
     mk_prop "samp_rate" (mk_src OUTPUT_EDGE 0) (data_t "double" rate) false;
     mk_prop "master_clock_rate" (mk_src USER 0) (data_t "double" rate) false]
    cb_default cb_default.

Definition radio_ports (n : node_ref_t) : nat * nat :=
  match n with
  | 0 => (0, 1)
  | _ => (1, 0)
  end.

Definition radio_accessor : node_accessor_t :=
  mock_accessor radio_ports drop_handler.

Definition radio_pair : world :=
  run (connect 0 1 (edge_request 0 0 true))
      (world_init [radio_node "RADIO_A" 100; radio_node "RADIO_B" 200]).


(** Every vertex of the graph refers to a node of the store. *)
Definition vertices_valid (w : world) : bool :=
  forallb (fun n => Nat.ltb n (length (nodes w)))
          (vertices (_graph (graph w))).

(** The calls that make up property propagation and action delivery. *)
Definition is_propagation_call (ev : event) : bool :=
  match ev with
  | call_resolve_props _ | call_forward_edge_property _ _ _
  | call_clean_props _ | call_send_action _ _ _ => true
  | _ => false
  end.

Definition no_propagation (ev : event) : Prop := is_propagation_call ev = false.

Definition any_event (ev : event) : Prop := True.

(** The world after the decrement in [commit]. *)
Definition decremented (w : world) : world :=
  mk_world (nodes w)
           (set_release_count (graph w) (N.pred (_release_count (graph w))))
           (log w).

(** C4 as the claim words it, for one call of [commit]: the counter is
    decremented; if it is zero afterwards the topology of every vertex is
    checked; if it is not, no node is called at all. *)
Definition commit_claim_as_stated (na : node_accessor_t) (w : world) : Prop :=
  let w' := run (commit na) w in
  _release_count (graph w') = N.pred (_release_count (graph w))
  /\ (_release_count (graph w') = 0%N ->
      forall v n, nth_error (vertices (_graph (graph w))) v = Some n ->
        In (call_check_topology n
              (connected_inputs_of v (_graph (graph w)))
              (connected_outputs_of v (_graph (graph w)))) (log w'))
  /\ (_release_count (graph w') <> 0%N ->
      forall l, log w' = log w ++ l ->
        Forall (fun ev => is_node_call ev = false) l).

(** Relations that hold whatever is logged, and whatever a node does to
    the node store. *)
Class Logging (R : world -> world -> Prop) : Prop :=
  log_ok : forall w e, R w (mk_world (nodes w) (graph w) (log w ++ [e])).

Class NodeWriting (R : world -> world -> Prop) : Prop :=
  nodes_ok : forall w ns, R w (mk_world ns (graph w) (log w)).

(** A dirty property of a node of the graph whose source is not the
    framework. *)
Definition offender (w : world) (v : vertex_descriptor) (n : node_ref_t)
    (nd : node_t) (p : property_base_t) : Prop :=
  nth_error (vertices (_graph (graph w))) v = Some n
  /\ nth_error (nodes w) n = Some nd
  /\ In p (_props nd)
  /\ is_dirty p = true
  /\ type (get_src_info p) <> FRAMEWORK.

(** What the quiescence check logs for a vertex, and whether the vertex
    counts as dirty. *)
Definition dirty_report (w : world) (v : vertex_descriptor) : list event :=
  match nth_error (vertices (_graph (graph w))) v with
  | Some n =>
      match nth_error (nodes w) n with
      | Some nd =>
          map (fun ip => log_dirty_prop (get_unique_id nd)
                                        (get_src_info (snd ip))
                                        (get_id (snd ip)))
              (filter_props nd dirty_pred)
      | None => []
      end
  | None => []
  end.

Definition has_dirty (w : world) (v : vertex_descriptor) : bool :=
  negb (Nat.eqb (length (dirty_report w v)) 0).

Definition with_log (w : world) (l : list event) : world :=
  mk_world (nodes w) (graph w) l.

(* ===================================================================== *)
(** ** The two halves of [connect] *)
(* ===================================================================== *)

(** The edge record as [connect] populates it. *)
Definition populated (src dst : node_t) (edge_info : graph_edge_t)
  : graph_edge_t :=
  mk_edge (get_unique_id src) (src_port edge_info)
          (get_unique_id dst) (dst_port edge_info)
          (property_propagation_active edge_info).

(** What [connect] does before it looks at the edges: it installs the
    callbacks and adds the nodes. *)
Definition register_nodes (src_node dst_node : node_ref_t) : M unit :=
  (update_node src_node (set_resolve_all_callback cb_graph) ;;
   update_node dst_node (set_resolve_all_callback cb_graph) ;;
   update_node src_node (set_post_action_callback cb_graph) ;;
   update_node dst_node (set_post_action_callback cb_graph) ;;
   _add_node src_node ;;
   _add_node dst_node)%m.

(** The rest of [connect], from "Find vertex descriptors" on. *)
Definition insert_edge (src_node dst_node : node_ref_t)
    (edge_info : graph_edge_t) : M unit :=
  (src_vertex_desc <- node_map_at src_node ;;
   dst_vertex_desc <- node_map_at dst_node ;;
   g <- get_graph ;;
   for_each (out_edges src_vertex_desc (_graph g))
            (fun e => assert_edge_new edge_info (snd e)) ;;
   for_each (in_edges dst_vertex_desc (_graph g))
            (fun e => assert_edge_new edge_info (snd e)) ;;
   edge_descriptor <- add_edge src_vertex_desc dst_vertex_desc edge_info ;;
   UHD_ASSERT_THROW (snd edge_descriptor) ;;
   try_catch_rfnoc
     (_get_topo_sorted_nodes ;; ret tt)
     (UHD_LOG (log_unresolvable_edge edge_info) ;;
      remove_edge (fst edge_descriptor) ;;
      raise (rfnoc_error unresolvable_what)))%m.

(** The world in which [connect] examines the edges. *)
Definition prepared (src_node dst_node : node_ref_t) (w : world) : world :=
  run (register_nodes src_node dst_node) w.

Definition reconnect_input_what : string :=
  "Attempting to reconnect input port!".

(** Whether [assert_edge_new] lets the new edge pass an existing one. *)
Definition no_conflict (new_edge_info existing_edge_info : graph_edge_t)
  : bool :=
  edge_eqb existing_edge_info new_edge_info
  || negb ((Nat.eqb (src_port existing_edge_info) (src_port new_edge_info)
            && String.eqb (src_blockid existing_edge_info)
                          (src_blockid new_edge_info)
            && Nat.eqb (dst_port existing_edge_info) (dst_port new_edge_info)
            && String.eqb (dst_blockid existing_edge_info)
                          (dst_blockid new_edge_info))
           || (String.eqb (src_blockid new_edge_info)
                          (src_blockid existing_edge_info)
               && Nat.eqb (src_port new_edge_info)
                          (src_port existing_edge_info))
           || (String.eqb (dst_blockid new_edge_info)
                          (dst_blockid existing_edge_info)
               && Nat.eqb (dst_port new_edge_info)
                          (dst_port existing_edge_info))).

(** The edges of the graph have their ends among its vertices, and so have
    the entries of the node map. *)
Definition graph_wf (g : graph_t) : bool :=
  forallb (fun e => Nat.ltb (fst (fst e)) (length (vertices (_graph g)))
                    && Nat.ltb (snd (fst e)) (length (vertices (_graph g))))
          (edges (_graph g))
  && forallb (fun kv => Nat.ltb (snd kv) (length (vertices (_graph g))))
             (_node_map g).

(** Four nodes, with A.0 -> B.0 and C.0 -> D.0 connected. *)
Definition two_pairs : world :=
  run (connect 2 3 (edge_request 0 0 true))
      (run (connect 0 1 (edge_request 0 0 true))
           (world_init [counter_node "A"; counter_node "B";
                        counter_node "C"; counter_node "D"])).

(** C7 as the claim words it, for one call of [connect]: when the
    destination port is already the sink of an existing edge that differs
    from the requested one, the call throws the reconnect-input error and
    the edges are as before. *)
Definition reconnect_input_claim_as_stated (w : world)
    (src_node dst_node : node_ref_t) (e : graph_edge_t) : Prop :=
  forall src dst u dv info,
    nth_error (nodes w) src_node = Some src ->
    nth_error (nodes w) dst_node = Some dst ->
    node_map_find (_node_map (graph w)) dst_node = Some dv ->
    In (u, dv, info) (edges (_graph (graph w))) ->
    dst_port info = dst_port e ->
    edge_eqb info (populated src dst e) = false ->
    fst (connect src_node dst_node e w)
    = throw (rfnoc_error reconnect_input_what)
    /\ edges (_graph (graph (run (connect src_node dst_node e) w)))
       = edges (_graph (graph w)).

(** C3 as the claim words it, for one call of [connect]: when the edge
    closes a cycle of propagating edges the call throws and leaves the
    graph and the nodes as they were. *)
Definition cycle_claim_as_stated (w : world) (src_node dst_node : node_ref_t)
    (e : graph_edge_t) : Prop :=
  forall sv dv,
    property_propagation_active e = true ->
    node_map_find (_node_map (graph (prepared src_node dst_node w))) src_node
    = Some sv ->
    node_map_find (_node_map (graph (prepared src_node dst_node w))) dst_node
    = Some dv ->
    cyclic (forward_edges (_graph (graph w)) ++ [(sv, dv)]) ->
    fst (connect src_node dst_node e w) = throw (rfnoc_error unresolvable_what)
    /\ graph (run (connect src_node dst_node e) w) = graph w.

(** Pure counterparts of [update_node] and [_add_node]. *)
Definition install (n : node_ref_t) (f : node_t -> node_t)
    (ns : list node_t) : list node_t :=
  match nth_error ns n with
  | Some nd => list_update ns n (f nd)
  | None => ns
  end.

Definition add_node_g (n : node_ref_t) (g : graph_t) : graph_t :=
  match node_map_find (_node_map g) n with
  | Some _ => g
  | None =>
      set_node_map
        (set_bgl g (mk_bgl (vertices (_graph g) ++ [n]) (edges (_graph g))))
        (_node_map g ++ [(n, length (vertices (_graph g)))])
  end.

Definition installed (src_node dst_node : node_ref_t) (ns : list node_t)
  : list node_t :=
  install dst_node (set_post_action_callback cb_graph)
    (install src_node (set_post_action_callback cb_graph)
       (install dst_node (set_resolve_all_callback cb_graph)
          (install src_node (set_resolve_all_callback cb_graph) ns))).

(** The radio pair with the release counter at zero and nothing propagated
    yet. *)
Definition radio_pair_live : world := decremented radio_pair.

(* ===================================================================== *)
(** ** Back-edges and their shared properties *)
(* ===================================================================== *)

Definition graph_edge : Type :=
  (vertex_descriptor * vertex_descriptor * graph_edge_t)%type.

Definition back_edges_of (w : world) : list graph_edge :=
  filter BackEdgePredicate (edges (_graph (graph w))).

(** The two maps that [_assert_edge_props_consistent] builds for an edge:
    the OUTPUT_EDGE properties of the source node on the source port and
    the INPUT_EDGE properties of the destination node on the destination
    port, each by id. *)
Definition prop_maps_of (w : world) (e : graph_edge)
  : option (list (string * property_base_t)
            * list (string * property_base_t)) :=
  match nth_error (vertices (_graph (graph w))) (fst (fst e)),
        nth_error (vertices (_graph (graph w))) (snd (fst e)) with
  | Some src_node, Some dst_node =>
      match nth_error (nodes w) src_node, nth_error (nodes w) dst_node with
      | Some src, Some dst =>
          Some (get_prop_map (src_port (snd e)) OUTPUT_EDGE src,
                get_prop_map (dst_port (snd e)) INPUT_EDGE dst)
      | _, _ => None
      end
  | _, _ => None
  end.

(** [p] and [q] are the two sides of an edge property of [e]: [p] on the
    output side, [q] the one with the same id on the input side. *)
Definition shared_pair (w : world) (e : graph_edge)
    (p q : property_base_t) : Prop :=
  exists src_prop_map dst_prop_map k,
    prop_maps_of w e = Some (src_prop_map, dst_prop_map)
    /\ In (k, p) src_prop_map
    /\ prop_map_find dst_prop_map (get_id p) = Some q.

(** Some back-edge has an edge property whose two sides are unequal. *)
Definition mismatch (w : world) : Prop :=
  exists e p q,
    In e (back_edges_of w) /\ shared_pair w e p q /\ equal p q = false.

(** Every property on the output side of a back-edge has its counterpart
    on the input side. *)
Definition maps_paired
    (src_prop_map dst_prop_map : list (string * property_base_t)) : bool :=
  forallb (fun kp => match prop_map_find dst_prop_map (get_id (snd kp)) with
                     | Some _ => true
                     | None => false
                     end) src_prop_map.

Definition all_paired (w : world) : bool :=
  forallb (fun e => match prop_maps_of w e with
                    | Some (src_prop_map, dst_prop_map) =>
                        maps_paired src_prop_map dst_prop_map
                    | None => false
                    end) (back_edges_of w).

(** Whether the comparison loop finds the two maps consistent. *)
Definition maps_consistent
    (src_prop_map dst_prop_map : list (string * property_base_t)) : bool :=
  forallb (fun kp => match prop_map_find dst_prop_map (get_id (snd kp)) with
                     | Some dst_prop => equal (snd kp) dst_prop
                     | None => true
                     end) src_prop_map.

Definition edge_consistent (w : world) (e : graph_edge) : bool :=
  match prop_maps_of w e with
  | Some (src_prop_map, dst_prop_map) =>
      maps_consistent src_prop_map dst_prop_map
  | None => true
  end.

(** C2 as the claim words it, for one call on a committed graph whose walk
    has ended in [w1]: the call throws a resolve error when some shared
    property of a back-edge has unequal sides, and returns normally
    otherwise. *)
Definition back_edge_claim_as_stated (na : node_accessor_t) (w : world)
  : Prop :=
  forall w1,
    resolve_walk na w = (ok tt, w1) ->
    (mismatch w1 ->
     exists what, fst (resolve_all_properties na w) = throw (resolve_error what))
    /\ (~ mismatch w1 -> fst (resolve_all_properties na w) = ok tt).

(** Two radios joined by a back-edge, and a radio joined by a back-edge to
    a node without properties; release counter at zero, nothing propagated
    yet. *)
Definition radio_back_pair (rate_a rate_b : Z) : world :=
  decremented
    (run (connect 0 1 (edge_request 0 0 false))
         (world_init [radio_node "RADIO_A" rate_a; radio_node "RADIO_B" rate_b])).

Definition terminator_node (name : string) : node_t :=
  mk_node name [] cb_default cb_default.

Definition radio_to_terminator : world :=
  decremented
    (run (connect 0 1 (edge_request 0 0 false))
         (world_init [radio_node "RADIO_A" 100; terminator_node "TERM"])).

(* ===================================================================== *)
(** ** The order of the walk *)
(* ===================================================================== *)

(** The positions in the sorted list that the loop of
    [resolve_all_properties] visits: the loop with everything but its
    cursor removed.  [s] is the position of the initial node. *)
Fixpoint walk_idx (fuel size s node_it : nat) (forward_dir : bool)
    (num_iterations : Z) : option (list nat) :=
  match fuel with
  | 0 => None
  | S fuel' =>
      let '(node_it', forward_dir') := advance size node_it forward_dir in
      if forward_dir' && Nat.eqb node_it' s then
        if Z.eqb (num_iterations + 1) MAX_NUM_ITERATIONS then Some [node_it]
        else option_map (cons node_it)
               (walk_idx fuel' size s node_it' forward_dir'
                         (num_iterations + 1))
      else option_map (cons node_it)
             (walk_idx fuel' size s node_it' forward_dir' num_iterations)
  end.

(** The cursor goes round a cycle of [2 * (size - 1)] phases: up from
    position 0 to the last position and down again to position 1. *)
Definition period (size : nat) : nat := 2 * (size - 1).

Definition phase_pos (size p : nat) : nat :=
  if Nat.leb p (size - 1) then p else period size - p.

Definition phase_state (size p : nat) : nat * bool :=
  if Nat.leb p (size - 1) then (p, true) else (period size - p, false).

(** One full pass that starts at position [s], as positions. *)
Definition pass_trace (size s : nat) : list nat :=
  match size with
  | 1 => [0]
  | _ => map (phase_pos size) (seq s (period size - s) ++ seq 0 s)
  end.

(** The nodes on which a log records a call of [resolve_props]. *)
Definition resolve_targets (l : list event) : list node_ref_t :=
  flat_map (fun ev => match ev with
                      | call_resolve_props n => [n]
                      | _ => []
                      end) l.

Definition not_resolve (ev : event) : Prop :=
  match ev with call_resolve_props _ => False | _ => True end.

(** C5 as the claim words it, for one call on a node with the ALWAYS_DIRTY
    counter: the call adds two to the counter. *)
Definition counter_claim_as_stated (na : node_accessor_t) (w : world)
    (n : node_ref_t) : Prop :=
  forall c w',
    rssi_of w n = Some c ->
    resolve_all_properties na w = (ok tt, w') ->
    rssi_of w' n = Some (c + 2)%Z.

(** The node that sits at position [i] of the sorted list. *)
Definition node_at (w : world) (topo : list vertex_descriptor) (i : nat)
  : node_ref_t :=
  nth (nth i topo 0) (vertices (_graph (graph w))) 0.

(** From [w] to [w'] the graph is kept, and the log grows by events whose
    calls of [resolve_props] are, in order, on the nodes [T]. *)
Definition resolves (T : list node_ref_t) (w w' : world) : Prop :=
  graph w' = graph w
  /\ exists l, log w' = log w ++ l /\ resolve_targets l = T.

(** The number of calls of [resolve_props] on node [n] in a log. *)
Definition resolve_calls (n : node_ref_t) (l : list event) : nat :=
  count_occ Nat.eq_dec (resolve_targets l) n.

(* ===================================================================== *)
(** ** Order and chains *)
(* ===================================================================== *)

(** [u] stands before [v] in [l]. *)
Definition before (l : list vertex_descriptor) (u v : vertex_descriptor)
  : Prop :=
  exists i j, i < j /\ nth_error l i = Some u /\ nth_error l j = Some v.

Definition cycle_what : string :=
  "Cannot resolve graph because it has at least one cycle!".

(* ===================================================================== *)
(** ** The outcomes of [connect] *)
(* ===================================================================== *)

(** The graph after the two calls of [_add_node] in [connect]. *)
Definition registered (src_node dst_node : node_ref_t) (g : graph_t)
  : graph_t :=
  add_node_g dst_node (add_node_g src_node g).

(** The existing edges that [connect] holds the new edge against: the
    out-edges of the source vertex, then the in-edges of the destination
    vertex. *)
Definition rivals (sv dv : vertex_descriptor) (g : graph_t)
  : list (vertex_descriptor * vertex_descriptor * graph_edge_t) :=
  out_edges sv (_graph g) ++ in_edges dv (_graph g).

(** The graph with one more edge, as [boost::add_edge] leaves it. *)
Definition with_edge (g : graph_t) (sv dv : vertex_descriptor)
    (new : graph_edge_t) : graph_t :=
  set_bgl g (mk_bgl (vertices (_graph g))
                    (edges (_graph g) ++ [(sv, dv, new)])).

(** The end of [connect], from "Create edge" on. *)
Definition finish_edge (sv dv : vertex_descriptor) (new : graph_edge_t)
  : M unit :=
  (edge_descriptor <- add_edge sv dv new ;;
   UHD_ASSERT_THROW (snd edge_descriptor) ;;
   try_catch_rfnoc
     (_get_topo_sorted_nodes ;; ret tt)
     (UHD_LOG (log_unresolvable_edge new) ;;
      remove_edge (fst edge_descriptor) ;;
      raise (rfnoc_error unresolvable_what)))%m.

Definition modify_what : string :=
  "Caught attempt to modify properties of edge!".

Definition reconnect_output_what : string :=
  "Attempting to reconnect output port!".

(** A sequence of calls of [connect], whatever their outcomes. *)
Definition connect_all
    (calls : list (node_ref_t * node_ref_t * graph_edge_t)) (w : world)
  : world :=
  fold_left (fun w c => run (connect (fst (fst c)) (snd (fst c)) (snd c)) w)
            calls w.

(** The shape of a graph that [connect] has built: the vertices are
    distinct nodes, the node map gives each node its vertex, the edges run
    between vertices, and the propagating edges contain no cycle. *)
Definition graph_inv (g : graph_t) : Prop :=
  NoDup (vertices (_graph g))
  /\ (forall n v, node_map_find (_node_map g) n = Some v <->
                  nth_error (vertices (_graph g)) v = Some n)
  /\ (forall u v info, In (u, v, info) (edges (_graph g)) ->
        u < length (vertices (_graph g)) /\ v < length (vertices (_graph g)))
  /\ ~ cyclic (forward_edges (_graph g)).

(* ===================================================================== *)
(** ** The topology check and what stays as it is *)
(* ===================================================================== *)

(** Whether the node at vertex [v] accepts the ports that are connected. *)
Definition accepts (na : node_accessor_t) (w : world)
    (v : vertex_descriptor) : bool :=
  check_topology na (nth v (vertices (_graph (graph w))) 0)
                 (connected_inputs_of v (_graph (graph w)))
                 (connected_outputs_of v (_graph (graph w)))
                 (nodes w).

(** The vertices, the edges and the node map. *)
Definition topology (w : world)
  : rfnoc_graph_t * list (node_ref_t * vertex_descriptor) :=
  (_graph (graph w), _node_map (graph w)).

(** Two nodes with output 0 of A connected to input 1 of B. *)
Definition skew_pair : world :=
  run (connect 0 1 (edge_request 0 1 true)) (world_init chain_nodes).

(* ===================================================================== *)
(** ** Ports and neighbours *)
(* ===================================================================== *)

(** No two different edges leave the same output port of a vertex, and no
    two different edges enter the same input port of a vertex. *)
Definition port_exclusive (g : graph_t) : Prop :=
  forall x y, In x (edges (_graph g)) -> In y (edges (_graph g)) ->
    (fst (fst x) = fst (fst y) -> src_port (snd x) = src_port (snd y) ->
     x = y)
    /\ (snd (fst x) = snd (fst y) -> dst_port (snd x) = dst_port (snd y) ->
        x = y).

(** What [_forward_edge_props] may do for the node at vertex [origin]: hand
    one of its edge properties to the node at the other end of the
    propagating edge on that port, for the port number at that end. *)
Definition lawful_forward (w : world) (origin : vertex_descriptor)
    (ev : event) : Prop :=
  match ev with
  | call_forward_edge_property n port (o, i) =>
      exists nd p u v e,
        nth_error (vertices (_graph (graph w))) origin = Some o
        /\ nth_error (nodes w) o = Some nd
        /\ nth_error (_props nd) i = Some p
        /\ In (u, v, e) (edges (_graph (graph w)))
        /\ property_propagation_active e = true
        /\ ((type (get_src_info p) = OUTPUT_EDGE
             /\ u = origin /\ src_port e = instance (get_src_info p)
             /\ nth_error (vertices (_graph (graph w))) v = Some n
             /\ port = dst_port e)
            \/ (type (get_src_info p) = INPUT_EDGE
                /\ v = origin /\ dst_port e = instance (get_src_info p)
                /\ nth_error (vertices (_graph (graph w))) u = Some n
                /\ port = src_port e))
  | _ => False
  end.

(* ===================================================================== *)
(** ** The route of the walk *)
(* ===================================================================== *)

(** One pass over a sorted list of [size] vertices that starts at position
    [s]: forward to the end of the list, back to its front, and forward
    again to the position before [s]. *)
Definition route (size s : nat) : list nat :=
  match size with
  | 1 => [0]
  | _ => seq s (size - s) ++ rev (seq 1 (size - 2)) ++ seq 0 s
  end.

(** The vertex the walk starts at: the first dirty vertex, or the first
    vertex of the graph when none is dirty. *)
Definition start_vertex (initial_dirty_nodes : list vertex_descriptor)
  : vertex_descriptor :=
  hd 0 match initial_dirty_nodes with
       | [] => [0]
       | _ => initial_dirty_nodes
       end.

(** The chain A -> B -> C, committed, with a dirty property on B. *)
Definition chain_dirty_b : world :=
  decremented
    (run (connect 1 2 (edge_request 0 0 true))
         (run (connect 0 1 (edge_request 0 0 true))
              (world_init
                 [counter_node "A";
                  mk_node "B" [mk_prop "rssi" (mk_src USER 0)
                                       (data_t "double" 0) true]
                          cb_default cb_default;
                  counter_node "C"]))).

(* ===================================================================== *)
(** ** rfnoc_graph_mock_nodes.hpp: the decimation of the mock DDC *)
(* ===================================================================== *)

Definition MAX_DECIM : Z := 512.

(** [mock_ddc_node_t::coerce_decim], on [int]; [%] is the remainder of the
    division that truncates. *)
Definition coerce_decim (requested_decim : Z) : Z :=
  if (requested_decim <=? 1)%Z then 1%Z
  else Z.min (requested_decim - Z.rem requested_decim 2) MAX_DECIM.

(** The white vertices of a colour map. *)
Fixpoint count_white (color : color_map) : nat :=
  match color with
  | [] => 0
  | white_color :: t => S (count_white t)
  | _ :: t => count_white t
  end.

(** What the search keeps true of its state: the output holds the black
    vertices, each once, and every edge that leaves a vertex of the output
    leads to a later vertex of the output. *)
Definition dfs_inv (es : list (vertex_descriptor * vertex_descriptor))
    (st : dfs_state) : Prop :=
  NoDup (snd st)
  /\ (forall v, In v (snd st)
                <-> v < length (fst st) /\ get (fst st) v = black_color)
  /\ (forall u v, In u (snd st) -> In (u, v) es -> v < length (fst st) ->
                  before (snd st) u v).

(** How a visit changes the state: gray vertices stay as they are, black
    ones stay black, no vertex turns white. *)
Definition dfs_step (st st' : dfs_state) : Prop :=
  length (fst st') = length (fst st)
  /\ (forall v, get (fst st) v = gray_color <-> get (fst st') v = gray_color)
  /\ (forall v, get (fst st) v = black_color -> get (fst st') v = black_color)
  /\ count_white (fst st') <= count_white (fst st).

(** What a visit of a white vertex [u] achieves when every gray vertex has
    a path to [u]: it ends with [u] black, or there is a cycle. *)
Definition visit_ok (es : list (vertex_descriptor * vertex_descriptor))
    (d : nat) : Prop :=
  forall u st,
    get (fst st) u = white_color ->
    count_white (fst st) <= d ->
    dfs_inv es st ->
    (forall g, get (fst st) g = gray_color -> path es g u) ->
    match depth_first_visit d es u st with
    | Some st' => dfs_step st st' /\ dfs_inv es st'
                  /\ get (fst st') u = black_color
    | None => cyclic es
    end.

(** The world in which [send_action] runs in the drain loop: the action is
    off the queue and the call is on record. *)
Definition delivering (recipient_node : node_ref_t)
    (recipient_port : res_source_info) (a : action_info) (w : world)
  : world :=
  with_log (popped a w)
           (log w ++ [pop_front a;
                      call_send_action recipient_node recipient_port a]).

(** The port that the drain loop computes for the recipient. *)
Definition recipient_port_of (port : res_source_info) (e : graph_edge_t)
  : res_source_info :=
  mk_src (invert_edge (type port))
         (if source_eqb (type port) INPUT_EDGE
          then dst_port e else src_port e).

(** The skew pair with the release counter at zero. *)
Definition skew_live : world := decremented skew_pair.

(** What [_check_topology] puts on record for the vertex [v]: the call of
    [check_topology] with the ports connected at [v], and the error line
    when the node refuses. *)
Definition topology_record (na : node_accessor_t) (w : world)
    (v : vertex_descriptor) : list event :=
  let node := nth v (vertices (_graph (graph w))) 0 in
  call_check_topology node (connected_inputs_of v (_graph (graph w)))
                      (connected_outputs_of v (_graph (graph w)))
  :: (if accepts na w v then []
      else match nth_error (nodes w) node with
           | Some nd => [log_bad_topology (get_unique_id nd)]
           | None => []
           end).

(** The fan-out A -> B, A -> C of three counter nodes, committed. *)
Definition fan_out_ports (n : node_ref_t) : nat * nat :=
  match n with
  | 0 => (0, 2)
  | _ => (1, 0)
  end.

Definition fan_out_accessor : node_accessor_t :=
  mock_accessor fan_out_ports drop_handler.

Definition fan_out_committed : world :=
  run (commit fan_out_accessor)
      (run (connect 0 2 (edge_request 1 0 true))
           (run (connect 0 1 (edge_request 0 0 true))
                (world_init chain_nodes))).

(* ===================================================================== *)
(** * Facts *)
(* ===================================================================== *)

Lemma source_eqb_eq a b : source_eqb a b = true <-> a = b.
Proof. destruct a, b; simpl; split; congruence. Qed.

(** ** The monad *)

Lemma bind_ok A B (m : M A) (k : A -> M B) w a w1 :
  m w = (ok a, w1) -> bind m k w = k a w1.
Proof. unfold bind; intros ->; reflexivity. Qed.

Lemma bind_throw A B (m : M A) (k : A -> M B) w e w1 :
  m w = (throw e, w1) -> bind m k w = (throw e, w1).
Proof. unfold bind; intros ->; reflexivity. Qed.

Lemma bind_inv_ok A B (m : M A) (k : A -> M B) w b w' :
  bind m k w = (ok b, w') ->
  exists a w1, m w = (ok a, w1) /\ k a w1 = (ok b, w').
Proof.
  unfold bind. destruct (m w) as [[a | e |] w1]; intros H; try discriminate.
  exists a, w1. split; [reflexivity | exact H].
Qed.

Lemma for_each_app A (l1 l2 : list A) (body : A -> M unit) w :
  for_each (l1 ++ l2) body w
  = bind (for_each l1 body) (fun _ => for_each l2 body) w.
Proof.
  revert w. induction l1 as [| x l1 IH]; intros w; simpl.
  - reflexivity.
  - unfold bind. destruct (body x w) as [[[] | e |] w1]; try reflexivity.
    rewrite IH. reflexivity.
Qed.

(** ** Frame rules *)

Section Frame.

Context (R : world -> world -> Prop) `{!PreOrder R}.

Lemma respects_ret A (a : A) : respects R (ret a).
Proof. intros w; reflexivity. Qed.

Lemma respects_raise A e : respects R (@raise A e).
Proof. intros w; reflexivity. Qed.

Lemma respects_reads A (m : M A) : reads m -> respects R m.
Proof. intros H w. rewrite H. reflexivity. Qed.

Lemma respects_bind A B (m : M A) (k : A -> M B) :
  respects R m -> (forall a, respects R (k a)) -> respects R (bind m k).
Proof.
  intros Hm Hk w. unfold bind. specialize (Hm w).
  destruct (m w) as [[a | e |] w1]; simpl in *; auto.
  transitivity w1; [exact Hm | apply Hk].
Qed.

Lemma respects_for_each A (l : list A) (body : A -> M unit) :
  (forall x, respects R (body x)) -> respects R (for_each l body).
Proof.
  intros Hb. induction l as [| x l IH]; simpl.
  - apply respects_ret.
  - apply respects_bind; auto.
Qed.

Lemma respects_filter_M A (l : list A) (p : A -> M bool) :
  (forall x, respects R (p x)) -> respects R (filter_M l p).
Proof.
  intros Hp. induction l as [| x l IH]; simpl.
  - apply respects_ret.
  - apply respects_bind; [apply Hp | intros b].
    apply respects_bind; [exact IH | intros kept; apply respects_ret].
Qed.

Lemma respects_try_catch A (m h : M A) :
  respects R m -> respects R h -> respects R (try_catch_rfnoc m h).
Proof.
  intros Hm Hh w. unfold try_catch_rfnoc. specialize (Hm w).
  destruct (m w) as [[a | [] |] w1]; simpl in *; auto.
  transitivity w1; [exact Hm | apply Hh].
Qed.

Lemma respects_UHD_LOG e :
  (forall w, R w (mk_world (nodes w) (graph w) (log w ++ [e]))) ->
  respects R (UHD_LOG e).
Proof. intros H w. apply H. Qed.

Lemma respects_modify_graph f :
  (forall w, R w (mk_world (nodes w) (f (graph w)) (log w))) ->
  respects R (modify_graph f).
Proof. intros H w. apply H. Qed.

Lemma respects_on_nodes A (f : list node_t -> exn + (list node_t * A)) :
  (forall w ns, R w (mk_world ns (graph w) (log w))) ->
  respects R (on_nodes f).
Proof.
  intros H w. unfold on_nodes.
  destruct (f (nodes w)) as [e | [ns a]]; simpl; [reflexivity | apply H].
Qed.

Lemma respects_on_nodes_ (f : list node_t -> exn + list node_t) :
  (forall w ns, R w (mk_world ns (graph w) (log w))) ->
  respects R (on_nodes_ f).
Proof. intros H. apply respects_on_nodes, H. Qed.

Lemma respects_update_node n f :
  (forall w ns, R w (mk_world ns (graph w) (log w))) ->
  respects R (update_node n f).
Proof.
  intros H w. unfold update_node.
  destruct (nth_error (nodes w) n); simpl; [apply H | reflexivity].
Qed.

End Frame.

#[export] Instance keeps_preorder X (f : world -> X) : PreOrder (keeps f).
Proof.
  split.
  - intros w; reflexivity.
  - intros a b c; unfold keeps; congruence.
Qed.

#[export] Instance logs_only_preorder : PreOrder logs_only.
Proof. unfold logs_only. apply keeps_preorder. Qed.

#[export] Instance flag_stays_preorder : PreOrder flag_stays.
Proof.
  split.
  - intros w H; exact H.
  - intros a b c; unfold flag_stays; auto.
Qed.

#[export] Instance log_adds_preorder P : PreOrder (log_adds P).
Proof.
  split.
  - intros w. exists []. rewrite app_nil_r. split; [reflexivity | constructor].
  - intros a b c [l1 [H1 F1]] [l2 [H2 F2]]. exists (l1 ++ l2).
    rewrite H2, H1, app_assoc. split; [reflexivity | apply Forall_app; auto].
Qed.

(** ** Reads *)

Lemma reads_ret A (a : A) : reads (ret a).
Proof. intros w; reflexivity. Qed.

Lemma reads_raise A e : reads (@raise A e).
Proof. intros w; reflexivity. Qed.

Lemma reads_bind A B (m : M A) (k : A -> M B) :
  reads m -> (forall a, reads (k a)) -> reads (bind m k).
Proof.
  intros Hm Hk w. unfold bind. specialize (Hm w).
  destruct (m w) as [[a | e |] w1]; simpl in *; subst; auto.
  apply Hk.
Qed.

Lemma reads_get_graph : reads get_graph.
Proof. intros w; reflexivity. Qed.

Lemma reads_get_nodes : reads get_nodes.
Proof. intros w; reflexivity. Qed.

Lemma reads_deref n : reads (deref n).
Proof. intros w. unfold deref. destruct (nth_error (nodes w) n); reflexivity. Qed.

Lemma reads_filter_M A (l : list A) (p : A -> M bool) :
  (forall x, reads (p x)) -> reads (filter_M l p).
Proof.
  intros Hp. induction l as [| x l IH]; simpl.
  - apply reads_ret.
  - apply reads_bind; [apply Hp | intros b].
    apply reads_bind; [exact IH | intros kept; apply reads_ret].
Qed.

Ltac reads_tac :=
  repeat first
    [ apply reads_ret | apply reads_raise | apply reads_get_graph
    | apply reads_get_nodes | apply reads_deref
    | apply reads_bind; [| intros ?]
    | match goal with
      | |- reads (match ?x with _ => _ end) => destruct x
      end ].

Lemma reads_vertex_property v : reads (vertex_property v).
Proof. unfold vertex_property. reads_tac. Qed.

Lemma reads_node_map_at n : reads (node_map_at n).
Proof. unfold node_map_at. reads_tac. Qed.

Lemma reads_iter_deref A (l : list A) it : reads (iter_deref l it).
Proof. unfold iter_deref. reads_tac. Qed.

Lemma reads_get_dirty_props n : reads (get_dirty_props n).
Proof. unfold get_dirty_props. reads_tac. Qed.

Lemma reads_DirtyNodePredicate v : reads (DirtyNodePredicate v).
Proof.
  unfold DirtyNodePredicate.
  apply reads_bind; [apply reads_vertex_property | intros n].
  apply reads_bind; [apply reads_get_dirty_props | intros d].
  apply reads_ret.
Qed.

Lemma reads_find_dirty_nodes : reads _find_dirty_nodes.
Proof.
  unfold _find_dirty_nodes.
  apply reads_bind; [apply reads_get_graph | intros g].
  apply reads_filter_M. apply reads_DirtyNodePredicate.
Qed.

Lemma reads_find_neighbour origin port : reads (_find_neighbour origin port).
Proof.
  unfold _find_neighbour.
  apply reads_bind; [apply reads_get_graph | intros g].
  destruct (type port); try apply reads_raise.
  - destruct (find _ _); [| apply reads_ret].
    apply reads_bind; [apply reads_vertex_property | intros; apply reads_ret].
  - destruct (find _ _); [| apply reads_ret].
    apply reads_bind; [apply reads_vertex_property | intros; apply reads_ret].
Qed.

Lemma reads_get_topo_sorted_nodes : reads _get_topo_sorted_nodes.
Proof. unfold _get_topo_sorted_nodes. reads_tac. Qed.

Lemma reads_UHD_ASSERT_THROW b : reads (UHD_ASSERT_THROW b).
Proof. unfold UHD_ASSERT_THROW. reads_tac. Qed.

(** ** Termination *)

Lemma terminates_ret A (a : A) : terminates (ret a).
Proof. intros w; discriminate. Qed.

Lemma terminates_raise A e : terminates (@raise A e).
Proof. intros w; discriminate. Qed.

Lemma terminates_bind A B (m : M A) (k : A -> M B) :
  terminates m -> (forall a, terminates (k a)) -> terminates (bind m k).
Proof.
  intros Hm Hk w. unfold bind. specialize (Hm w).
  destruct (m w) as [[a | e |] w1]; simpl in *; try discriminate.
  - apply Hk.
  - congruence.
Qed.

Lemma terminates_for_each A (l : list A) (body : A -> M unit) :
  (forall x, terminates (body x)) -> terminates (for_each l body).
Proof.
  intros Hb. induction l as [| x l IH]; simpl.
  - apply terminates_ret.
  - apply terminates_bind; auto.
Qed.

Lemma terminates_filter_M A (l : list A) (p : A -> M bool) :
  (forall x, terminates (p x)) -> terminates (filter_M l p).
Proof.
  intros Hp. induction l as [| x l IH]; simpl.
  - apply terminates_ret.
  - apply terminates_bind; [apply Hp | intros b].
    apply terminates_bind; [exact IH | intros kept; apply terminates_ret].
Qed.

Lemma terminates_get_graph : terminates get_graph.
Proof. intros w; discriminate. Qed.

Lemma terminates_get_nodes : terminates get_nodes.
Proof. intros w; discriminate. Qed.

Lemma terminates_UHD_LOG e : terminates (UHD_LOG e).
Proof. intros w; discriminate. Qed.

Lemma terminates_modify_graph f : terminates (modify_graph f).
Proof. intros w; discriminate. Qed.

Lemma terminates_deref n : terminates (deref n).
Proof. intros w. unfold deref. destruct (nth_error _ _); discriminate. Qed.

Lemma terminates_update_node n f : terminates (update_node n f).
Proof. intros w. unfold update_node. destruct (nth_error _ _); discriminate. Qed.

Lemma terminates_on_nodes A (f : list node_t -> exn + (list node_t * A)) :
  terminates (on_nodes f).
Proof.
  intros w. unfold on_nodes. destruct (f (nodes w)) as [e | [ns a]]; discriminate.
Qed.

Lemma terminates_on_nodes_ f : terminates (on_nodes_ f).
Proof. apply terminates_on_nodes. Qed.

Ltac term_tac :=
  repeat first
    [ apply terminates_ret | apply terminates_raise | apply terminates_get_graph
    | apply terminates_get_nodes | apply terminates_UHD_LOG
    | apply terminates_modify_graph | apply terminates_deref
    | apply terminates_update_node
    | apply terminates_on_nodes_ | apply terminates_on_nodes
    | apply terminates_bind; [| intros ?]
    | apply terminates_for_each; intros ?
    | apply terminates_filter_M; intros ?
    | match goal with
      | |- terminates (match ?x with _ => _ end) => destruct x
      | |- terminates (let '(_, _) := ?x in _) => destruct x
      end
    | solve [auto with terminates] ].

Create HintDb terminates.

Lemma terminates_vertex_property v : terminates (vertex_property v).
Proof. unfold vertex_property. term_tac. Qed.

Lemma terminates_node_map_at n : terminates (node_map_at n).
Proof. unfold node_map_at. term_tac. Qed.

#[export] Hint Resolve terminates_vertex_property terminates_node_map_at
  : terminates.

Lemma terminates_find_neighbour origin port :
  terminates (_find_neighbour origin port).
Proof. unfold _find_neighbour. term_tac. Qed.

Lemma terminates_enqueue_action_head n port a :
  terminates (enqueue_action_head n port a).
Proof. unfold enqueue_action_head. term_tac. Qed.

#[export] Hint Resolve terminates_find_neighbour terminates_enqueue_action_head
  : terminates.

Lemma terminates_post_action n posted : terminates (post_action n posted).
Proof. unfold post_action. term_tac. Qed.

#[export] Hint Resolve terminates_post_action : terminates.

Lemma terminates_deliver_next na action item :
  terminates (deliver_next na action item).
Proof. unfold deliver_next. destruct item as [[n port] a]. term_tac. Qed.

(** ** Frame tactics *)

Create HintDb reads.
Create HintDb frame.

#[export] Hint Resolve reads_vertex_property reads_node_map_at reads_iter_deref
  reads_get_dirty_props reads_DirtyNodePredicate reads_find_dirty_nodes
  reads_find_neighbour reads_get_topo_sorted_nodes reads_UHD_ASSERT_THROW
  reads_get_graph reads_get_nodes reads_deref : reads.

Lemma log_adds_same P w ns g : log_adds P w (mk_world ns g (log w)).
Proof.
  exists []. simpl. rewrite app_nil_r. split; [reflexivity | constructor].
Qed.

Lemma log_adds_one (P : event -> Prop) w ns g e :
  P e -> log_adds P w (mk_world ns g (log w ++ [e])).
Proof.
  intros H. exists [e]. simpl. split; [reflexivity | repeat constructor; exact H].
Qed.

#[export] Instance logs_only_logging : Logging logs_only.
Proof. intros w e. reflexivity. Qed.

#[export] Instance keeps_graph_logging : Logging (keeps graph).
Proof. intros w e. reflexivity. Qed.

#[export] Instance keeps_graph_writing : NodeWriting (keeps graph).
Proof. intros w ns. reflexivity. Qed.

#[export] Instance keeps_count_logging :
  Logging (keeps (fun w => _release_count (graph w))).
Proof. intros w e. reflexivity. Qed.

#[export] Instance keeps_count_writing :
  NodeWriting (keeps (fun w => _release_count (graph w))).
Proof. intros w ns. reflexivity. Qed.

#[export] Instance any_event_logging : Logging (log_adds any_event).
Proof. intros w e. apply log_adds_one. exact I. Qed.

#[export] Instance any_event_writing : NodeWriting (log_adds any_event).
Proof. intros w ns. apply log_adds_same. Qed.

Ltac frame_leaf :=
  intros;
  first
    [ solve [ eapply @log_ok; typeclasses eauto ]
    | solve [ eapply @nodes_ok; typeclasses eauto ]
    | apply log_adds_same
    | apply log_adds_one; first [ split; reflexivity | reflexivity | exact I ]
    | solve [ cbv [logs_only keeps]; simpl; reflexivity ]
    | solve [ cbv [flag_stays]; simpl; auto ] ].

Tactic Notation "fr" uconstr(L) :=
  apply L;
  try (match goal with |- PreOrder _ => typeclasses eauto end).

Ltac frame :=
  repeat first
    [ solve [ auto with frame ]
    | fr respects_ret | fr respects_raise
    | fr respects_reads; solve [ auto with reads ]
    | fr respects_UHD_LOG; solve [ frame_leaf ]
    | fr respects_modify_graph; solve [ frame_leaf ]
    | fr respects_on_nodes_; solve [ frame_leaf ]
    | fr respects_on_nodes; solve [ frame_leaf ]
    | fr respects_update_node; solve [ frame_leaf ]
    | fr respects_bind; [| intros ?]
    | fr respects_for_each; intros ?
    | fr respects_filter_M; intros ?
    | fr respects_try_catch
    | match goal with
      | |- respects _ (match ?x with _ => _ end) => destruct x
      | |- respects _ (let '(_, _) := ?x in _) => destruct x
      | |- respects _ (let _ := _ in _) => cbv zeta
      end
    | solve [ auto with frame ] ].

(** ** The action drain *)

Lemma pops_app l l' : pops (l ++ l') = pops l + pops l'.
Proof. unfold pops. rewrite filter_app, length_app. reflexivity. Qed.

Lemma pops_quiet l : Forall quiet l -> pops l = 0.
Proof.
  unfold pops. induction 1 as [| ev l [Hp _] _ IH]; simpl.
  - reflexivity.
  - rewrite Hp. exact IH.
Qed.

Lemma head_keeps_release_count n port a :
  respects (keeps (fun w => _release_count (graph w)))
           (enqueue_action_head n port a).
Proof. unfold enqueue_action_head. frame. Qed.

Lemma head_flag_stays n port a :
  respects flag_stays (enqueue_action_head n port a).
Proof. unfold enqueue_action_head. frame. Qed.

Lemma head_quiet n port a :
  respects (log_adds quiet) (enqueue_action_head n port a).
Proof. unfold enqueue_action_head. frame. Qed.

Lemma head_keeps_nodes n port a :
  respects (keeps nodes) (enqueue_action_head n port a).
Proof. unfold enqueue_action_head. frame. Qed.

#[export] Hint Resolve head_keeps_release_count head_flag_stays head_quiet
  head_keeps_nodes : frame.

Lemma post_keeps_release_count n posted :
  respects (keeps (fun w => _release_count (graph w))) (post_action n posted).
Proof. unfold post_action. frame. Qed.

Lemma post_flag_stays n posted : respects flag_stays (post_action n posted).
Proof. unfold post_action. frame. Qed.

Lemma post_quiet n posted : respects (log_adds quiet) (post_action n posted).
Proof. unfold post_action. frame. Qed.

#[export] Hint Resolve post_keeps_release_count post_flag_stays post_quiet
  : frame.

Lemma deliver_keeps_release_count na action item :
  respects (keeps (fun w => _release_count (graph w)))
           (deliver_next na action item).
Proof. unfold deliver_next. destruct item as [[n port] a]. frame. Qed.

Lemma deliver_flag_stays na action item :
  respects flag_stays (deliver_next na action item).
Proof. unfold deliver_next. destruct item as [[n port] a]. frame. Qed.

#[export] Hint Resolve deliver_keeps_release_count deliver_flag_stays : frame.

Lemma pops_not_pop l : Forall not_pop l -> pops l = 0.
Proof.
  unfold pops. induction 1 as [| ev l Hp _ IH]; simpl.
  - reflexivity.
  - rewrite Hp. exact IH.
Qed.

Lemma head_not_pop n port a :
  respects (log_adds not_pop) (enqueue_action_head n port a).
Proof. unfold enqueue_action_head. frame. Qed.

#[export] Hint Resolve head_not_pop : frame.

Lemma post_not_pop n posted : respects (log_adds not_pop) (post_action n posted).
Proof. unfold post_action. frame. Qed.

#[export] Hint Resolve post_not_pop : frame.

(** One iteration takes exactly one action off the queue. *)
Lemma deliver_next_pops na action item w :
  pops (log (snd (deliver_next na action item w))) = S (pops (log w)).
Proof.
  destruct item as [[n port] a]. unfold deliver_next.
  unfold bind at 1. simpl. unfold bind at 1. simpl.
  match goal with
  | |- context [snd (?m ?w0)] =>
      assert (H : respects (log_adds not_pop) m) by frame;
      destruct (H w0) as [l [Hl Fl]]
  end.
  rewrite Hl. simpl. rewrite !pops_app, (pops_not_pop Fl).
  change (pops [pop_front a]) with 1. lia.
Qed.

Lemma find_neighbour_ext origin port w w' :
  _graph (graph w) = _graph (graph w') ->
  fst (_find_neighbour origin port w) = fst (_find_neighbour origin port w').
Proof.
  intros E. unfold _find_neighbour, bind, get_graph, vertex_property. simpl.
  rewrite E.
  destruct (type port); try reflexivity.
  - destruct (find _ _) as [ed |]; [| reflexivity].
    unfold bind, get_graph. simpl. rewrite E.
    destruct (nth_error _ _); reflexivity.
  - destruct (find _ _) as [ed |]; [| reflexivity].
    unfold bind, get_graph. simpl. rewrite E.
    destruct (nth_error _ _); reflexivity.
Qed.

Lemma reads_result A (m : M A) w : reads m -> m w = (fst (m w), w).
Proof. intros H. rewrite <- (H w) at 3. destruct (m w); reflexivity. Qed.

Lemma post_keeps_nodes n posted :
  respects (keeps nodes) (post_action n posted).
Proof. unfold post_action. frame. Qed.

Lemma posts_keep_nodes n posted :
  respects (keeps nodes) (for_each posted (post_action n)).
Proof. pose proof post_keeps_nodes as Hp. frame. Qed.

Lemma deliver_next_sends na action n port a w v m e :
  node_map_find (_node_map (graph w)) n = Some v ->
  fst (_find_neighbour v port w) = ok (Some (m, e)) ->
  exists tail,
    log (snd (deliver_next na action (n, port, a) w))
    = log w
      ++ pop_front a
         :: call_send_action m
              (mk_src (invert_edge (type port))
                      (if source_eqb (type port) INPUT_EDGE
                       then dst_port e else src_port e)) a
         :: tail
    /\ Forall quiet tail.
Proof.
  intros Hv Hn.
  assert (Hn' : _find_neighbour v port (popped a w)
                = (ok (Some (m, e)), popped a w)).
  { rewrite (reads_result (popped a w) (reads_find_neighbour v port)).
    rewrite <- (find_neighbour_ext v port w (popped a w)) by reflexivity.
    rewrite Hn. reflexivity. }
  unfold deliver_next. unfold bind at 1. simpl. unfold bind at 1. simpl.
  fold (popped a w).
  assert (Hat : node_map_at n (popped a w) = (ok v, popped a w)).
  { unfold node_map_at, bind, get_graph. simpl. rewrite Hv. reflexivity. }
  rewrite (@bind_ok _ _ _ _ _ _ _ Hat). rewrite (@bind_ok _ _ _ _ _ _ _ Hn').
  unfold bind at 1. simpl.
  match goal with
  | |- context [snd (?k ?w0)] =>
      assert (H : respects (log_adds quiet) k) by frame;
      destruct (H w0) as [l [Hl Fl]]
  end.
  exists l. rewrite Hl. simpl. rewrite <- !app_assoc. simpl.
  split; [reflexivity | exact Fl].
Qed.


(** What an iteration with a neighbour does to the state: [send_action] of
    the recipient runs on the node store as it is, with the port computed
    above; the actions it posts go through [post_action] of the recipient,
    and an exception of the recipient leaves the iteration at once. *)
Lemma deliver_next_outcome na action n port a w v m e :
  node_map_find (_node_map (graph w)) n = Some v ->
  fst (_find_neighbour v port w) = ok (Some (m, e)) ->
  match send_action na m (recipient_port_of port e) a (nodes w) with
  | inr (ns', posted) =>
      deliver_next na action (n, port, a) w
      = for_each posted (post_action m)
          (mk_world ns' (graph (popped a w))
                    (log (delivering m (recipient_port_of port e) a w)))
      /\ nodes (snd (deliver_next na action (n, port, a) w)) = ns'
  | inl ex =>
      deliver_next na action (n, port, a) w
      = (throw ex, delivering m (recipient_port_of port e) a w)
  end.
Proof.
  intros Hv Hn.
  assert (Hn' : _find_neighbour v port (popped a w)
                = (ok (Some (m, e)), popped a w)).
  { rewrite (reads_result (popped a w) (reads_find_neighbour v port)).
    rewrite <- (find_neighbour_ext v port w (popped a w)) by reflexivity.
    rewrite Hn. reflexivity. }
  assert (Hat : node_map_at n (popped a w) = (ok v, popped a w)).
  { unfold node_map_at, bind, get_graph. simpl. rewrite Hv. reflexivity. }
  assert (E : deliver_next na action (n, port, a) w
              = (posted <- on_nodes (send_action na m (recipient_port_of port e)
                                                 a) ;;
                 for_each posted (post_action m))
                  (delivering m (recipient_port_of port e) a w)).
  { unfold deliver_next. unfold bind at 1. simpl. unfold bind at 1. simpl.
    fold (popped a w).
    rewrite (@bind_ok _ _ _ _ _ _ _ Hat). rewrite (@bind_ok _ _ _ _ _ _ _ Hn').
    unfold bind at 1. cbn [UHD_LOG fst snd].
    unfold delivering, with_log, recipient_port_of, popped. simpl.
    rewrite <- app_assoc. reflexivity. }
  destruct (send_action na m (recipient_port_of port e) a (nodes w))
    as [ex | [ns' posted]] eqn:Hs.
  - rewrite E. unfold bind at 1, on_nodes.
    change (nodes (delivering m (recipient_port_of port e) a w))
      with (nodes w).
    rewrite Hs. reflexivity.
  - assert (E' : deliver_next na action (n, port, a) w
                 = for_each posted (post_action m)
                     (mk_world ns' (graph (popped a w))
                        (log (delivering m (recipient_port_of port e) a w)))).
    { rewrite E. unfold bind at 1, on_nodes.
      change (nodes (delivering m (recipient_port_of port e) a w))
        with (nodes w).
      rewrite Hs. reflexivity. }
    split; [exact E' |]. rewrite E'.
    exact (posts_keep_nodes m posted
             (mk_world ns' (graph (popped a w))
                (log (delivering m (recipient_port_of port e) a w)))).
Qed.

(** C9.  In an iteration of the drain loop whose neighbour lookup succeeds,
    the action is delivered to the neighbour on a port whose type is the
    inversion of the type of the port the action was posted on and whose
    index is the [dst_port] of the connecting edge when that type is
    INPUT_EDGE and its [src_port] when it is OUTPUT_EDGE.  Delivered means:
    [send_action] is called once, for the neighbour and with this port, on
    the node store as it is; the store after the iteration is the one which
    that call returned, the actions it posted are passed to [post_action]
    of the neighbour, and an exception of the call ends the iteration.
    Nothing else is delivered in the iteration. *)
Theorem delivery_recipient_port na action n port a w v m e :
  node_map_find (_node_map (graph w)) n = Some v ->
  fst (_find_neighbour v port w) = ok (Some (m, e)) ->
  exists recipient_port,
    type recipient_port = invert_edge (type port)
    /\ (type port = INPUT_EDGE -> instance recipient_port = dst_port e)
    /\ (type port = OUTPUT_EDGE -> instance recipient_port = src_port e)
    /\ (exists tail,
          log (snd (deliver_next na action (n, port, a) w))
          = log w ++ pop_front a
                     :: call_send_action m recipient_port a :: tail
          /\ Forall quiet tail)
    /\ match send_action na m recipient_port a (nodes w) with
       | inr (ns', posted) =>
           deliver_next na action (n, port, a) w
           = for_each posted (post_action m)
               (mk_world ns' (graph (popped a w))
                         (log (delivering m recipient_port a w)))
           /\ nodes (snd (deliver_next na action (n, port, a) w)) = ns'
       | inl ex =>
           deliver_next na action (n, port, a) w
           = (throw ex, delivering m recipient_port a w)
       end.
Proof.
  intros Hv Hn. exists (recipient_port_of port e).
  split; [reflexivity |].
  split; [intros E; unfold recipient_port_of; rewrite E; reflexivity |].
  split; [intros E; unfold recipient_port_of; rewrite E; reflexivity |].
  split.
  - exact (@deliver_next_sends na action n port a w v m e Hv Hn).
  - exact (@deliver_next_outcome na action n port a w v m e Hv Hn).
Qed.

(** *** The bound on the drain loop *)

Lemma drain_S na fuel action c :
  drain na (S fuel) action c
  = (g <- get_graph ;;
     match _action_queue g with
     | [] => ret tt
     | next_action :: _ =>
         if N.eqb c MAX_ACTION_ITERATIONS then
           raise (runtime_error recursion_limit_what)
         else
           deliver_next na action next_action ;;
           drain na fuel action ((c + 1) mod unsigned_modulus)%N
     end)%m.
Proof. reflexivity. Qed.

Arguments drain : simpl never.

Lemma drain_terminates na action fuel : forall c w,
  (c <= 200)%N ->
  200 - N.to_nat c < fuel ->
  fst (drain na fuel action c w) <> out_of_fuel.
Proof.
  induction fuel as [| fuel IH]; intros c w Hc Hf; [lia |].
  rewrite drain_S. unfold bind at 1. simpl.
  destruct (_action_queue (graph w)) as [| next rest]; [discriminate |].
  destruct (N.eqb_spec c MAX_ACTION_ITERATIONS) as [-> | Hne]; [discriminate |].
  unfold MAX_ACTION_ITERATIONS in Hne.
  unfold bind.
  pose proof (terminates_deliver_next na action next w) as Ht.
  destruct (deliver_next na action next w) as [[[] | ex |] w1];
    cbn [fst snd] in *; try discriminate; try congruence.
  assert (Hmod : ((c + 1) mod unsigned_modulus = c + 1)%N).
  { apply N.mod_small. unfold unsigned_modulus.
    change (2 ^ 32)%N with 4294967296%N. lia. }
  rewrite Hmod. apply IH; lia.
Qed.

Lemma drain_pops na action fuel : forall c w,
  (c <= MAX_ACTION_ITERATIONS)%N ->
  pops (log (snd (drain na fuel action c w))) + N.to_nat c
  <= pops (log w) + 200.
Proof.
  induction fuel as [| fuel IH]; intros c w Hc;
    unfold MAX_ACTION_ITERATIONS in *.
  - simpl. lia.
  - rewrite drain_S. unfold bind at 1. simpl.
    destruct (_action_queue (graph w)) as [| next rest]; [simpl; lia |].
    destruct (N.eqb_spec c MAX_ACTION_ITERATIONS) as [-> | Hne];
      unfold MAX_ACTION_ITERATIONS in *; [simpl; lia |].
    unfold bind.
    pose proof (deliver_next_pops na action next w) as Hp.
    assert (Hmod : ((c + 1) mod unsigned_modulus = c + 1)%N).
    { apply N.mod_small. unfold unsigned_modulus.
      change (2 ^ 32)%N with 4294967296%N. lia. }
    destruct (deliver_next na action next w) as [[[] | ex |] w1]; simpl in *;
      try lia.
    rewrite Hmod.
    assert (Hc' : (c + 1 <= 200)%N) by lia.
    specialize (IH (c + 1)%N w1 Hc'). lia.
Qed.

Lemma drain_ok_empty na action fuel : forall c w w',
  drain na fuel action c w = (ok tt, w') -> _action_queue (graph w') = [].
Proof.
  induction fuel as [| fuel IH]; intros c w w' H; [discriminate |].
  rewrite drain_S in H. unfold bind at 1 in H. simpl in H.
  destruct (_action_queue (graph w)) as [| next rest] eqn:Q.
  - inversion H; subst. exact Q.
  - destruct (N.eqb c MAX_ACTION_ITERATIONS); [discriminate |].
    apply bind_inv_ok in H. destruct H as [[] [w1 [_ H]]].
    eapply IH; exact H.
Qed.

Lemma drain_at_cap na action fuel w :
  _action_queue (graph w) <> [] ->
  drain na (S fuel) action MAX_ACTION_ITERATIONS w
  = (throw (runtime_error recursion_limit_what), w).
Proof.
  intros Q. rewrite drain_S. unfold bind at 1. simpl.
  destruct (_action_queue (graph w)); [congruence | reflexivity].
Qed.

Lemma drain_keeps_release_count na action fuel c :
  respects (keeps (fun w => _release_count (graph w))) (drain na fuel action c).
Proof.
  revert c. induction fuel as [| fuel IH]; intros c.
  - intros w; reflexivity.
  - rewrite drain_S. frame; apply IH.
Qed.

Lemma drain_flag_stays na action fuel c :
  respects flag_stays (drain na fuel action c).
Proof.
  revert c. induction fuel as [| fuel IH]; intros c.
  - intros w; reflexivity.
  - rewrite drain_S. frame; apply IH.
Qed.

Lemma enqueue_action_unfold na n p a w :
  enqueue_action na n p a w =
  match enqueue_action_head n p a w with
  | (ok true, w0) =>
      match drain na 201 a 0 w0 with
      | (ok _, w1) =>
          (ok tt, mk_world (nodes w1)
                           (set_action_handling_ongoing (graph w1) false)
                           (log w1))
      | (throw e, w1) => (throw e, w1)
      | (out_of_fuel, w1) => (out_of_fuel, w1)
      end
  | (ok false, w0) => (ok tt, w0)
  | (throw e, w0) => (throw e, w0)
  | (out_of_fuel, w0) => (out_of_fuel, w0)
  end.
Proof.
  unfold enqueue_action, bind.
  destruct (enqueue_action_head n p a w) as [[[|] | ex |] w0]; reflexivity.
Qed.

(** C8.  The drain that [enqueue_action] starts always comes to an end:
    its loop never needs more than the 201 tests it is given, it takes at
    most 200 actions off the queue, it returns normally only with an empty
    queue, and when the queue is not empty at the 200-iteration cap it
    throws the recursion-limit error. *)
Theorem drain_at_most_200 na src_node src_edge action w :
  fst (enqueue_action na src_node src_edge action w) <> out_of_fuel
  /\ pops (log (snd (enqueue_action na src_node src_edge action w)))
     <= pops (log w) + 200
  /\ (forall c w0 w', drain na 201 action c w0 = (ok tt, w') ->
        _action_queue (graph w') = [])
  /\ (forall w200, _action_queue (graph w200) <> [] ->
        drain na 1 action 200 w200
        = (throw (runtime_error recursion_limit_what), w200)).
Proof.
  split; [| split; [| split]].
  - rewrite enqueue_action_unfold.
    pose proof (terminates_enqueue_action_head src_node src_edge action w) as Hh.
    destruct (enqueue_action_head src_node src_edge action w)
      as [[[|] | ex |] w0]; cbn [fst snd] in *; try discriminate; try congruence.
    pose proof (@drain_terminates na action 201 0%N w0) as Hd.
    destruct (drain na 201 action 0 w0)
      as [[[] | ex |] w1]; cbn [fst snd] in *; try discriminate.
    apply Hd; lia.
  - rewrite enqueue_action_unfold.
    destruct (head_not_pop src_node src_edge action w) as [l [Hl Fl]].
    destruct (enqueue_action_head src_node src_edge action w)
      as [[[|] | ex |] w0]; cbn [fst snd] in *;
      try (rewrite Hl, pops_app, (pops_not_pop Fl); lia).
    pose proof (@drain_pops na action 201 0%N w0) as Hd.
    assert (Hw0 : pops (log w0) = pops (log w))
      by (rewrite Hl, pops_app, (pops_not_pop Fl); lia).
    unfold MAX_ACTION_ITERATIONS in Hd.
    destruct (drain na 201 action 0 w0)
      as [[[] | ex |] w1]; cbn [fst snd log] in *;
      specialize (Hd ltac:(lia)); lia.
  - intros c w0 w'. apply drain_ok_empty.
  - intros w200. apply drain_at_cap.
Qed.

(** *** The action handling flag *)

Lemma head_cases n p a w :
  enqueue_action_head n p a w =
  if negb (N.eqb (_release_count (graph w)) 0) then
    (ok false, mk_world (nodes w) (graph w) (log w ++ [log_not_committed a]))
  else
    (ok (negb (_action_handling_ongoing (graph w))),
     mk_world (nodes w)
              (set_action_queue (set_action_handling_ongoing (graph w) true)
                                (_action_queue (graph w) ++ [(n, p, a)]))
              (log w)).
Proof.
  unfold enqueue_action_head, bind, get_graph. simpl.
  destruct (N.eqb (_release_count (graph w)) 0); simpl; [| reflexivity].
  destruct (_action_handling_ongoing (graph w)); reflexivity.
Qed.

Lemma head_starts n p a w w0 :
  enqueue_action_head n p a w = (ok true, w0) ->
  _action_handling_ongoing (graph w0) = true
  /\ _release_count (graph w0) = 0%N.
Proof.
  rewrite head_cases.
  destruct (N.eqb_spec (_release_count (graph w)) 0) as [E | E]; simpl.
  - intros H. inversion H; subst. simpl. auto.
  - discriminate.
Qed.

(** With the flag set, a call on a committed graph appends and returns. *)
Lemma enqueue_action_deferred na n p a w :
  _release_count (graph w) = 0%N ->
  _action_handling_ongoing (graph w) = true ->
  enqueue_action na n p a w = (ok tt, appended [(n, p, a)] w).
Proof.
  intros Hrc Hflag. rewrite enqueue_action_unfold, head_cases, Hrc, Hflag.
  simpl. unfold appended. do 2 f_equal.
  destruct (graph w); simpl in *; subst; reflexivity.
Qed.

Lemma appended_cons c calls w :
  appended (c :: calls) w = appended calls (appended [c] w).
Proof.
  unfold appended. simpl. rewrite <- app_assoc. reflexivity.
Qed.

Lemma appended_nil w : appended [] w = w.
Proof.
  unfold appended. rewrite app_nil_r.
  destruct w as [ns g l]; destruct g; reflexivity.
Qed.

Lemma deferred_calls na : forall calls w,
  _release_count (graph w) = 0%N ->
  _action_handling_ongoing (graph w) = true ->
  for_each calls
    (fun c => enqueue_action na (fst (fst c)) (snd (fst c)) (snd c)) w
  = (ok tt, appended calls w).
Proof.
  induction calls as [| [[n p] a] calls IH]; intros w Hrc Hflag.
  - simpl. rewrite appended_nil. reflexivity.
  - simpl. unfold bind. rewrite (enqueue_action_deferred na n p a w Hrc Hflag).
    rewrite IH by assumption. f_equal. symmetry. apply appended_cons.
Qed.

(** C10.  When the drain ends with the recursion-limit error the action
    handling flag is still set (and the graph is committed); every later
    call of [enqueue_action] then returns normally, having appended its
    action to the queue and nothing else: nothing is delivered, nothing is
    logged, no node is touched. *)
Theorem handling_flag_stuck na src_node src_edge action w w1 :
  enqueue_action na src_node src_edge action w
  = (throw (runtime_error recursion_limit_what), w1) ->
  _action_handling_ongoing (graph w1) = true
  /\ _release_count (graph w1) = 0%N
  /\ forall calls : list queued_action,
       for_each calls
         (fun c => enqueue_action na (fst (fst c)) (snd (fst c)) (snd c)) w1
       = (ok tt, appended calls w1).
Proof.
  intros H. rewrite enqueue_action_unfold in H.
  destruct (enqueue_action_head src_node src_edge action w)
    as [[[|] | ex |] w0] eqn:Hh; try discriminate.
  - destruct (head_starts _ _ _ _ Hh) as [Hflag Hrc].
    pose proof (drain_flag_stays na action 201 0%N w0) as Hf.
    pose proof (drain_keeps_release_count na action 201 0%N w0) as Hk.
    destruct (drain na 201 action 0 w0) as [[[] | ex |] w'] eqn:Hd;
      try discriminate.
    inversion H; subst. cbn [snd] in *.
    assert (Hflag1 : _action_handling_ongoing (graph w1) = true)
      by (apply Hf; exact Hflag).
    assert (Hrc1 : _release_count (graph w1) = 0%N)
      by (unfold keeps in Hk; congruence).
    repeat split; try assumption.
    intros calls. apply deferred_calls; assumption.
  - rewrite head_cases in Hh.
    destruct (negb _) in Hh; discriminate.
Qed.

Lemma handling_flag_stuck_witness :
  let w1 := run (enqueue_action (chain_accessor echo_handler) 0
                   (mk_src OUTPUT_EDGE 0) stream_cmd) chain_committed in
  _action_handling_ongoing (graph w1) = true
  /\ _release_count (graph w1) = 0%N
  /\ forall calls : list queued_action,
       for_each calls
         (fun c => enqueue_action (chain_accessor echo_handler)
                     (fst (fst c)) (snd (fst c)) (snd c)) w1
       = (ok tt, appended calls w1).
Proof.
  apply (@handling_flag_stuck (chain_accessor echo_handler) 0
           (mk_src OUTPUT_EDGE 0) stream_cmd chain_committed).
  vm_compute. reflexivity.
Defined.

(** Output 0 of A feeds input 1 of B: an action posted on input 1 of B
    goes to A, one posted on output 0 of A goes to B. *)
Lemma delivery_recipient_port_witness :
  (exists recipient_port,
     type recipient_port = invert_edge INPUT_EDGE
     /\ (INPUT_EDGE = INPUT_EDGE -> instance recipient_port = 1)
     /\ (INPUT_EDGE = OUTPUT_EDGE -> instance recipient_port = 0)
     /\ (exists tail,
           log (snd (deliver_next (chain_accessor echo_handler) stream_cmd
                       (1, mk_src INPUT_EDGE 1, stream_cmd) skew_pair))
           = log skew_pair
             ++ pop_front stream_cmd
                :: call_send_action 0 recipient_port stream_cmd :: tail
           /\ Forall quiet tail)
     /\ match send_action (chain_accessor echo_handler) 0 recipient_port
                          stream_cmd (nodes skew_pair) with
        | inr (ns', posted) =>
            deliver_next (chain_accessor echo_handler) stream_cmd
                         (1, mk_src INPUT_EDGE 1, stream_cmd) skew_pair
            = for_each posted (post_action 0)
                (mk_world ns' (graph (popped stream_cmd skew_pair))
                          (log (delivering 0 recipient_port stream_cmd
                                           skew_pair)))
            /\ nodes (snd (deliver_next (chain_accessor echo_handler)
                             stream_cmd
                             (1, mk_src INPUT_EDGE 1, stream_cmd) skew_pair))
               = ns'
        | inl ex =>
            deliver_next (chain_accessor echo_handler) stream_cmd
                         (1, mk_src INPUT_EDGE 1, stream_cmd) skew_pair
            = (throw ex, delivering 0 recipient_port stream_cmd skew_pair)
        end)
  /\ (exists recipient_port,
     type recipient_port = invert_edge OUTPUT_EDGE
     /\ (OUTPUT_EDGE = INPUT_EDGE -> instance recipient_port = 1)
     /\ (OUTPUT_EDGE = OUTPUT_EDGE -> instance recipient_port = 0)
     /\ (exists tail,
           log (snd (deliver_next (chain_accessor echo_handler) stream_cmd
                       (0, mk_src OUTPUT_EDGE 0, stream_cmd) skew_pair))
           = log skew_pair
             ++ pop_front stream_cmd
                :: call_send_action 1 recipient_port stream_cmd :: tail
           /\ Forall quiet tail)
     /\ match send_action (chain_accessor echo_handler) 1 recipient_port
                          stream_cmd (nodes skew_pair) with
        | inr (ns', posted) =>
            deliver_next (chain_accessor echo_handler) stream_cmd
                         (0, mk_src OUTPUT_EDGE 0, stream_cmd) skew_pair
            = for_each posted (post_action 1)
                (mk_world ns' (graph (popped stream_cmd skew_pair))
                          (log (delivering 1 recipient_port stream_cmd
                                           skew_pair)))
            /\ nodes (snd (deliver_next (chain_accessor echo_handler)
                             stream_cmd
                             (0, mk_src OUTPUT_EDGE 0, stream_cmd) skew_pair))
               = ns'
        | inl ex =>
            deliver_next (chain_accessor echo_handler) stream_cmd
                         (0, mk_src OUTPUT_EDGE 0, stream_cmd) skew_pair
            = (throw ex, delivering 1 recipient_port stream_cmd skew_pair)
        end).
Proof.
  split.
  - apply (@delivery_recipient_port (chain_accessor echo_handler) stream_cmd
             1 (mk_src INPUT_EDGE 1) stream_cmd skew_pair 1 0
             (mk_edge "A" 0 "B" 1 true)).
    + vm_compute. reflexivity.
    + vm_compute. reflexivity.
  - apply (@delivery_recipient_port (chain_accessor echo_handler) stream_cmd
             0 (mk_src OUTPUT_EDGE 0) stream_cmd skew_pair 0 1
             (mk_edge "A" 0 "B" 1 true)).
    + vm_compute. reflexivity.
    + vm_compute. reflexivity.
Defined.

(** ** Frame facts for the property walk and the checks around it *)

Section Propagation_frame.

Context (R : world -> world -> Prop) `{!PreOrder R} `{!Logging R}.
Variable na : node_accessor_t.

Lemma props_match_loop_respects dst e : forall src b,
  respects R (props_match_loop src dst e b).
Proof.
  induction src as [| [k p] src IH]; intros b; simpl; frame.
Qed.

Local Hint Resolve props_match_loop_respects : frame.

Lemma assert_consistent_respects e :
  respects R (_assert_edge_props_consistent e).
Proof. unfold _assert_edge_props_consistent. frame. Qed.

Local Hint Resolve assert_consistent_respects : frame.

Lemma back_edges_loop_respects : forall es b,
  respects R (back_edges_loop es b).
Proof.
  induction es as [| e es IH]; intros b; simpl; frame.
Qed.

Local Hint Resolve back_edges_loop_respects : frame.

Lemma back_edge_check_respects : respects R back_edge_check.
Proof. unfold back_edge_check. frame. Qed.

Lemma quiescence_check_respects : respects R quiescence_check.
Proof. unfold quiescence_check. frame. Qed.

Lemma check_topology_loop_respects : forall vs b,
  respects R (check_topology_loop na vs b).
Proof.
  induction vs as [| v vs IH]; intros b; simpl; frame.
Qed.

Local Hint Resolve check_topology_loop_respects : frame.

Lemma check_topology_respects : respects R (_check_topology na).
Proof. unfold _check_topology. frame. Qed.

Context `{!NodeWriting R}.

Lemma forward_edge_props_respects origin :
  respects R (_forward_edge_props na origin).
Proof. unfold _forward_edge_props. frame. Qed.

Local Hint Resolve forward_edge_props_respects : frame.

Lemma walk_respects topo initial : forall fuel node_it fwd num,
  respects R (walk na fuel topo initial node_it fwd num).
Proof.
  induction fuel as [| fuel IH]; intros node_it fwd num.
  - intros w; reflexivity.
  - simpl. frame.
Qed.

Local Hint Resolve walk_respects : frame.

Lemma resolve_walk_respects : respects R (resolve_walk na).
Proof. unfold resolve_walk. frame. Qed.

Local Hint Resolve resolve_walk_respects back_edge_check_respects
  quiescence_check_respects : frame.

Lemma resolve_all_properties_respects : respects R (resolve_all_properties na).
Proof. unfold resolve_all_properties. frame. Qed.

End Propagation_frame.

#[export] Hint Extern 1 (respects _ (resolve_all_properties _)) =>
  (apply resolve_all_properties_respects; typeclasses eauto) : frame.
#[export] Hint Extern 1 (respects _ (_check_topology _)) =>
  (apply check_topology_respects; typeclasses eauto) : frame.
#[export] Hint Extern 1 (respects _ (back_edge_check)) =>
  (apply back_edge_check_respects; typeclasses eauto) : frame.
#[export] Hint Extern 1 (respects _ (quiescence_check)) =>
  (apply quiescence_check_respects; typeclasses eauto) : frame.
#[export] Hint Extern 1 (respects _ (resolve_walk _)) =>
  (apply resolve_walk_respects; typeclasses eauto) : frame.

(** ** The commit gate *)

Lemma commit_nonzero na w :
  _release_count (graph w) <> 0%N ->
  commit na w
  = bind (_check_topology na) (fun _ => resolve_all_properties na)
         (decremented w).
Proof.
  intros H. unfold commit, bind at 1, get_graph.
  destruct (N.eqb_spec (_release_count (graph w)) 0); [contradiction |].
  reflexivity.
Qed.

Lemma commit_zero na w :
  _release_count (graph w) = 0%N ->
  commit na w = resolve_all_properties na w.
Proof.
  intros H. unfold commit, bind at 1, get_graph. rewrite H. simpl.
  unfold bind at 1. reflexivity.
Qed.

(** [resolve_all_properties] does nothing on a released graph. *)
Lemma resolve_all_gated na w :
  _release_count (graph w) <> 0%N ->
  resolve_all_properties na w = (ok tt, w).
Proof.
  intros H. unfold resolve_all_properties, bind, get_graph.
  destruct (Nat.eqb _ 0); [reflexivity |].
  destruct (N.eqb_spec (_release_count (graph w)) 0); [contradiction |].
  reflexivity.
Qed.

Lemma check_topology_loop_no_propagation na : forall vs b,
  respects (log_adds no_propagation) (check_topology_loop na vs b).
Proof.
  induction vs as [| v vs IH]; intros b; simpl; frame.
Qed.

Lemma check_topology_no_propagation na :
  respects (log_adds no_propagation) (_check_topology na).
Proof.
  unfold _check_topology. frame. apply check_topology_loop_no_propagation.
Qed.

Lemma vertices_valid_spec w n :
  vertices_valid w = true ->
  In n (vertices (_graph (graph w))) ->
  exists nd, nth_error (nodes w) n = Some nd.
Proof.
  unfold vertices_valid. rewrite forallb_forall. intros H Hin.
  apply H, Nat.ltb_lt in Hin.
  destruct (nth_error (nodes w) n) as [nd |] eqn:E; [eauto |].
  apply nth_error_None in E. lia.
Qed.

(** The topology check calls [check_topology] for every vertex it is
    given. *)
Lemma check_topology_loop_calls na ns g : forall vs b w v n,
  nodes w = ns -> graph w = g ->
  vertices_valid w = true ->
  (forall u, In u vs -> u < length (vertices (_graph g))) ->
  In v vs ->
  nth_error (vertices (_graph g)) v = Some n ->
  In (call_check_topology n (connected_inputs_of v (_graph g))
                          (connected_outputs_of v (_graph g)))
     (log (snd (check_topology_loop na vs b w))).
Proof.
  induction vs as [| v0 vs IH]; intros b w v n Hns Hg Hvalid Hrange Hin Hv;
    [contradiction |].
  assert (Hv0 : exists n0, nth_error (vertices (_graph g)) v0 = Some n0).
  { destruct (nth_error (vertices (_graph g)) v0) as [n0 |] eqn:E; [eauto |].
    apply nth_error_None in E. specialize (Hrange v0 (or_introl eq_refl)). lia. }
  destruct Hv0 as [n0 Hn0].
  assert (Hnd : exists nd, nth_error (nodes w) n0 = Some nd).
  { apply vertices_valid_spec; [exact Hvalid |].
    rewrite Hg. eapply nth_error_In; exact Hn0. }
  destruct Hnd as [nd Hnd].
  simpl. unfold bind at 1, vertex_property, bind at 1, get_graph. simpl.
  rewrite Hg, Hn0. simpl.
  unfold bind at 1. simpl. unfold bind at 1. simpl. unfold bind at 1. simpl.
  rewrite Hg.
  set (ev := call_check_topology n0 (connected_inputs_of v0 (_graph g))
                                 (connected_outputs_of v0 (_graph g))).
  set (w1 := mk_world (nodes w) g (log w ++ [ev])).
  assert (Hstep : forall b' (w2 : world),
             nodes w2 = ns -> graph w2 = g ->
             (exists l, log w2 = log w1 ++ l) ->
             In (call_check_topology n (connected_inputs_of v (_graph g))
                                     (connected_outputs_of v (_graph g)))
                (log (snd (check_topology_loop na vs b' w2)))).
  { intros b' w2 Hns2 Hg2 [l2 Hl2].
    destruct Hin as [<- | Hin].
    - assert (n = n0) by congruence. subst n0.
      destruct (check_topology_loop_respects (R := log_adds any_event)
                  na vs b' w2) as [l [Hl _]].
      rewrite Hl, Hl2. unfold w1. simpl.
      apply in_or_app. left. apply in_or_app. left.
      apply in_or_app. right. left. reflexivity.
    - apply IH; try assumption.
      + unfold vertices_valid in *. rewrite Hns2, Hg2, <- Hns.
        rewrite Hg in Hvalid. exact Hvalid.
      + intros u Hu. apply Hrange. right. exact Hu. }
  destruct (negb (check_topology na n0 _ _ (nodes w))).
  - unfold bind at 1, deref. simpl. rewrite Hnd.
    unfold bind at 1. simpl.
    apply Hstep; simpl; auto. exists [log_bad_topology (get_unique_id nd)].
    reflexivity.
  - apply Hstep; simpl; auto. exists []. rewrite app_nil_r. reflexivity.
Qed.

Lemma check_topology_calls na w v n :
  vertices_valid w = true ->
  nth_error (vertices (_graph (graph w))) v = Some n ->
  In (call_check_topology n (connected_inputs_of v (_graph (graph w)))
                          (connected_outputs_of v (_graph (graph w))))
     (log (snd (_check_topology na w))).
Proof.
  intros Hvalid Hv. unfold _check_topology, bind at 1, get_graph. simpl.
  assert (Hin : In (call_check_topology n
                      (connected_inputs_of v (_graph (graph w)))
                      (connected_outputs_of v (_graph (graph w))))
                   (log (snd (check_topology_loop na
                                (seq 0 (length (vertices (_graph (graph w)))))
                                true w)))).
  { eapply check_topology_loop_calls; try reflexivity; try assumption.
    - intros u Hu. apply in_seq in Hu. lia.
    - apply in_seq. split; [lia |]. simpl.
      apply nth_error_Some. congruence. }
  unfold bind.
  destruct (check_topology_loop na _ true w) as [[[|] | ex |] w1];
    simpl in *; exact Hin.
Qed.

(** C4, amended.  [release] increments the counter (modulo the range of
    [size_t]).  [commit] on a non-zero counter decrements it and then calls
    [check_topology] for every node, whether or not the counter has
    reached zero; if the counter is still non-zero, nothing is propagated
    and the commit amounts to the topology check; if it has reached zero
    and the topology check passes, [resolve_all_properties] runs on the
    committed graph.  [commit] on a zero counter neither decrements nor
    checks the topology and runs [resolve_all_properties]. *)
Theorem commit_gate na w :
  vertices_valid w = true ->
  let c := _release_count (graph w) in
  release w
  = (ok tt, mk_world (nodes w)
                     (set_release_count (graph w)
                                        ((c + 1) mod size_t_modulus)%N)
                     (log w))
  /\ (c <> 0%N ->
      _release_count (graph (run (commit na) w)) = N.pred c
      /\ (forall v n,
            nth_error (vertices (_graph (graph w))) v = Some n ->
            In (call_check_topology n
                  (connected_inputs_of v (_graph (graph w)))
                  (connected_outputs_of v (_graph (graph w))))
               (log (run (commit na) w)))
      /\ (N.pred c <> 0%N ->
            commit na w = _check_topology na (decremented w)
            /\ nodes (run (commit na) w) = nodes w
            /\ exists l, log (run (commit na) w) = log w ++ l
                         /\ Forall no_propagation l)
      /\ (N.pred c = 0%N ->
            forall r w2, _check_topology na (decremented w) = (r, w2) ->
              _release_count (graph w2) = 0%N
              /\ (r = ok tt -> commit na w = resolve_all_properties na w2)
              /\ (forall e, r = throw e -> commit na w = (throw e, w2))))
  /\ (c = 0%N -> commit na w = resolve_all_properties na w).
Proof.
  intros Hvalid c. split; [reflexivity | split].
  - intros Hc. unfold run. rewrite !(commit_nonzero na w Hc).
    assert (Hcheck_rc :
              _release_count (graph (snd (_check_topology na (decremented w))))
              = N.pred c).
    { assert (H : respects (keeps (fun w => _release_count (graph w)))
                           (_check_topology na)) by frame.
      exact (H (decremented w)). }
    split; [| split; [| split]].
    + assert (H : respects (keeps (fun w => _release_count (graph w)))
                           (bind (_check_topology na)
                                 (fun _ => resolve_all_properties na)))
        by frame.
      exact (H (decremented w)).
    + intros v n Hv.
      pose proof (@check_topology_calls na (decremented w) v n Hvalid Hv) as Hin.
      unfold bind.
      destruct (_check_topology na (decremented w)) as [[[] | ex |] w1];
        simpl in *; try exact Hin.
      destruct (resolve_all_properties_respects (R := log_adds any_event)
                  na w1) as [l [Hl _]].
      rewrite Hl. apply in_or_app. left. exact Hin.
    + intros Hpred.
      assert (Heq : bind (_check_topology na)
                         (fun _ => resolve_all_properties na) (decremented w)
                    = _check_topology na (decremented w)).
      { unfold bind.
        destruct (_check_topology na (decremented w)) as [[[] | ex |] w1];
          simpl in *; try reflexivity.
        apply resolve_all_gated. fold c. congruence. }
      rewrite Heq. split; [reflexivity | split].
      * assert (H : respects logs_only (_check_topology na)) by frame.
        specialize (H (decremented w)). unfold logs_only, keeps in H.
        simpl in H. congruence.
      * apply (check_topology_no_propagation na (decremented w)).
    + intros Hpred r w2 Hchk. rewrite Hchk in Hcheck_rc. simpl in Hcheck_rc.
      split; [congruence | split].
      * intros ->. unfold bind. rewrite Hchk. reflexivity.
      * intros e ->. unfold bind. rewrite Hchk. reflexivity.
  - intros Hc. apply commit_zero. exact Hc.
Qed.

Lemma commit_gate_witness :
  vertices_valid (run release chain_connected) = true
  /\ _release_count
       (graph (run (commit (chain_accessor drop_handler))
                   (run release chain_connected))) = 1%N
  /\ In (call_check_topology 1 [0] [0])
        (log (run (commit (chain_accessor drop_handler))
                  (run release chain_connected))).
Proof.
  destruct (@commit_gate (chain_accessor drop_handler)
              (run release chain_connected) eq_refl) as [_ [H _]].
  destruct (H ltac:(discriminate)) as [Hrc [Hcalls _]].
  split; [reflexivity | split].
  - exact Hrc.
  - exact (Hcalls 1 1 eq_refl).
Defined.

(** C4 as worded fails: a commit that leaves the counter at one still
    runs the topology check on every node. *)
Lemma commit_gate_counterexample :
  ~ commit_claim_as_stated (chain_accessor drop_handler)
                           (run release chain_connected).
Proof.
  intros [_ [_ H]].
  assert (Hne : _release_count
                  (graph (run (commit (chain_accessor drop_handler))
                              (run release chain_connected))) <> 0%N)
    by (vm_compute; discriminate).
  specialize (H Hne
                [call_check_topology 0 [] [0]; call_check_topology 1 [0] [0];
                 call_check_topology 2 [0] []] eq_refl).
  inversion H as [| ev l Hev _]. discriminate Hev.
Qed.

(** ** The quiescence check *)

Lemma combine_seq_In A (l : list A) : forall a i x,
  nth_error l i = Some x -> In (a + i, x) (combine (seq a (length l)) l).
Proof.
  induction l as [| y l IH]; intros a i x H.
  - destruct i; discriminate.
  - destruct i as [| i]; simpl in *.
    + inversion H; subst. left. f_equal. lia.
    + right. replace (a + S i) with (S a + i) by lia. apply IH. exact H.
Qed.

Lemma filter_props_In nd predicate p :
  In p (_props nd) -> predicate p = true ->
  exists i, In (i, p) (filter_props nd predicate).
Proof.
  intros Hin Hp. apply In_nth_error in Hin. destruct Hin as [i Hi].
  exists i. unfold filter_props. apply filter_In. split; [| exact Hp].
  apply (combine_seq_In (_props nd) 0 i Hi).
Qed.

Lemma filter_props_inv nd predicate i p :
  In (i, p) (filter_props nd predicate) ->
  In p (_props nd) /\ predicate p = true.
Proof.
  unfold filter_props. rewrite filter_In. intros [Hin Hp]. split; [| exact Hp].
  eapply in_combine_r. exact Hin.
Qed.

Lemma DirtyNodePredicate_eval w v n nd :
  nth_error (vertices (_graph (graph w))) v = Some n ->
  nth_error (nodes w) n = Some nd ->
  DirtyNodePredicate v w = (ok (has_dirty w v), w).
Proof.
  intros Hv Hn.
  unfold DirtyNodePredicate, has_dirty, dirty_report, bind, vertex_property,
    bind, get_graph, get_dirty_props, bind, deref.
  simpl. rewrite Hv. simpl. rewrite Hn. simpl. rewrite length_map.
  reflexivity.
Qed.

Lemma DirtyNodePredicate_inv w v b w' :
  DirtyNodePredicate v w = (ok b, w') ->
  exists n nd,
    nth_error (vertices (_graph (graph w))) v = Some n
    /\ nth_error (nodes w) n = Some nd
    /\ b = has_dirty w v /\ w' = w.
Proof.
  intros H.
  destruct (nth_error (vertices (_graph (graph w))) v) as [n |] eqn:Hv.
  - destruct (nth_error (nodes w) n) as [nd |] eqn:Hn.
    + rewrite (DirtyNodePredicate_eval w v Hv Hn) in H.
      inversion H; subst. exists n, nd. auto.
    + unfold DirtyNodePredicate, bind, vertex_property, bind, get_graph,
        get_dirty_props, bind, deref in H.
      simpl in H. rewrite Hv in H. simpl in H. rewrite Hn in H. discriminate.
  - unfold DirtyNodePredicate, bind, vertex_property, bind, get_graph in H.
    simpl in H. rewrite Hv in H. discriminate.
Qed.

Lemma filter_M_eval A (p : A -> M bool) (f : A -> bool) w : forall l,
  (forall x, In x l -> p x w = (ok (f x), w)) ->
  filter_M l p w = (ok (filter f l), w).
Proof.
  induction l as [| x l IH]; intros H; simpl.
  - reflexivity.
  - unfold bind. rewrite (H x (or_introl eq_refl)).
    rewrite IH by (intros y Hy; apply H; right; exact Hy).
    reflexivity.
Qed.

Lemma filter_M_inv A (p : A -> M bool) w : forall l r w',
  (forall x, reads (p x)) ->
  filter_M l p w = (ok r, w') ->
  w' = w /\ forall x, In x l -> exists b, p x w = (ok b, w)
                                          /\ (b = true -> In x r).
Proof.
  induction l as [| x l IH]; intros r w' Hr H; simpl in H.
  - inversion H; subst. split; [reflexivity | contradiction].
  - apply bind_inv_ok in H. destruct H as [b [w1 [Hp H]]].
    apply bind_inv_ok in H. destruct H as [kept [w2 [Hk H]]].
    inversion H; subst. clear H.
    assert (w1 = w) by (pose proof (Hr x w) as E; rewrite Hp in E; exact E).
    subst w1. destruct (IH kept w' Hr Hk) as [-> Hall].
    split; [reflexivity |]. intros y [<- | Hy].
    + exists b. split; [exact Hp |]. intros ->. left. reflexivity.
    + destruct (Hall y Hy) as [b' [Hb' Hin]]. exists b'. split; [exact Hb' |].
      intros E. specialize (Hin E). destruct b; [right |]; exact Hin.
Qed.

Lemma find_dirty_nodes_inv w r w' :
  _find_dirty_nodes w = (ok r, w') ->
  w' = w
  /\ forall v n,
       nth_error (vertices (_graph (graph w))) v = Some n ->
       exists nd, nth_error (nodes w) n = Some nd
                  /\ (has_dirty w v = true -> In v r).
Proof.
  unfold _find_dirty_nodes, bind at 1, get_graph. simpl. intros H.
  apply filter_M_inv in H; [| apply reads_DirtyNodePredicate].
  destruct H as [-> Hall]. split; [reflexivity |]. intros v n Hv.
  assert (Hin : In v (seq 0 (length (vertices (_graph (graph w)))))).
  { apply in_seq. split; [lia |]. simpl. apply nth_error_Some. congruence. }
  destruct (Hall v Hin) as [b [Hb Hr]].
  apply DirtyNodePredicate_inv in Hb.
  destruct Hb as [n' [nd [Hv' [Hn [-> _]]]]].
  assert (n' = n) by congruence. subst n'. exists nd. auto.
Qed.

Lemma find_dirty_nodes_eval w :
  vertices_valid w = true ->
  _find_dirty_nodes w
  = (ok (filter (has_dirty w) (seq 0 (length (vertices (_graph (graph w)))))),
     w).
Proof.
  intros Hvalid. unfold _find_dirty_nodes, bind at 1, get_graph. simpl.
  apply filter_M_eval. intros v Hv. apply in_seq in Hv.
  destruct (nth_error (vertices (_graph (graph w))) v) as [n |] eqn:E.
  - destruct (vertices_valid_spec w n Hvalid) as [nd Hnd].
    + eapply nth_error_In. exact E.
    + eapply DirtyNodePredicate_eval; eassumption.
  - apply nth_error_None in E. lia.
Qed.

Lemma has_dirty_offender w v n nd p :
  offender w v n nd p -> has_dirty w v = true.
Proof.
  intros (Hv & Hn & Hin & Hd & Ht).
  unfold has_dirty, dirty_report. rewrite Hv, Hn, length_map.
  destruct (@filter_props_In nd dirty_pred p Hin) as [i Hi].
  - unfold dirty_pred. rewrite Hd. simpl.
    destruct (source_eqb (type (get_src_info p)) FRAMEWORK) eqn:E;
      [apply source_eqb_eq in E; contradiction | reflexivity].
  - destruct (filter_props nd dirty_pred); [contradiction | reflexivity].
Qed.

Lemma clean_no_offender w v n nd p :
  has_dirty w v = false ->
  nth_error (vertices (_graph (graph w))) v = Some n ->
  nth_error (nodes w) n = Some nd ->
  In p (_props nd) -> is_dirty p = true ->
  type (get_src_info p) = FRAMEWORK.
Proof.
  intros Hc Hv Hn Hin Hd.
  destruct (source_eqb (type (get_src_info p)) FRAMEWORK) eqn:E;
    [apply source_eqb_eq; exact E |].
  assert (Ho : offender w v n nd p).
  { repeat split; try assumption. intros F. apply source_eqb_eq in F.
    congruence. }
  apply has_dirty_offender in Ho. congruence.
Qed.

(** The reporting loop of the quiescence check. *)
Lemma report_props_eval node_id : forall (l : list (nat * property_base_t)) w,
  for_each l (fun ip => UHD_LOG (log_dirty_prop node_id (get_src_info (snd ip))
                                                (get_id (snd ip)))) w
  = (ok tt,
     with_log w
       (log w ++ map (fun ip => log_dirty_prop node_id (get_src_info (snd ip))
                                               (get_id (snd ip))) l)).
Proof.
  induction l as [| ip l IH]; intros w; simpl.
  - unfold ret, with_log. rewrite app_nil_r. destruct w; reflexivity.
  - unfold bind, UHD_LOG. rewrite IH. unfold with_log. simpl.
    rewrite <- app_assoc. reflexivity.
Qed.

Lemma for_each_logging A (body : A -> M unit) (f : A -> list event) ns g :
  forall (l : list A) w,
  nodes w = ns -> graph w = g ->
  (forall x w0, In x l -> nodes w0 = ns -> graph w0 = g ->
     body x w0 = (ok tt, with_log w0 (log w0 ++ f x))) ->
  for_each l body w = (ok tt, with_log w (log w ++ flat_map f l)).
Proof.
  induction l as [| x l IH]; intros w Hns Hg Hbody.
  - simpl. unfold ret, with_log. rewrite app_nil_r. destruct w; reflexivity.
  - cbn [for_each flat_map]. unfold bind.
    rewrite (Hbody x w (or_introl eq_refl) Hns Hg).
    rewrite IH; try assumption.
    + unfold with_log. simpl. rewrite <- app_assoc. reflexivity.
    + intros y w0 Hy. apply Hbody. right. exact Hy.
Qed.

Lemma report_node_eval w v :
  vertices_valid w = true ->
  v < length (vertices (_graph (graph w))) ->
  (node <- vertex_property v ;;
   nd <- deref node ;;
   let node_id := get_unique_id nd in
   dirty_props <- get_dirty_props node ;;
   for_each dirty_props (fun ip =>
     UHD_LOG (log_dirty_prop node_id (get_src_info (snd ip))
                             (get_id (snd ip))))) w
  = (ok tt, with_log w (log w ++ dirty_report w v)).
Proof.
  intros Hvalid Hrange.
  assert (Hv : exists n, nth_error (vertices (_graph (graph w))) v = Some n).
  { destruct (nth_error (vertices (_graph (graph w))) v) as [n |] eqn:E;
      [eauto |].
    apply nth_error_None in E. lia. }
  destruct Hv as [n Hv].
  destruct (vertices_valid_spec w n Hvalid) as [nd Hnd];
    [eapply nth_error_In; exact Hv |].
  unfold bind at 1, vertex_property, bind at 1, get_graph. simpl.
  rewrite Hv. simpl. unfold bind at 1, deref. rewrite Hnd.
  unfold bind at 1, get_dirty_props, bind at 1, deref. rewrite Hnd. simpl.
  rewrite report_props_eval. unfold dirty_report. rewrite Hv, Hnd.
  reflexivity.
Qed.

Lemma dirty_report_ext w w0 v :
  nodes w0 = nodes w -> graph w0 = graph w ->
  dirty_report w0 v = dirty_report w v.
Proof. intros Hn Hg. unfold dirty_report. rewrite Hn, Hg. reflexivity. Qed.

Lemma vertices_valid_ext w w0 :
  nodes w0 = nodes w -> graph w0 = graph w ->
  vertices_valid w0 = vertices_valid w.
Proof. intros Hn Hg. unfold vertices_valid. rewrite Hn, Hg. reflexivity. Qed.

Lemma bind_raise_not_ok A B (m : M A) e w (b : B) w' :
  bind m (fun _ => raise e) w <> (ok b, w').
Proof. unfold bind. destruct (m w) as [[a | ex |] w1]; discriminate. Qed.

(** With a dirty vertex left, the check logs every dirty property of every
    dirty vertex and throws. *)
Lemma quiescence_check_dirty w :
  vertices_valid w = true ->
  let dirty_nodes :=
    filter (has_dirty w) (seq 0 (length (vertices (_graph (graph w))))) in
  dirty_nodes <> [] ->
  quiescence_check w
  = (throw (resolve_error could_not_resolve_what),
     with_log w (log w ++ log_could_not_resolve
                          :: flat_map (dirty_report w) dirty_nodes)).
Proof.
  intros Hvalid dirty_nodes Hne.
  unfold quiescence_check. unfold bind at 1.
  rewrite (find_dirty_nodes_eval w Hvalid). fold dirty_nodes.
  destruct dirty_nodes as [| v0 rest] eqn:E; [congruence |].
  unfold bind at 1, UHD_LOG. unfold bind at 1.
  set (w1 := mk_world (nodes w) (graph w) (log w ++ [log_could_not_resolve])).
  erewrite (@for_each_logging _ _ (dirty_report w) (nodes w) (graph w)
              (v0 :: rest) w1); try reflexivity.
  - unfold raise, with_log. simpl. rewrite <- app_assoc. reflexivity.
  - intros v w0 Hin Hns Hg.
    rewrite <- (dirty_report_ext w w0 v Hns Hg).
    apply report_node_eval.
    + rewrite (vertices_valid_ext w w0 Hns Hg). exact Hvalid.
    + rewrite Hg. rewrite <- E in Hin. unfold dirty_nodes in Hin.
      apply filter_In in Hin. destruct Hin as [Hin _].
      apply in_seq in Hin. lia.
Qed.

Lemma quiescence_check_ok_inv w w' :
  quiescence_check w = (ok tt, w') ->
  w' = w
  /\ forall v n,
       nth_error (vertices (_graph (graph w))) v = Some n ->
       exists nd, nth_error (nodes w) n = Some nd /\ has_dirty w v = false.
Proof.
  unfold quiescence_check. intros H.
  apply bind_inv_ok in H. destruct H as [r [w1 [Hfind H]]].
  apply find_dirty_nodes_inv in Hfind. destruct Hfind as [-> Hall].
  destruct r as [| v0 rest].
  - inversion H; subst. split; [reflexivity |]. intros v n Hv.
    destruct (Hall v n Hv) as [nd [Hnd Hd]]. exists nd. split; [exact Hnd |].
    destruct (has_dirty w' v); [destruct (Hd eq_refl) | reflexivity].
  - exfalso. apply bind_inv_ok in H. destruct H as [[] [w2 [_ H]]].
    eapply bind_raise_not_ok; exact H.
Qed.

Lemma resolve_all_committed na w :
  _release_count (graph w) = 0%N ->
  vertices (_graph (graph w)) <> [] ->
  resolve_all_properties na w
  = bind (resolve_walk na)
         (fun _ => bind quiescence_check (fun _ => back_edge_check)) w.
Proof.
  intros Hrc Hne. unfold resolve_all_properties, bind at 1, get_graph.
  simpl. rewrite Hrc. simpl.
  destruct (vertices (_graph (graph w))); [congruence | reflexivity].
Qed.

(** C1.  On a committed graph: when [resolve_all_properties] returns
    normally, no property of a node of the graph is dirty unless its
    source is the framework; and when the walk has ended and such a
    property is left, the call throws the resolve error, having reported
    the node id and the property (source and id) of every one of them. *)
Theorem no_dirty_after_resolve na w :
  _release_count (graph w) = 0%N ->
  (forall w',
     resolve_all_properties na w = (ok tt, w') ->
     forall v n nd p,
       nth_error (vertices (_graph (graph w'))) v = Some n ->
       nth_error (nodes w') n = Some nd ->
       In p (_props nd) -> is_dirty p = true ->
       type (get_src_info p) = FRAMEWORK)
  /\ (forall w1,
        vertices (_graph (graph w)) <> [] ->
        resolve_walk na w = (ok tt, w1) ->
        vertices_valid w1 = true ->
        (exists v n nd p, offender w1 v n nd p) ->
        exists w2,
          resolve_all_properties na w
          = (throw (resolve_error could_not_resolve_what), w2)
          /\ forall v n nd p,
               offender w1 v n nd p ->
               In (log_dirty_prop (get_unique_id nd) (get_src_info p)
                                  (get_id p)) (log w2)).
Proof.
  intros Hrc. split.
  - intros w' H v n nd p Hv Hn Hin Hd.
    destruct (vertices (_graph (graph w))) as [| n0 ns] eqn:Hvs.
    + unfold resolve_all_properties, bind at 1, get_graph in H. simpl in H.
      rewrite Hvs in H. simpl in H. inversion H; subst.
      rewrite Hvs in Hv. destruct v; discriminate.
    + rewrite resolve_all_committed in H.
      2: exact Hrc.
      2: { rewrite Hvs. discriminate. }
      apply bind_inv_ok in H. destruct H as [[] [w1 [_ H]]].
      apply bind_inv_ok in H. destruct H as [[] [w2 [Hq Hb]]].
      apply quiescence_check_ok_inv in Hq. destruct Hq as [-> Hclean].
      assert (Hsame : logs_only w1 w').
      { pose proof (back_edge_check_respects (R := logs_only) w1) as Hf.
        rewrite Hb in Hf. exact Hf. }
      unfold logs_only, keeps in Hsame. inversion Hsame as [[Hnodes Hgraph]].
      rewrite Hgraph in Hv. rewrite Hnodes in Hn.
      destruct (Hclean v n Hv) as [nd' [Hnd' Hc]].
      exact (@clean_no_offender w1 v n nd p Hc Hv Hn Hin Hd).
  - intros w1 Hne Hwalk Hvalid [v [n [nd [p Ho]]]].
    rewrite (resolve_all_committed na w Hrc Hne).
    rewrite (@bind_ok _ _ _ _ _ _ _ Hwalk).
    assert (Hdirty : filter (has_dirty w1)
                       (seq 0 (length (vertices (_graph (graph w1))))) <> []).
    { assert (Hin : In v (filter (has_dirty w1)
                            (seq 0 (length (vertices (_graph (graph w1))))))).
      { apply filter_In. split.
        - apply in_seq. split; [lia |]. simpl. apply nth_error_Some.
          destruct Ho as [Hv _]. congruence.
        - eapply has_dirty_offender. exact Ho. }
      intros E. rewrite E in Hin. contradiction. }
    eexists. split.
    + erewrite bind_throw; [reflexivity |].
      apply (quiescence_check_dirty w1 Hvalid Hdirty).
    + intros v' n' nd' p' Ho'. unfold with_log. simpl.
      apply in_or_app. right. right. apply in_flat_map. exists v'. split.
      * apply filter_In. split.
        -- apply in_seq. split; [lia |]. simpl. apply nth_error_Some.
           destruct Ho' as [Hv' _]. congruence.
        -- eapply has_dirty_offender. exact Ho'.
      * destruct Ho' as (Hv' & Hn' & Hin' & Hd' & Ht').
        unfold dirty_report. rewrite Hv', Hn'.
        destruct (@filter_props_In nd' dirty_pred p' Hin') as [i Hi].
        -- unfold dirty_pred. rewrite Hd'. simpl.
           destruct (source_eqb (type (get_src_info p')) FRAMEWORK) eqn:E;
             [apply source_eqb_eq in E; contradiction | reflexivity].
        -- apply in_map_iff. exists (i, p'). split; [reflexivity | exact Hi].
Qed.

(** ** [connect] *)

(** C6: the code at the failing input.  A second, identical call of
    [connect] logs that the repeated call is ignored, returns normally and
    has added the edge a second time. *)
Theorem repeated_connect_adds_second_edge :
  let e := mk_edge "A" 0 "B" 0 true in
  let w1 := run (connect 0 1 (edge_request 0 0 true)) (world_init chain_nodes) in
  let w2 := run (connect 0 1 (edge_request 0 0 true)) w1 in
  fst (connect 0 1 (edge_request 0 0 true) w1) = ok tt
  /\ edges (_graph (graph w1)) = [(0, 1, e)]
  /\ edges (_graph (graph w2)) = [(0, 1, e); (0, 1, e)]
  /\ In (log_ignoring_repeated e) (log w2).
Proof.
  cbv zeta. split; [| split; [| split]]; vm_compute; auto.
Qed.

Lemma bind_assoc A B C (m : M A) (k : A -> M B) (h : B -> M C) w :
  bind (bind m k) h w = bind m (fun a => bind (k a) h) w.
Proof. unfold bind. destruct (m w) as [[a | e |] w1]; reflexivity. Qed.

Lemma connect_split src_node dst_node e w src dst :
  nth_error (nodes w) src_node = Some src ->
  nth_error (nodes w) dst_node = Some dst ->
  connect src_node dst_node e w
  = bind (register_nodes src_node dst_node)
         (fun _ => insert_edge src_node dst_node (populated src dst e)) w.
Proof.
  intros Hs Hd.
  unfold connect, register_nodes, insert_edge, populated, bind, deref.
  rewrite Hs, Hd.
  repeat match goal with
         | |- context [update_node ?n ?f ?w0] =>
             destruct (update_node n f w0) as [[[] | ? |] ?]; try reflexivity
         | |- context [_add_node ?n ?w0] =>
             destruct (_add_node n w0) as [[[] | ? |] ?]; try reflexivity
         end.
Qed.

Lemma nth_error_list_update_eq A (l : list A) : forall n x,
  n < length l -> nth_error (list_update l n x) n = Some x.
Proof.
  induction l as [| y l IH]; intros n x H; simpl in *; [lia |].
  destruct n; simpl; [reflexivity | apply IH; lia].
Qed.

Lemma nth_error_list_update_neq A (l : list A) : forall n m x,
  m <> n -> nth_error (list_update l n x) m = nth_error l m.
Proof.
  induction l as [| y l IH]; intros n m x H; simpl; [reflexivity |].
  destruct n, m; simpl; try reflexivity; try congruence.
  apply IH. congruence.
Qed.

Lemma list_update_same A (l : list A) : forall n x,
  nth_error l n = Some x -> list_update l n x = l.
Proof.
  induction l as [| y l IH]; intros n x H; simpl; [reflexivity |].
  destruct n; simpl in *.
  - congruence.
  - f_equal. apply IH. exact H.
Qed.

Lemma length_list_update A (l : list A) : forall n x,
  length (list_update l n x) = length l.
Proof.
  induction l as [| y l IH]; intros n x; simpl; [reflexivity |].
  destruct n; simpl; [reflexivity | f_equal; apply IH].
Qed.

Lemma length_install n f ns : length (install n f ns) = length ns.
Proof.
  unfold install. destruct (nth_error ns n); [apply length_list_update |].
  reflexivity.
Qed.

(** Installing a callback changes neither which nodes exist nor their ids
    or properties. *)
Lemma install_callback_at n f ns m nd :
  (forall x, get_unique_id (f x) = get_unique_id x) ->
  (forall x, _props (f x) = _props x) ->
  nth_error ns m = Some nd ->
  exists nd', nth_error (install n f ns) m = Some nd'
              /\ get_unique_id nd' = get_unique_id nd
              /\ _props nd' = _props nd.
Proof.
  intros Hid Hprops Hm. unfold install.
  destruct (nth_error ns n) as [x |] eqn:Hn; [| eauto].
  destruct (Nat.eq_dec m n) as [-> | Hne].
  - rewrite nth_error_list_update_eq
      by (apply nth_error_Some; congruence).
    assert (x = nd) by congruence. subst x. eauto.
  - rewrite nth_error_list_update_neq by exact Hne. eauto.
Qed.

Lemma installed_at s d ns m nd :
  nth_error ns m = Some nd ->
  exists nd', nth_error (installed s d ns) m = Some nd'
              /\ get_unique_id nd' = get_unique_id nd
              /\ _props nd' = _props nd.
Proof.
  intros H0. unfold installed.
  destruct (@install_callback_at s (set_resolve_all_callback cb_graph) _ m nd
              (fun _ => eq_refl) (fun _ => eq_refl) H0) as [n1 [H1 [I1 P1]]].
  destruct (@install_callback_at d (set_resolve_all_callback cb_graph) _ m n1
              (fun _ => eq_refl) (fun _ => eq_refl) H1) as [n2 [H2 [I2 P2]]].
  destruct (@install_callback_at s (set_post_action_callback cb_graph) _ m n2
              (fun _ => eq_refl) (fun _ => eq_refl) H2) as [n3 [H3 [I3 P3]]].
  destruct (@install_callback_at d (set_post_action_callback cb_graph) _ m n3
              (fun _ => eq_refl) (fun _ => eq_refl) H3) as [n4 [H4 [I4 P4]]].
  exists n4. repeat split; congruence.
Qed.

Lemma update_node_eval n f w nd :
  nth_error (nodes w) n = Some nd ->
  update_node n f w
  = (ok tt, mk_world (install n f (nodes w)) (graph w) (log w)).
Proof.
  intros H. unfold update_node, install. rewrite H. reflexivity.
Qed.

Lemma add_node_eval n w :
  _add_node n w = (ok tt, mk_world (nodes w) (add_node_g n (graph w)) (log w)).
Proof.
  unfold _add_node, add_node_g, bind, get_graph. simpl.
  destruct (node_map_find (_node_map (graph w)) n); [| reflexivity].
  destruct w; reflexivity.
Qed.

Lemma register_nodes_eval s d w src dst :
  nth_error (nodes w) s = Some src ->
  nth_error (nodes w) d = Some dst ->
  register_nodes s d w
  = (ok tt, mk_world (installed s d (nodes w))
                     (add_node_g d (add_node_g s (graph w)))
                     (log w)).
Proof.
  intros Hs Hd. unfold register_nodes, installed.
  set (f1 := set_resolve_all_callback cb_graph).
  set (f2 := set_post_action_callback cb_graph).
  assert (I1 : forall x, get_unique_id (f1 x) = get_unique_id x)
    by reflexivity.
  assert (P1 : forall x, _props (f1 x) = _props x) by reflexivity.
  assert (I2 : forall x, get_unique_id (f2 x) = get_unique_id x)
    by reflexivity.
  assert (P2 : forall x, _props (f2 x) = _props x) by reflexivity.
  unfold bind at 1. rewrite (update_node_eval s f1 w Hs).
  destruct (@install_callback_at s f1 _ _ _ I1 P1 Hd) as [d1 [Hd1 _]].
  unfold bind at 1. erewrite update_node_eval by (simpl; exact Hd1). simpl.
  destruct (@install_callback_at s f1 _ _ _ I1 P1 Hs) as [s1 [Hs1 _]].
  destruct (@install_callback_at d f1 _ _ _ I1 P1 Hs1) as [s2 [Hs2 _]].
  unfold bind at 1. erewrite update_node_eval by (simpl; exact Hs2). simpl.
  destruct (@install_callback_at d f1 _ _ _ I1 P1 Hd1) as [d2 [Hd2 _]].
  destruct (@install_callback_at s f2 _ _ _ I2 P2 Hd2) as [d3 [Hd3 _]].
  unfold bind at 1. erewrite update_node_eval by (simpl; exact Hd3). simpl.
  unfold bind at 1. rewrite add_node_eval. simpl.
  rewrite add_node_eval. reflexivity.
Qed.

Lemma prepared_eval s d w src dst :
  nth_error (nodes w) s = Some src ->
  nth_error (nodes w) d = Some dst ->
  prepared s d w
  = mk_world (installed s d (nodes w))
             (add_node_g d (add_node_g s (graph w))) (log w).
Proof.
  intros Hs Hd. unfold prepared, run.
  rewrite (register_nodes_eval s d w Hs Hd). reflexivity.
Qed.

(** [_add_node] keeps the edges and the members other than the vertices
    and the node map. *)
Lemma add_node_g_edges n g : edges (_graph (add_node_g n g)) = edges (_graph g).
Proof.
  unfold add_node_g. destruct (node_map_find (_node_map g) n); reflexivity.
Qed.

Lemma add_node_g_members n g :
  _release_count (add_node_g n g) = _release_count g
  /\ _action_queue (add_node_g n g) = _action_queue g
  /\ _action_handling_ongoing (add_node_g n g) = _action_handling_ongoing g.
Proof.
  unfold add_node_g. destruct (node_map_find (_node_map g) n); auto.
Qed.

Lemma add_node_g_registered n g v :
  node_map_find (_node_map g) n = Some v -> add_node_g n g = g.
Proof. intros H. unfold add_node_g. rewrite H. reflexivity. Qed.

Lemma node_map_find_app m m' n v :
  node_map_find m n = Some v -> node_map_find (m ++ m') n = Some v.
Proof.
  induction m as [| [k u] m IH]; simpl; [discriminate |].
  destruct (Nat.eqb k n); auto.
Qed.

Lemma node_map_find_app_new m n v :
  node_map_find m n = None -> node_map_find (m ++ [(n, v)]) n = Some v.
Proof.
  induction m as [| [k u] m IH]; simpl.
  - rewrite Nat.eqb_refl. reflexivity.
  - destruct (Nat.eqb k n); [discriminate | auto].
Qed.

Lemma add_node_g_keeps n g m v :
  node_map_find (_node_map g) m = Some v ->
  node_map_find (_node_map (add_node_g n g)) m = Some v.
Proof.
  intros H. unfold add_node_g.
  destruct (node_map_find (_node_map g) n); [exact H |].
  simpl. apply node_map_find_app. exact H.
Qed.

Lemma add_node_g_finds n g :
  exists v, node_map_find (_node_map (add_node_g n g)) n = Some v.
Proof.
  unfold add_node_g.
  destruct (node_map_find (_node_map g) n) as [v |] eqn:E.
  - exists v. exact E.
  - simpl. eexists. apply node_map_find_app_new. exact E.
Qed.

(** *** Reconnecting an input port *)

Lemma edge_eqb_true a b :
  edge_eqb a b = true ->
  src_blockid a = src_blockid b /\ src_port a = src_port b
  /\ dst_blockid a = dst_blockid b /\ dst_port a = dst_port b
  /\ property_propagation_active a = property_propagation_active b.
Proof.
  unfold edge_eqb. rewrite !andb_true_iff.
  intros [[[[H1 H2] H3] H4] H5].
  apply String.eqb_eq in H1, H3. apply Nat.eqb_eq in H2, H4.
  apply Bool.eqb_prop in H5. auto.
Qed.

Lemma edge_eqb_refl a : edge_eqb a a = true.
Proof.
  unfold edge_eqb.
  rewrite !String.eqb_refl, !Nat.eqb_refl, Bool.eqb_reflx. reflexivity.
Qed.

(** What [assert_edge_new] does with an existing edge that leaves another
    output port than the one requested. *)
Lemma assert_edge_new_src_free new ex w :
  ~ (src_blockid ex = src_blockid new /\ src_port ex = src_port new) ->
  assert_edge_new new ex w
  = if String.eqb (dst_blockid new) (dst_blockid ex)
       && Nat.eqb (dst_port new) (dst_port ex)
    then (throw (rfnoc_error reconnect_input_what),
          with_log w (log w ++ [log_reconnect_input ex]))
    else (ok tt, w).
Proof.
  intros Hfree. unfold assert_edge_new.
  destruct (edge_eqb ex new) eqn:Eq.
  { apply edge_eqb_true in Eq. exfalso. apply Hfree. tauto. }
  assert (Hsrc : Nat.eqb (src_port ex) (src_port new)
                 && String.eqb (src_blockid ex) (src_blockid new) = false).
  { destruct (Nat.eqb_spec (src_port ex) (src_port new)); [| reflexivity].
    destruct (String.eqb_spec (src_blockid ex) (src_blockid new));
      [| reflexivity].
    exfalso. apply Hfree. auto. }
  rewrite Hsrc. simpl.
  assert (Hsrc' : String.eqb (src_blockid new) (src_blockid ex)
                  && Nat.eqb (src_port new) (src_port ex) = false).
  { rewrite String.eqb_sym, Nat.eqb_sym, andb_comm. exact Hsrc. }
  rewrite Hsrc'.
  destruct (String.eqb (dst_blockid new) (dst_blockid ex)
            && Nat.eqb (dst_port new) (dst_port ex)); reflexivity.
Qed.

Lemma checks_src_free new : forall l w,
  (forall ex, In ex l ->
     ~ (src_blockid (snd ex) = src_blockid new
        /\ src_port (snd ex) = src_port new)) ->
  (for_each l (fun e : nat * nat * graph_edge_t =>
                 assert_edge_new new (snd e)) w = (ok tt, w)
   /\ forall ex, In ex l ->
        String.eqb (dst_blockid new) (dst_blockid (snd ex))
        && Nat.eqb (dst_port new) (dst_port (snd ex)) = false)
  \/ (exists w',
        for_each l (fun e : nat * nat * graph_edge_t =>
                      assert_edge_new new (snd e)) w
        = (throw (rfnoc_error reconnect_input_what), w')
        /\ logs_only w w').
Proof.
  induction l as [| ex l IH]; intros w Hfree.
  - left. split; [reflexivity | contradiction].
  - simpl. unfold bind.
    rewrite (assert_edge_new_src_free new (snd ex) w
               (Hfree ex (or_introl eq_refl))).
    destruct (String.eqb (dst_blockid new) (dst_blockid (snd ex))
              && Nat.eqb (dst_port new) (dst_port (snd ex))) eqn:Hd.
    + right. eexists. split; [reflexivity | reflexivity].
    + destruct (IH w (fun y Hy => Hfree y (or_intror Hy)))
        as [[Hok Hnone] | [w' [Hthrow Hlog]]].
      * left. split; [exact Hok |]. intros y [<- | Hy]; auto.
      * right. exists w'. split; assumption.
Qed.

(** C7, amended.  When the destination port is already the sink of an
    existing edge, and the requested source port is not the source of any
    existing edge, [connect] throws the reconnect-input error and the
    edges of the graph are as before. *)
Theorem reconnect_input_rejected w src_node dst_node e src dst u dv info :
  nth_error (nodes w) src_node = Some src ->
  nth_error (nodes w) dst_node = Some dst ->
  node_map_find (_node_map (graph w)) dst_node = Some dv ->
  In (u, dv, info) (edges (_graph (graph w))) ->
  dst_blockid info = get_unique_id dst ->
  dst_port info = dst_port e ->
  (forall ex, In ex (edges (_graph (graph w))) ->
     ~ (src_blockid (snd ex) = get_unique_id src
        /\ src_port (snd ex) = src_port e)) ->
  fst (connect src_node dst_node e w)
  = throw (rfnoc_error reconnect_input_what)
  /\ edges (_graph (graph (run (connect src_node dst_node e) w)))
     = edges (_graph (graph w)).
Proof.
  intros Hs Hd Hdv Hin Hlabel Hport Hfree.
  unfold run. rewrite (connect_split src_node dst_node e w Hs Hd).
  unfold bind at 1 2. rewrite (register_nodes_eval src_node dst_node w Hs Hd).
  set (g3 := add_node_g dst_node (add_node_g src_node (graph w))).
  set (w3 := mk_world (installed src_node dst_node (nodes w)) g3 (log w)).
  set (new := populated src dst e).
  assert (Hedges : edges (_graph g3) = edges (_graph (graph w))).
  { unfold g3. rewrite !add_node_g_edges. reflexivity. }
  destruct (add_node_g_finds src_node (graph w)) as [sv Hsv].
  assert (Hsv3 : node_map_find (_node_map g3) src_node = Some sv)
    by (apply add_node_g_keeps; exact Hsv).
  assert (Hdv3 : node_map_find (_node_map g3) dst_node = Some dv)
    by (unfold g3; do 2 apply add_node_g_keeps; exact Hdv).
  assert (Hat_s : node_map_at src_node w3 = (ok sv, w3)).
  { unfold node_map_at, bind, get_graph. simpl. rewrite Hsv3. reflexivity. }
  assert (Hat_d : node_map_at dst_node w3 = (ok dv, w3)).
  { unfold node_map_at, bind, get_graph. simpl. rewrite Hdv3. reflexivity. }
  assert (Hget : get_graph w3 = (ok g3, w3)) by reflexivity.
  assert (Hfree_out : forall ex, In ex (out_edges sv (_graph g3)) ->
            ~ (src_blockid (snd ex) = src_blockid new
               /\ src_port (snd ex) = src_port new)).
  { intros ex Hex. unfold out_edges in Hex. apply filter_In in Hex.
    destruct Hex as [Hex _]. rewrite Hedges in Hex. apply Hfree. exact Hex. }
  assert (Hfree_in : forall ex, In ex (in_edges dv (_graph g3)) ->
            ~ (src_blockid (snd ex) = src_blockid new
               /\ src_port (snd ex) = src_port new)).
  { intros ex Hex. unfold in_edges in Hex. apply filter_In in Hex.
    destruct Hex as [Hex _]. rewrite Hedges in Hex. apply Hfree. exact Hex. }
  unfold insert_edge.
  rewrite (@bind_ok _ _ _ _ _ _ _ Hat_s).
  rewrite (@bind_ok _ _ _ _ _ _ _ Hat_d).
  rewrite (@bind_ok _ _ _ _ _ _ _ Hget).
  destruct (checks_src_free new (out_edges sv (_graph g3)) w3 Hfree_out)
    as [[Hok _] | [w' [Hthrow Hlog]]].
  - rewrite (@bind_ok _ _ _ _ _ _ _ Hok).
    destruct (checks_src_free new (in_edges dv (_graph g3)) w3 Hfree_in)
      as [[_ Hnone] | [w' [Hthrow Hlog]]].
    + exfalso.
      assert (Hin' : In (u, dv, info) (in_edges dv (_graph g3))).
      { unfold in_edges. apply filter_In. split.
        - rewrite Hedges. exact Hin.
        - simpl. apply Nat.eqb_refl. }
      specialize (Hnone _ Hin'). simpl in Hnone.
      rewrite Hlabel, Hport, String.eqb_refl, Nat.eqb_refl in Hnone.
      discriminate.
    + rewrite (@bind_throw _ _ _ _ _ _ _ Hthrow). simpl.
      split; [reflexivity |].
      unfold logs_only, keeps in Hlog. inversion Hlog as [[Hns Hg]].
      rewrite Hg. exact Hedges.
  - rewrite (@bind_throw _ _ _ _ _ _ _ Hthrow). simpl.
    split; [reflexivity |].
    unfold logs_only, keeps in Hlog. inversion Hlog as [[Hns Hg]].
    rewrite Hg. exact Hedges.
Qed.

Lemma reconnect_input_rejected_witness :
  fst (connect 2 1 (edge_request 0 0 true) chain_connected)
  = throw (rfnoc_error reconnect_input_what)
  /\ edges (_graph (graph (run (connect 2 1 (edge_request 0 0 true))
                               chain_connected)))
     = edges (_graph (graph chain_connected)).
Proof.
  apply (@reconnect_input_rejected chain_connected 2 1
           (edge_request 0 0 true)
           (mk_node "C" [mk_prop "rssi" (mk_src USER 0) (data_t "double" 0)
                                 false] cb_graph cb_graph)
           (mk_node "B" [mk_prop "rssi" (mk_src USER 0) (data_t "double" 0)
                                 false] cb_graph cb_graph)
           0 1 (mk_edge "A" 0 "B" 0 true)).
  - reflexivity.
  - reflexivity.
  - reflexivity.
  - vm_compute. auto.
  - reflexivity.
  - reflexivity.
  - intros ex Hin. vm_compute in Hin.
    destruct Hin as [<- | [<- | []]]; vm_compute; intros [H _];
      discriminate H.
Defined.

(** C7 as worded fails: with A.0 -> B.0 and C.0 -> D.0 in place, the
    request C.0 -> B.0 finds input port B.0 taken by another edge, but
    the call reports that an output port is reconnected. *)
Lemma reconnect_input_counterexample :
  ~ reconnect_input_claim_as_stated two_pairs 2 1 (edge_request 0 0 true).
Proof.
  intros H.
  destruct (H (mk_node "C" [mk_prop "rssi" (mk_src USER 0)
                                    (data_t "double" 0) false]
                       cb_graph cb_graph)
              (mk_node "B" [mk_prop "rssi" (mk_src USER 0)
                                    (data_t "double" 0) false]
                       cb_graph cb_graph)
              0 1 (mk_edge "A" 0 "B" 0 true)) as [Hthrow _];
    try reflexivity.
  - vm_compute. auto.
  - vm_compute in Hthrow. discriminate Hthrow.
Qed.

(** ** Topological sorting *)

Lemma path_last es u w :
  path es u w -> exists y, In (y, w) es /\ (y = u \/ path es u y).
Proof.
  induction 1 as [u v He | u v w He Hp [y [Hy Hor]]].
  - exists u. auto.
  - exists y. split; [exact Hy |]. right.
    destruct Hor as [-> | Hvy].
    + apply path_edge. exact He.
    + eapply path_cons; eassumption.
Qed.

Lemma path_first es u w : path es u w -> exists z, In (u, z) es.
Proof. induction 1; eauto. Qed.

(** ** The colour map *)

Lemma length_put c : forall color v, length (put color v c) = length color.
Proof.
  unfold put. induction color as [| a t IH]; intros [| v]; simpl; auto.
Qed.

Lemma get_put_same c : forall color v,
  v < length color -> get (put color v c) v = c.
Proof.
  unfold get, put. induction color as [| a t IH]; intros [| v] H; simpl in *;
    try lia; [reflexivity |].
  apply IH. lia.
Qed.

Lemma get_put_other c : forall color u v,
  u <> v -> get (put color u c) v = get color v.
Proof.
  unfold get, put. induction color as [| a t IH]; intros [| u] [| v] H; simpl;
    try reflexivity; try congruence.
  apply IH. congruence.
Qed.

Lemma get_in_range color v :
  get color v <> black_color -> v < length color.
Proof.
  unfold get. intros H. destruct (Nat.lt_ge_cases v (length color)) as [L | L];
    [exact L |].
  rewrite nth_overflow in H by exact L. congruence.
Qed.

Lemma count_white_gray : forall color v,
  get color v = white_color ->
  S (count_white (put color v gray_color)) = count_white color.
Proof.
  unfold get, put. induction color as [| a t IH]; intros [| v] H; simpl in *;
    try discriminate.
  - subst a. reflexivity.
  - destruct a; simpl; rewrite <- (IH v H); reflexivity.
Qed.

Lemma count_white_black : forall color v,
  get color v = gray_color ->
  count_white (put color v black_color) = count_white color.
Proof.
  unfold get, put. induction color as [| a t IH]; intros [| v] H; simpl in *;
    try discriminate.
  - subst a. reflexivity.
  - destruct a; simpl; rewrite (IH v H); reflexivity.
Qed.

Lemma count_white_repeat n : count_white (repeat white_color n) = n.
Proof. induction n as [| n IH]; simpl; congruence. Qed.

Lemma get_repeat_white n v : v < n -> get (repeat white_color n) v = white_color.
Proof.
  unfold get. intros H. apply nth_repeat_lt. exact H.
Qed.

(** ** Paths and orders *)

Lemma path_snoc es u v w : path es u v -> In (v, w) es -> path es u w.
Proof.
  induction 1 as [u v He | u v x He Hp IH]; intros Hw.
  - eapply path_cons; [exact He | apply path_edge; exact Hw].
  - eapply path_cons; [exact He | apply IH; exact Hw].
Qed.

Lemma before_cons l x u v : before l u v -> before (x :: l) u v.
Proof.
  intros [i [j [Hij [Hi Hj]]]]. exists (S i), (S j).
  split; [lia | split; assumption].
Qed.

Lemma before_head l u v : In v l -> before (u :: l) u v.
Proof.
  intros Hv. apply In_nth_error in Hv as [j Hj].
  exists 0, (S j). split; [lia | split; [reflexivity | exact Hj]].
Qed.

Lemma before_trans l u v w :
  NoDup l -> before l u v -> before l v w -> before l u w.
Proof.
  intros Hnd [i [j [Hij [Hi Hj]]]] [j' [k [Hjk [Hj' Hk]]]].
  assert (E : j = j').
  { apply (proj1 (NoDup_nth_error l) Hnd).
    - apply nth_error_Some. rewrite Hj. discriminate.
    - rewrite Hj, Hj'. reflexivity. }
  subst j'. exists i, k. split; [lia | split; assumption].
Qed.

Lemma before_irrefl l v : NoDup l -> ~ before l v v.
Proof.
  intros Hnd [i [j [Hij [Hi Hj]]]].
  assert (E : i = j).
  { apply (proj1 (NoDup_nth_error l) Hnd).
    - apply nth_error_Some. rewrite Hi. discriminate.
    - rewrite Hi, Hj. reflexivity. }
  lia.
Qed.

(** A list in which every edge goes forward rules out a cycle. *)
Lemma ordered_not_cyclic es l :
  NoDup l -> (forall u v, In (u, v) es -> before l u v) -> ~ cyclic es.
Proof.
  intros Hnd Hord [v Hv].
  assert (Hp : forall a b, path es a b -> before l a b).
  { induction 1 as [a b He | a b c He Hp IH].
    - apply Hord. exact He.
    - eapply before_trans; [exact Hnd | apply Hord; exact He | exact IH]. }
  apply (before_irrefl Hnd (Hp _ _ Hv)).
Qed.

Lemma in_adjacent_vertices es u v : In v (adjacent_vertices es u) <-> In (u, v) es.
Proof.
  unfold adjacent_vertices. rewrite in_map_iff. split.
  - intros [[a b] [E Hin]]. simpl in E. subst b.
    apply filter_In in Hin as [Hin Ha]. simpl in Ha.
    apply Nat.eqb_eq in Ha. subst a. exact Hin.
  - intros Hin. exists (u, v). split; [reflexivity |].
    apply filter_In. split; [exact Hin | apply Nat.eqb_refl].
Qed.

(** ** The depth-first search *)

Lemma dfs_step_refl st : dfs_step st st.
Proof.
  unfold dfs_step. repeat split; auto.
Qed.

Lemma dfs_step_trans a b c : dfs_step a b -> dfs_step b c -> dfs_step a c.
Proof.
  intros [L1 [G1 [B1 W1]]] [L2 [G2 [B2 W2]]].
  unfold dfs_step. split; [congruence |]. split; [| split].
  - intros v. rewrite (G1 v). apply G2.
  - intros v Hv. apply B2, B1, Hv.
  - lia.
Qed.

Section Search.

Variable es : list (vertex_descriptor * vertex_descriptor).

Lemma examine_edges_ok d u :
  visit_ok es d ->
  forall targets st,
    (forall v, In v targets -> In (u, v) es) ->
    (forall g, get (fst st) g = gray_color -> g = u \/ path es g u) ->
    count_white (fst st) <= d ->
    dfs_inv es st ->
    match examine_edges (depth_first_visit d es) targets st with
    | Some st' => dfs_step st st' /\ dfs_inv es st'
                  /\ forall v, In v targets -> get (fst st') v = black_color
    | None => cyclic es
    end.
Proof.
  intros Hvisit.
  induction targets as [| v rest IH]; intros st Hts Hgray Hw Hinv.
  - simpl. split; [apply dfs_step_refl |]. split; [exact Hinv |].
    intros v [].
  - simpl. destruct (get (fst st) v) eqn:Hc.
    + (* white: tree edge *)
      assert (Huv : In (u, v) es) by (apply Hts; left; reflexivity).
      pose proof (Hvisit v st Hc Hw Hinv) as Hv.
      destruct (depth_first_visit d es v st) as [st1 |].
      * destruct Hv as [Hstep [Hinv1 Hblack]].
        { intros g Hg. destruct (Hgray g Hg) as [-> | Hp].
          - apply path_edge. exact Huv.
          - eapply path_snoc; eassumption. }
        pose proof Hstep as [L1 [G1 [B1 W1]]].
        specialize (IH st1).
        destruct (examine_edges (depth_first_visit d es) rest st1)
          as [st2 |].
        -- destruct IH as [Hstep2 [Hinv2 Hrest]].
           ++ intros x Hx. apply Hts. right. exact Hx.
           ++ intros g Hg. apply Hgray. apply G1. exact Hg.
           ++ lia.
           ++ exact Hinv1.
           ++ split; [eapply dfs_step_trans; eassumption |].
              split; [exact Hinv2 |].
              intros x [<- | Hx]; [| apply Hrest; exact Hx].
              destruct Hstep2 as [_ [_ [B2 _]]]. apply B2. exact Hblack.
        -- apply IH.
           ++ intros x Hx. apply Hts. right. exact Hx.
           ++ intros g Hg. apply Hgray. apply G1. exact Hg.
           ++ lia.
           ++ exact Hinv1.
      * apply Hv. intros g Hg. destruct (Hgray g Hg) as [-> | Hp].
        -- apply path_edge. exact Huv.
        -- eapply path_snoc; eassumption.
    + (* gray: back edge *)
      assert (Huv : In (u, v) es) by (apply Hts; left; reflexivity).
      exists v. destruct (Hgray v Hc) as [-> | Hp].
      * apply path_edge. exact Huv.
      * eapply path_snoc; eassumption.
    + (* black *)
      specialize (IH st).
      destruct (examine_edges (depth_first_visit d es) rest st) as [st2 |].
      * destruct IH as [Hstep2 [Hinv2 Hrest]]; try assumption.
        { intros x Hx. apply Hts. right. exact Hx. }
        split; [exact Hstep2 |]. split; [exact Hinv2 |].
        intros x [<- | Hx]; [| apply Hrest; exact Hx].
        destruct Hstep2 as [_ [_ [B2 _]]]. apply B2. exact Hc.
      * apply IH; try assumption.
        intros x Hx. apply Hts. right. exact Hx.
Qed.

Lemma count_white_pos color u :
  get color u = white_color -> 0 < count_white color.
Proof.
  intros H. rewrite <- (count_white_gray color u H). lia.
Qed.

Lemma depth_first_visit_ok : forall d, visit_ok es d.
Proof.
  induction d as [| d IH]; intros u st Hu Hw Hinv Hgray.
  - pose proof (count_white_pos _ _ Hu). lia.
  - destruct st as [color out]. simpl in *.
    assert (Hlt : u < length color).
    { apply get_in_range. rewrite Hu. discriminate. }
    assert (Hug : get (put color u gray_color) u = gray_color)
      by (apply get_put_same; exact Hlt).
    destruct Hinv as [Hnd [Hblack Hord]]. simpl in *.
    pose proof (@examine_edges_ok d u IH (adjacent_vertices es u)
                  (put color u gray_color, out)) as Hex.
    simpl in Hex.
    destruct (examine_edges (depth_first_visit d es) (adjacent_vertices es u)
                            (put color u gray_color, out)) as [[color1 out1] |].
    + destruct Hex as [[L1 [G1 [B1 W1]]] [[Hnd1 [Hblack1 Hord1]] Htargets]].
      * intros v Hv. apply in_adjacent_vertices. exact Hv.
      * intros g Hg. destruct (Nat.eq_dec g u) as [-> | Hne];
          [left; reflexivity | right].
        apply Hgray. rewrite get_put_other in Hg by congruence. exact Hg.
      * pose proof (count_white_gray color u Hu). lia.
      * split; [exact Hnd |]. simpl. split.
        -- intros v. rewrite length_put. rewrite (Hblack v).
           destruct (Nat.eq_dec u v) as [<- | Hne].
           ++ rewrite Hug, Hu. split; intros [_ E]; discriminate E.
           ++ rewrite get_put_other by exact Hne. reflexivity.
        -- intros a b Ha Hab Hb. rewrite length_put in Hb.
           apply Hord; assumption.
      * simpl in *. rewrite length_put in L1.
        assert (Hug1 : get color1 u = gray_color) by (apply G1; exact Hug).
        assert (Hlt1 : u < length color1) by lia.
        assert (Hnin : ~ In u out1).
        { intros Hin. apply Hblack1 in Hin as [_ E]. congruence. }
        split; [| split].
        -- unfold dfs_step. simpl. rewrite length_put.
           split; [exact L1 |]. split; [| split].
           ++ intros v. destruct (Nat.eq_dec u v) as [<- | Hne].
              ** rewrite Hu, get_put_same by exact Hlt1.
                 split; intros E; discriminate E.
              ** rewrite get_put_other by exact Hne.
                 rewrite <- (G1 v). rewrite get_put_other by exact Hne.
                 reflexivity.
           ++ intros v Hv. destruct (Nat.eq_dec u v) as [<- | Hne].
              ** apply get_put_same. exact Hlt1.
              ** rewrite get_put_other by exact Hne. apply B1.
                 rewrite get_put_other by exact Hne. exact Hv.
           ++ rewrite (count_white_black color1 u Hug1).
              pose proof (count_white_gray color u Hu). lia.
        -- unfold dfs_inv. simpl. rewrite length_put.
           split; [constructor; assumption |]. split.
           ++ intros v. destruct (Nat.eq_dec u v) as [<- | Hne].
              ** rewrite get_put_same by exact Hlt1.
                 split; [intros _; split; [exact Hlt1 | reflexivity]
                        | intros _; left; reflexivity].
              ** rewrite get_put_other by exact Hne.
                 rewrite <- (Hblack1 v). split.
                 --- intros [E | Hin]; [congruence | exact Hin].
                 --- intros Hin. right. exact Hin.
           ++ intros a b [<- | Ha] Hab Hb.
              ** apply before_head. apply Hblack1.
                 split; [exact Hb |]. apply Htargets.
                 apply in_adjacent_vertices. exact Hab.
              ** apply before_cons. apply Hord1; assumption.
        -- apply get_put_same. exact Hlt1.
    + apply Hex.
      * intros v Hv. apply in_adjacent_vertices. exact Hv.
      * intros g Hg. destruct (Nat.eq_dec g u) as [-> | Hne];
          [left; reflexivity | right].
        apply Hgray. rewrite get_put_other in Hg by congruence. exact Hg.
      * pose proof (count_white_gray color u Hu). lia.
      * split; [exact Hnd |]. simpl. split.
        -- intros v. rewrite length_put. rewrite (Hblack v).
           destruct (Nat.eq_dec u v) as [<- | Hne].
           ++ rewrite Hug, Hu. split; intros [_ E]; discriminate E.
           ++ rewrite get_put_other by exact Hne. reflexivity.
        -- intros a b Ha Hab Hb. rewrite length_put in Hb.
           apply Hord; assumption.
Qed.

Lemma depth_first_search_ok d : forall roots st,
  (forall g, get (fst st) g <> gray_color) ->
  count_white (fst st) <= d ->
  dfs_inv es st ->
  match depth_first_search d es roots st with
  | Some st' => dfs_step st st' /\ dfs_inv es st'
                /\ forall v, In v roots -> get (fst st') v = black_color
  | None => cyclic es
  end.
Proof.
  induction roots as [| u rest IH]; intros st Hng Hw Hinv.
  - simpl. split; [apply dfs_step_refl |]. split; [exact Hinv |].
    intros v [].
  - simpl. destruct (get (fst st) u) eqn:Hc.
    + pose proof (@depth_first_visit_ok d u st Hc Hw Hinv) as Hv.
      destruct (depth_first_visit d es u st) as [st1 |].
      * destruct Hv as [Hstep [Hinv1 Hblack]].
        { intros g Hg. destruct (Hng g Hg). }
        pose proof Hstep as [L1 [G1 [B1 W1]]].
        specialize (IH st1).
        destruct (depth_first_search d es rest st1) as [st2 |].
        -- destruct IH as [Hstep2 [Hinv2 Hrest]].
           ++ intros g Hg. apply (Hng g). apply G1. exact Hg.
           ++ lia.
           ++ exact Hinv1.
           ++ split; [eapply dfs_step_trans; eassumption |].
              split; [exact Hinv2 |].
              intros x [<- | Hx]; [| apply Hrest; exact Hx].
              destruct Hstep2 as [_ [_ [B2 _]]]. apply B2. exact Hblack.
        -- apply IH.
           ++ intros g Hg. apply (Hng g). apply G1. exact Hg.
           ++ lia.
           ++ exact Hinv1.
      * apply Hv. intros g Hg. destruct (Hng g Hg).
    + destruct (Hng u Hc).
    + specialize (IH st Hng Hw Hinv).
      destruct (depth_first_search d es rest st) as [st2 |]; [| exact IH].
      destruct IH as [Hstep2 [Hinv2 Hrest]].
      split; [exact Hstep2 |]. split; [exact Hinv2 |].
      intros x [<- | Hx]; [| apply Hrest; exact Hx].
      destruct Hstep2 as [_ [_ [B2 _]]]. apply B2. exact Hc.
Qed.

End Search.

(** The search from the all-white colour map. *)
Lemma topological_sort_search n es :
  match topological_sort n es with
  | Some l =>
      NoDup l /\ (forall v, In v l <-> v < n)
      /\ forall u v, In (u, v) es -> u < n -> v < n -> before l u v
  | None => cyclic es
  end.
Proof.
  unfold topological_sort.
  pose proof (@depth_first_search_ok es n (seq 0 n)
                (repeat white_color n, [])) as H.
  simpl in H.
  destruct (depth_first_search n es (seq 0 n) (repeat white_color n, []))
    as [[color out] |].
  - destruct H as [[L [G [B W]]] [[Hnd [Hblack Hord]] Hroots]].
    + intros g Hg. pose proof (get_in_range (repeat white_color n) g) as Hr.
      rewrite repeat_length in Hr.
      rewrite get_repeat_white in Hg; [discriminate |].
      apply Hr. rewrite Hg. discriminate.
    + rewrite count_white_repeat. lia.
    + split; [constructor |]. simpl. split.
      * intros v. split; [intros [] |]. intros [Hv E].
        rewrite repeat_length in Hv.
        rewrite get_repeat_white in E by exact Hv. discriminate.
      * intros u v [].
    + simpl in *. rewrite repeat_length in L.
      assert (Hin : forall v, In v out <-> v < n).
      { intros v. rewrite (Hblack v), L. split; [tauto |].
        intros Hv. split; [exact Hv |]. apply Hroots. apply in_seq. lia. }
      split; [exact Hnd |]. split; [exact Hin |].
      intros u v He Hu Hv. apply Hord; [apply Hin; exact Hu | exact He | lia].
  - apply H.
    + intros g Hg. pose proof (get_in_range (repeat white_color n) g) as Hr.
      rewrite repeat_length in Hr.
      rewrite get_repeat_white in Hg; [discriminate |].
      apply Hr. rewrite Hg. discriminate.
    + rewrite count_white_repeat. lia.
    + split; [constructor |]. simpl. split.
      * intros v. split; [intros [] |]. intros [Hv E].
        rewrite repeat_length in Hv.
        rewrite get_repeat_white in E by exact Hv. discriminate.
      * intros u v [].
Qed.

(** What the sort returns lists every vertex once. *)
Lemma topological_sort_sound n es l :
  topological_sort n es = Some l ->
  NoDup l /\ (forall v, In v l -> v < n) /\ length l = n.
Proof.
  intros H. pose proof (topological_sort_search n es) as S.
  rewrite H in S. destruct S as [Hnd [Hin _]].
  split; [exact Hnd |]. split; [intros v Hv; apply Hin; exact Hv |].
  transitivity (length (seq 0 n)); [| apply length_seq].
  apply Permutation_length.
  apply NoDup_Permutation; [exact Hnd | apply seq_NoDup |].
  intros v. rewrite (Hin v), in_seq. lia.
Qed.

(** [not_a_dag] is thrown for a cycle only. *)
Lemma topological_sort_none n es : topological_sort n es = None -> cyclic es.
Proof.
  intros H. pose proof (topological_sort_search n es) as S.
  rewrite H in S. exact S.
Qed.

(** In the sorted list every edge goes from an earlier to a later vertex. *)
Lemma topological_sort_order n es l :
  (forall u v, In (u, v) es -> u < n /\ v < n) ->
  topological_sort n es = Some l ->
  Permutation l (seq 0 n)
  /\ forall u v, In (u, v) es -> before l u v.
Proof.
  intros Hrange H. pose proof (topological_sort_search n es) as S.
  rewrite H in S. destruct S as [Hnd [Hin Hord]]. split.
  - apply NoDup_Permutation; [exact Hnd | apply seq_NoDup |].
    intros v. rewrite (Hin v), in_seq. lia.
  - intros u v He. destruct (Hrange u v He). apply Hord; assumption.
Qed.

Lemma sorted_not_cyclic n es l :
  (forall u v, In (u, v) es -> u < n /\ v < n) ->
  topological_sort n es = Some l -> ~ cyclic es.
Proof.
  intros Hrange Hs.
  destruct (topological_sort_sound _ _ Hs) as [Hnd _].
  apply ordered_not_cyclic with (l := l); [exact Hnd |].
  apply (topological_sort_order _ Hrange Hs).
Qed.

(** Every cycle is found. *)
Lemma topological_sort_cyclic n es :
  (forall u v, In (u, v) es -> u < n /\ v < n) ->
  cyclic es ->
  topological_sort n es = None.
Proof.
  intros Hrange Hc. destruct (topological_sort n es) as [l |] eqn:Hs;
    [| reflexivity].
  destruct (@sorted_not_cyclic n es l Hrange Hs Hc).
Qed.

(** The order is the one of the depth-first search: of two branches the
    one examined last comes first, and a later root comes before an earlier
    one. *)
Lemma topological_sort_fan_out :
  topological_sort 3 [(0, 1); (0, 2)] = Some [0; 2; 1].
Proof. reflexivity. Qed.

Lemma topological_sort_two_pairs :
  topological_sort 4 [(0, 1); (2, 3)] = Some [2; 3; 0; 1].
Proof. reflexivity. Qed.

(** *** A connection that closes a cycle *)

Lemma assert_edge_new_no_conflict new ex w :
  no_conflict new ex = true ->
  exists w', assert_edge_new new ex w = (ok tt, w') /\ logs_only w w'.
Proof.
  unfold no_conflict, assert_edge_new. intros H.
  destruct (edge_eqb ex new).
  - eexists. split; reflexivity.
  - simpl in H. apply negb_true_iff in H.
    apply orb_false_iff in H. destruct H as [H H3].
    apply orb_false_iff in H. destruct H as [H1 H2].
    rewrite H1, H2, H3. exists w. split; reflexivity.
Qed.

Lemma checks_no_conflict new : forall l w,
  (forall ex : nat * nat * graph_edge_t,
     In ex l -> no_conflict new (snd ex) = true) ->
  exists w',
    for_each l (fun e : nat * nat * graph_edge_t =>
                  assert_edge_new new (snd e)) w = (ok tt, w')
    /\ logs_only w w'.
Proof.
  induction l as [| ex l IH]; intros w H.
  - exists w. split; reflexivity.
  - destruct (assert_edge_new_no_conflict new (snd ex) w
                (H ex (or_introl eq_refl))) as [w1 [H1 L1]].
    destruct (IH w1 (fun y Hy => H y (or_intror Hy))) as [w2 [H2 L2]].
    exists w2. split.
    + simpl. rewrite (@bind_ok _ _ _ _ _ _ _ H1). exact H2.
    + etransitivity; eassumption.
Qed.

Lemma remove_nth_app A (l : list A) x : remove_nth (length l) (l ++ [x]) = l.
Proof. induction l as [| y l IH]; simpl; [reflexivity | f_equal; exact IH]. Qed.

Lemma graph_wf_spec g :
  graph_wf g = true ->
  (forall u v info, In (u, v, info) (edges (_graph g)) ->
     u < length (vertices (_graph g)) /\ v < length (vertices (_graph g)))
  /\ (forall n v, node_map_find (_node_map g) n = Some v ->
        v < length (vertices (_graph g))).
Proof.
  unfold graph_wf. rewrite andb_true_iff, !forallb_forall. intros [He Hm].
  split.
  - intros u v info Hin. specialize (He _ Hin). simpl in He.
    apply andb_true_iff in He. destruct He as [H1 H2].
    apply Nat.ltb_lt in H1, H2. auto.
  - intros n v Hf.
    assert (Hin : In (n, v) (_node_map g) \/ False).
    { left. revert Hf. generalize (_node_map g) as m.
      induction m as [| [k u] m IH]; simpl; [discriminate |].
      destruct (Nat.eqb_spec k n) as [-> | Hne].
      - intros E. inversion E; subst. left. reflexivity.
      - intros E. right. apply IH. exact E. }
    destruct Hin as [Hin | []]. specialize (Hm _ Hin). simpl in Hm.
    apply Nat.ltb_lt in Hm. exact Hm.
Qed.

Lemma graph_wf_add_node n g : graph_wf g = true -> graph_wf (add_node_g n g) = true.
Proof.
  intros H. unfold add_node_g.
  destruct (node_map_find (_node_map g) n); [exact H |].
  unfold graph_wf in *. simpl. rewrite andb_true_iff in *.
  rewrite !forallb_forall in *. destruct H as [He Hm]. split.
  - intros e Hin. specialize (He e Hin). rewrite andb_true_iff in *.
    rewrite !Nat.ltb_lt in *. rewrite length_app. simpl. lia.
  - intros kv Hin. apply in_app_or in Hin. rewrite Nat.ltb_lt.
    rewrite length_app. simpl. destruct Hin as [Hin | [<- | []]].
    + specialize (Hm kv Hin). apply Nat.ltb_lt in Hm. lia.
    + simpl. lia.
Qed.

Lemma forward_edges_added vs
    (es : list (vertex_descriptor * vertex_descriptor * graph_edge_t))
    (sv dv : vertex_descriptor) new :
  property_propagation_active new = true ->
  forward_edges (mk_bgl vs (es ++ [(sv, dv, new)]))
  = forward_edges (mk_bgl vs es) ++ [(sv, dv)].
Proof.
  intros H. unfold forward_edges. simpl. rewrite filter_app, map_app. simpl.
  unfold ForwardEdgePredicate at 2. simpl. rewrite H. reflexivity.
Qed.

Lemma forward_edges_range bg n :
  (forall u v info, In (u, v, info) (edges bg) -> u < n /\ v < n) ->
  forall u v, In (u, v) (forward_edges bg) -> u < n /\ v < n.
Proof.
  intros H u v Hin. unfold forward_edges in Hin. apply in_map_iff in Hin.
  destruct Hin as [[[u' v'] info] [E Hin]]. simpl in E. inversion E; subst.
  apply filter_In in Hin. destruct Hin as [Hin _]. eapply H. exact Hin.
Qed.

(** The end of [connect] when the new edge closes a cycle: the edge is
    added, the sort fails, the edge is removed again. *)
Lemma cycle_tail sv dv new w :
  (forall u v info, In (u, v, info) (edges (_graph (graph w))) ->
     u < length (vertices (_graph (graph w)))
     /\ v < length (vertices (_graph (graph w)))) ->
  sv < length (vertices (_graph (graph w))) ->
  dv < length (vertices (_graph (graph w))) ->
  property_propagation_active new = true ->
  cyclic (forward_edges (_graph (graph w)) ++ [(sv, dv)]) ->
  (edge_descriptor <- add_edge sv dv new ;;
   UHD_ASSERT_THROW (snd edge_descriptor) ;;
   try_catch_rfnoc
     (_get_topo_sorted_nodes ;; ret tt)
     (UHD_LOG (log_unresolvable_edge new) ;;
      remove_edge (fst edge_descriptor) ;;
      raise (rfnoc_error unresolvable_what))) w
  = (throw (rfnoc_error unresolvable_what),
     mk_world (nodes w) (graph w) (log w ++ [log_unresolvable_edge new])).
Proof.
  intros Hrange Hsv Hdv Hppa Hcyc.
  destruct w as [ns g l]. destruct g as [[vs es] nm rc q flag]. simpl in *.
  assert (Hsort : topological_sort (length vs)
                    (forward_edges (mk_bgl vs (es ++ [(sv, dv, new)]))) = None).
  { erewrite forward_edges_added by exact Hppa.
    apply topological_sort_cyclic; [| exact Hcyc].
    intros u v Hin. apply in_app_or in Hin. destruct Hin as [Hin | [E | []]].
    - eapply (@forward_edges_range (mk_bgl vs es)); [| exact Hin].
      exact Hrange.
    - inversion E; subst. auto. }
  unfold bind, add_edge, bind, get_graph, modify_graph, UHD_ASSERT_THROW,
    try_catch_rfnoc, _get_topo_sorted_nodes, bind, get_graph, ret, raise,
    UHD_LOG, remove_edge, modify_graph.
  simpl.
  match goal with
  | |- context [topological_sort ?n ?x] =>
      replace (topological_sort n x) with (@None (list vertex_descriptor))
        by (symmetry; exact Hsort)
  end.
  simpl. rewrite remove_nth_app. reflexivity.
Qed.

Lemma install_same n f ns nd :
  nth_error ns n = Some nd -> f nd = nd -> install n f ns = ns.
Proof.
  intros H E. unfold install. rewrite H, E. apply list_update_same. exact H.
Qed.

Lemma installed_same s d ns src dst :
  nth_error ns s = Some src -> nth_error ns d = Some dst ->
  _resolve_all_cb src = cb_graph -> _post_action_cb src = cb_graph ->
  _resolve_all_cb dst = cb_graph -> _post_action_cb dst = cb_graph ->
  installed s d ns = ns.
Proof.
  intros Hs Hd R1 P1 R2 P2. unfold installed.
  assert (E1 : set_resolve_all_callback cb_graph src = src)
    by (destruct src; simpl in *; subst; reflexivity).
  assert (E2 : set_resolve_all_callback cb_graph dst = dst)
    by (destruct dst; simpl in *; subst; reflexivity).
  assert (E3 : set_post_action_callback cb_graph src = src)
    by (destruct src; simpl in *; subst; reflexivity).
  assert (E4 : set_post_action_callback cb_graph dst = dst)
    by (destruct dst; simpl in *; subst; reflexivity).
  rewrite (install_same s _ ns Hs E1).
  rewrite (install_same d _ ns Hd E2).
  rewrite (install_same s _ ns Hs E3).
  rewrite (install_same d _ ns Hd E4).
  reflexivity.
Qed.

(** C3, amended.  When [connect] is asked for a propagating edge that
    passes the checks against the existing edges and closes a cycle of
    propagating edges, it throws the graph-cycle error; the edge it added
    is removed again, so that the edges, the release counter, the action
    queue and the handling flag are as before the call.  Nodes that were
    in the graph with their callbacks installed are left as they were, and
    the graph as a whole is unchanged when both nodes were in it; a node
    that the call itself added stays in the graph with its callbacks
    installed. *)
Theorem connect_cycle_rejected w src_node dst_node e src dst sv dv :
  nth_error (nodes w) src_node = Some src ->
  nth_error (nodes w) dst_node = Some dst ->
  graph_wf (graph w) = true ->
  property_propagation_active e = true ->
  node_map_find (_node_map (graph (prepared src_node dst_node w))) src_node
  = Some sv ->
  node_map_find (_node_map (graph (prepared src_node dst_node w))) dst_node
  = Some dv ->
  (forall ex,
     In ex (out_edges sv (_graph (graph w)) ++ in_edges dv (_graph (graph w))) ->
     no_conflict (populated src dst e) (snd ex) = true) ->
  cyclic (forward_edges (_graph (graph w)) ++ [(sv, dv)]) ->
  let w' := run (connect src_node dst_node e) w in
  fst (connect src_node dst_node e w) = throw (rfnoc_error unresolvable_what)
  /\ edges (_graph (graph w')) = edges (_graph (graph w))
  /\ _release_count (graph w') = _release_count (graph w)
  /\ _action_queue (graph w') = _action_queue (graph w)
  /\ _action_handling_ongoing (graph w') = _action_handling_ongoing (graph w)
  /\ graph w' = add_node_g dst_node (add_node_g src_node (graph w))
  /\ nodes w' = installed src_node dst_node (nodes w)
  /\ (forall v1 v2,
        node_map_find (_node_map (graph w)) src_node = Some v1 ->
        node_map_find (_node_map (graph w)) dst_node = Some v2 ->
        graph w' = graph w)
  /\ (_resolve_all_cb src = cb_graph -> _post_action_cb src = cb_graph ->
      _resolve_all_cb dst = cb_graph -> _post_action_cb dst = cb_graph ->
      nodes w' = nodes w).
Proof.
  intros Hs Hd Hwf Hppa Hsv Hdv Hnc Hcyc w'.
  rewrite (prepared_eval src_node dst_node w Hs Hd) in Hsv, Hdv.
  simpl in Hsv, Hdv.
  set (g3 := add_node_g dst_node (add_node_g src_node (graph w))) in *.
  set (w3 := mk_world (installed src_node dst_node (nodes w)) g3 (log w)).
  set (new := populated src dst e) in *.
  assert (Hedges : edges (_graph g3) = edges (_graph (graph w))).
  { unfold g3. rewrite !add_node_g_edges. reflexivity. }
  assert (Hwf3 : graph_wf g3 = true)
    by (unfold g3; do 2 apply graph_wf_add_node; exact Hwf).
  destruct (graph_wf_spec g3 Hwf3) as [Hrange Hmap].
  assert (Hat_s : node_map_at src_node w3 = (ok sv, w3)).
  { unfold node_map_at, bind, get_graph. simpl. rewrite Hsv. reflexivity. }
  assert (Hat_d : node_map_at dst_node w3 = (ok dv, w3)).
  { unfold node_map_at, bind, get_graph. simpl. rewrite Hdv. reflexivity. }
  assert (Hget : get_graph w3 = (ok g3, w3)) by reflexivity.
  assert (Hout : forall ex, In ex (out_edges sv (_graph g3)) ->
                            no_conflict new (snd ex) = true).
  { intros ex Hex. apply Hnc. apply in_or_app. left.
    unfold out_edges in *. rewrite <- Hedges. exact Hex. }
  assert (Hin : forall ex, In ex (in_edges dv (_graph g3)) ->
                           no_conflict new (snd ex) = true).
  { intros ex Hex. apply Hnc. apply in_or_app. right.
    unfold in_edges in *. rewrite <- Hedges. exact Hex. }
  destruct (checks_no_conflict new (out_edges sv (_graph g3)) w3 Hout)
    as [w4 [H4 L4]].
  destruct (checks_no_conflict new (in_edges dv (_graph g3)) w4 Hin)
    as [w5 [H5 L5]].
  assert (L35 : logs_only w3 w5) by (etransitivity; eassumption).
  unfold logs_only, keeps in L35. inversion L35 as [[Hn5 Hg5]].
  assert (Hrun : connect src_node dst_node e w
                 = (throw (rfnoc_error unresolvable_what),
                    mk_world (nodes w5) (graph w5)
                             (log w5 ++ [log_unresolvable_edge new]))).
  { rewrite (connect_split src_node dst_node e w Hs Hd).
    rewrite (@bind_ok _ _ _ _ _ _ _ (register_nodes_eval src_node dst_node w Hs Hd)).
    fold g3. fold w3. fold new. unfold insert_edge.
    rewrite (@bind_ok _ _ _ _ _ _ _ Hat_s).
    rewrite (@bind_ok _ _ _ _ _ _ _ Hat_d).
    rewrite (@bind_ok _ _ _ _ _ _ _ Hget).
    rewrite (@bind_ok _ _ _ _ _ _ _ H4).
    rewrite (@bind_ok _ _ _ _ _ _ _ H5).
    apply cycle_tail; rewrite ?Hg5; simpl.
    - intros u v info Hi. eapply Hrange. exact Hi.
    - eapply Hmap. exact Hsv.
    - eapply Hmap. exact Hdv.
    - exact Hppa.
    - unfold forward_edges in *. rewrite Hedges. exact Hcyc. }
  unfold w', run. rewrite Hrun. simpl. rewrite Hg5, Hn5. simpl.
  destruct (add_node_g_members src_node (graph w)) as [M1 [M2 M3]].
  destruct (add_node_g_members dst_node (add_node_g src_node (graph w)))
    as [M4 [M5 M6]].
  repeat split.
  - exact Hedges.
  - unfold g3. congruence.
  - unfold g3. congruence.
  - unfold g3. congruence.
  - intros v1 v2 F1 F2. unfold g3.
    rewrite (add_node_g_registered src_node (graph w) F1).
    rewrite (add_node_g_registered dst_node (graph w) F2). reflexivity.
  - intros R1 P1 R2 P2. eapply installed_same; eassumption.
Qed.

Lemma connect_cycle_rejected_witness :
  let w' := run (connect 2 0 (edge_request 0 0 true)) chain_connected in
  fst (connect 2 0 (edge_request 0 0 true) chain_connected)
  = throw (rfnoc_error unresolvable_what)
  /\ edges (_graph (graph w')) = edges (_graph (graph chain_connected))
  /\ graph w' = graph chain_connected
  /\ nodes w' = nodes chain_connected.
Proof.
  destruct (@connect_cycle_rejected chain_connected 2 0
              (edge_request 0 0 true)
              (mk_node "C" [mk_prop "rssi" (mk_src USER 0) (data_t "double" 0)
                                    false] cb_graph cb_graph)
              (mk_node "A" [mk_prop "rssi" (mk_src USER 0) (data_t "double" 0)
                                    false] cb_graph cb_graph)
              2 0)
    as [Hthrow [Hedges [_ [_ [_ [_ [_ [Hgraph Hnodes]]]]]]]].
  - reflexivity.
  - reflexivity.
  - reflexivity.
  - reflexivity.
  - reflexivity.
  - reflexivity.
  - intros ex Hex. vm_compute in Hex. contradiction.
  - exists 0. vm_compute forward_edges.
    apply path_cons with (v := 1); [simpl; auto |].
    apply path_cons with (v := 2); [simpl; auto |].
    apply path_edge. simpl. auto.
  - intros w'.
    split; [exact Hthrow | split; [exact Hedges | split]].
    + exact (Hgraph 2 0 eq_refl eq_refl).
    + exact (Hnodes eq_refl eq_refl eq_refl eq_refl).
Defined.

(** C3 as worded fails: connecting a node that is not yet in the graph to
    itself is rejected as a cycle, but the node stays in the graph. *)
Lemma connect_cycle_counterexample :
  ~ cycle_claim_as_stated (world_init chain_nodes) 0 0 (edge_request 0 0 true).
Proof.
  intros H.
  destruct (H 0 0 eq_refl eq_refl eq_refl) as [_ Hg].
  - exists 0. apply path_edge. simpl. auto.
  - vm_compute in Hg. discriminate Hg.
Qed.

Lemma no_dirty_after_resolve_witness :
  _release_count (graph radio_pair_live) = 0%N
  /\ (forall w',
        resolve_all_properties (chain_accessor drop_handler) chain_committed
        = (ok tt, w') ->
        forall v n nd p,
          nth_error (vertices (_graph (graph w'))) v = Some n ->
          nth_error (nodes w') n = Some nd ->
          In p (_props nd) -> is_dirty p = true ->
          type (get_src_info p) = FRAMEWORK)
  /\ exists w2,
       resolve_all_properties radio_accessor radio_pair_live
       = (throw (resolve_error could_not_resolve_what), w2)
       /\ In (log_dirty_prop "RADIO_A" (mk_src OUTPUT_EDGE 0) "samp_rate")
             (log w2).
Proof.
  split; [reflexivity | split].
  - exact (proj1 (@no_dirty_after_resolve (chain_accessor drop_handler)
                    chain_committed eq_refl)).
  - pose (nd := mk_node "RADIO_A"
        [mk_prop "samp_rate" (mk_src INPUT_EDGE 0) (data_t "double" 100) false;
         mk_prop "samp_rate" (mk_src OUTPUT_EDGE 0) (data_t "double" 200) true;
         mk_prop "master_clock_rate" (mk_src USER 0) (data_t "double" 100)
                 false]
        cb_graph cb_graph).
    pose (p := mk_prop "samp_rate" (mk_src OUTPUT_EDGE 0)
                       (data_t "double" 200) true).
    assert (Ho : offender (run (resolve_walk radio_accessor) radio_pair_live)
                          0 0 nd p).
    { repeat split; try reflexivity.
      - simpl. auto.
      - discriminate. }
    destruct (proj2 (@no_dirty_after_resolve radio_accessor radio_pair_live
                       eq_refl)
                (run (resolve_walk radio_accessor) radio_pair_live))
      as [w2 [Hthrow Hlog]].
    + discriminate.
    + vm_compute. reflexivity.
    + reflexivity.
    + exists 0, 0, nd, p. exact Ho.
    + exists w2. split; [exact Hthrow |]. exact (Hlog 0 0 nd p Ho).
Defined.

(** ** The back-edge check *)

Lemma props_match_loop_eval dst info : forall src b w,
  maps_paired src dst = true ->
  exists w',
    props_match_loop src dst info b w
    = (ok (b && maps_consistent src dst), w')
    /\ logs_only w w'.
Proof.
  induction src as [| [k p] src IH]; intros b w Hp.
  - exists w. simpl. rewrite andb_true_r. split; reflexivity.
  - simpl in Hp. apply andb_true_iff in Hp. destruct Hp as [Hq Hp].
    simpl. destruct (prop_map_find dst (get_id p)) as [q |]; [| discriminate].
    destruct (equal p q); simpl.
    + apply IH. exact Hp.
    + destruct (IH false (mk_world (nodes w) (graph w)
                            (log w ++ [log_inconsistent (get_id p) info])) Hp)
        as [w' [Hrun Hlog]].
      exists w'. split.
      * unfold bind, UHD_LOG. rewrite Hrun. rewrite andb_false_r. reflexivity.
      * unfold logs_only, keeps in *. simpl in Hlog. exact Hlog.
Qed.

Lemma assert_consistent_eval w e sm dm :
  prop_maps_of w e = Some (sm, dm) ->
  maps_paired sm dm = true ->
  exists w',
    _assert_edge_props_consistent e w = (ok (maps_consistent sm dm), w')
    /\ logs_only w w'.
Proof.
  unfold prop_maps_of. intros Hmaps Hp.
  destruct (nth_error (vertices (_graph (graph w))) (fst (fst e)))
    as [sn |] eqn:Hsn; [| discriminate].
  destruct (nth_error (vertices (_graph (graph w))) (snd (fst e)))
    as [dn |] eqn:Hdn; [| discriminate].
  destruct (nth_error (nodes w) sn) as [s |] eqn:Hs; [| discriminate].
  destruct (nth_error (nodes w) dn) as [d |] eqn:Hd; [| discriminate].
  inversion Hmaps; subst. clear Hmaps.
  destruct (props_match_loop_eval
              (get_prop_map (dst_port (snd e)) INPUT_EDGE d) (snd e)
              (get_prop_map (src_port (snd e)) OUTPUT_EDGE s) true w Hp)
    as [w' [Hrun Hlog]].
  exists w'. split; [| exact Hlog].
  unfold _assert_edge_props_consistent, bind, vertex_property, bind,
    get_graph, deref.
  simpl. rewrite Hsn. simpl. rewrite Hdn. simpl. rewrite Hs, Hd.
  exact Hrun.
Qed.

Lemma prop_maps_of_ext w w0 e :
  nodes w0 = nodes w -> graph w0 = graph w ->
  prop_maps_of w0 e = prop_maps_of w e.
Proof. intros Hn Hg. unfold prop_maps_of. rewrite Hn, Hg. reflexivity. Qed.

Lemma edge_consistent_ext w w0 e :
  nodes w0 = nodes w -> graph w0 = graph w ->
  edge_consistent w0 e = edge_consistent w e.
Proof.
  intros Hn Hg. unfold edge_consistent.
  rewrite (prop_maps_of_ext w w0 e Hn Hg). reflexivity.
Qed.

Lemma back_edges_loop_eval w0 : forall es b w,
  nodes w = nodes w0 -> graph w = graph w0 ->
  forallb (fun e => match prop_maps_of w0 e with
                    | Some (sm, dm) => maps_paired sm dm
                    | None => false
                    end) es = true ->
  exists w',
    back_edges_loop es b w = (ok (b && forallb (edge_consistent w0) es), w')
    /\ logs_only w w'.
Proof.
  induction es as [| e es IH]; intros b w Hn Hg Hp.
  - exists w. simpl. rewrite andb_true_r. split; reflexivity.
  - simpl in Hp. apply andb_true_iff in Hp. destruct Hp as [He Hp].
    destruct (prop_maps_of w0 e) as [[sm dm] |] eqn:Hmaps; [| discriminate].
    assert (Hce : edge_consistent w0 e = maps_consistent sm dm)
      by (unfold edge_consistent; rewrite Hmaps; reflexivity).
    simpl. rewrite Hce. destruct b.
    + assert (Hmaps' : prop_maps_of w e = Some (sm, dm))
        by (rewrite (prop_maps_of_ext w0 w e Hn Hg); exact Hmaps).
      destruct (assert_consistent_eval w e Hmaps' He) as [w1 [Hrun Hlog]].
      unfold logs_only, keeps in Hlog. inversion Hlog as [[Hn1 Hg1]].
      destruct (IH (maps_consistent sm dm) w1) as [w' [Hrun' Hlog']];
        try congruence.
      exists w'. split.
      * rewrite (@bind_ok _ _ _ _ _ _ _ Hrun). exact Hrun'.
      * unfold logs_only, keeps in *. congruence.
    + destruct (IH false w Hn Hg Hp) as [w' [Hrun' Hlog']].
      exists w'. split; [| exact Hlog'].
      unfold bind at 1. simpl. exact Hrun'.
Qed.

Lemma back_edge_check_eval w :
  all_paired w = true ->
  fst (back_edge_check w)
  = if forallb (edge_consistent w) (back_edges_of w) then ok tt
    else throw (resolve_error back_edges_what).
Proof.
  intros Hp. unfold back_edge_check, bind at 1, get_graph. simpl.
  destruct (back_edges_loop_eval w (back_edges_of w) true w eq_refl eq_refl Hp)
    as [w' [Hrun _]].
  fold (back_edges_of w). rewrite (@bind_ok _ _ _ _ _ _ _ Hrun). simpl.
  destruct (forallb (edge_consistent w) (back_edges_of w)); reflexivity.
Qed.

Lemma forallb_false_exists A (f : A -> bool) l :
  forallb f l = false -> exists x, In x l /\ f x = false.
Proof.
  induction l as [| x l IH]; simpl; [discriminate |].
  destruct (f x) eqn:E; simpl.
  - intros H. destruct (IH H) as [y [Hy Hf]]. eauto.
  - intros _. eauto.
Qed.

Lemma mismatch_iff w :
  mismatch w <-> forallb (edge_consistent w) (back_edges_of w) = false.
Proof.
  split.
  - intros [e [p [q [Hin [[sm [dm [k [Hmaps [Hp Hq]]]]] Hne]]]]].
    apply not_true_is_false. intros Hall.
    rewrite forallb_forall in Hall. specialize (Hall e Hin).
    unfold edge_consistent in Hall. rewrite Hmaps in Hall.
    unfold maps_consistent in Hall. rewrite forallb_forall in Hall.
    specialize (Hall (k, p) Hp). simpl in Hall. rewrite Hq in Hall.
    congruence.
  - intros H. apply forallb_false_exists in H. destruct H as [e [Hin He]].
    unfold edge_consistent in He.
    destruct (prop_maps_of w e) as [[sm dm] |] eqn:Hmaps; [| discriminate].
    apply forallb_false_exists in He. destruct He as [[k p] [Hp Hf]].
    simpl in Hf.
    destruct (prop_map_find dm (get_id p)) as [q |] eqn:Hq; [| discriminate].
    exists e, p, q. split; [exact Hin | split; [| exact Hf]].
    exists sm, dm, k. auto.
Qed.

(** The back-edge check where it works.  On a committed graph, when the
    walk has ended, the quiescence check passes and every property on the
    output side of a back-edge has a counterpart with the same id on the
    input side, the call throws the resolve error of the back-edge check if
    some such pair is unequal under the equality of the output-side
    property, and returns normally otherwise.  Properties that exist on the
    input side only play no part. *)
Theorem back_edges_checked na w w1 :
  _release_count (graph w) = 0%N ->
  vertices (_graph (graph w)) <> [] ->
  resolve_walk na w = (ok tt, w1) ->
  fst (quiescence_check w1) = ok tt ->
  all_paired w1 = true ->
  (mismatch w1 ->
   fst (resolve_all_properties na w) = throw (resolve_error back_edges_what))
  /\ (~ mismatch w1 -> fst (resolve_all_properties na w) = ok tt).
Proof.
  intros Hrc Hne Hwalk Hq Hp.
  rewrite (resolve_all_committed na w Hrc Hne).
  rewrite (@bind_ok _ _ _ _ _ _ _ Hwalk).
  destruct (quiescence_check w1) as [r w2] eqn:Hqc. simpl in Hq. subst r.
  destruct (quiescence_check_ok_inv w1 Hqc) as [-> _].
  rewrite (@bind_ok _ _ _ _ _ _ _ Hqc).
  rewrite (back_edge_check_eval w1 Hp).
  pose proof (mismatch_iff w1) as Hm.
  destruct (forallb (edge_consistent w1) (back_edges_of w1)).
  - split; [| reflexivity]. intros H. apply Hm in H. discriminate.
  - split; [reflexivity |]. intros H. exfalso. apply H. apply Hm. reflexivity.
Qed.

Lemma back_edges_checked_witness :
  fst (resolve_all_properties radio_accessor (radio_back_pair 100 200))
  = throw (resolve_error back_edges_what)
  /\ fst (resolve_all_properties radio_accessor (radio_back_pair 100 100))
     = ok tt.
Proof.
  split.
  - refine (proj1 (@back_edges_checked radio_accessor (radio_back_pair 100 200)
                     (run (resolve_walk radio_accessor)
                          (radio_back_pair 100 200))
                     eq_refl _ _ eq_refl eq_refl) _).
    + discriminate.
    + vm_compute. reflexivity.
    + apply mismatch_iff. reflexivity.
  - refine (proj2 (@back_edges_checked radio_accessor (radio_back_pair 100 100)
                     (run (resolve_walk radio_accessor)
                          (radio_back_pair 100 100))
                     eq_refl _ _ eq_refl eq_refl) _).
    + discriminate.
    + vm_compute. reflexivity.
    + intros H. apply mismatch_iff in H. vm_compute in H.
      discriminate H.
Defined.

(** C2: the code departs from the claim.  A radio is connected to a node
    without properties by an edge that does not propagate, and the graph is
    committed.  The walk ends, no property is left dirty and no property of
    the back-edge has two unequal sides; a property on one side only should
    then not affect the outcome.  The comparison loop of
    [_assert_edge_props_consistent] looks the counterpart of the radio's
    output-side [samp_rate] up with [dst_prop_map.at], which throws
    [std::out_of_range]: the call neither returns normally nor fails with a
    resolve error. *)
Theorem back_edge_output_only_property :
  fst (commit radio_accessor
         (run (connect 0 1 (edge_request 0 0 false))
              (world_init [radio_node "RADIO_A" 100; terminator_node "TERM"])))
  = throw out_of_range
  /\ exists w1,
       resolve_walk radio_accessor radio_to_terminator = (ok tt, w1)
       /\ fst (quiescence_check w1) = ok tt
       /\ ~ mismatch w1
       /\ fst (resolve_all_properties radio_accessor radio_to_terminator)
          = throw out_of_range
       /\ ~ back_edge_claim_as_stated radio_accessor radio_to_terminator.
Proof.
  assert (Hno : ~ mismatch (run (resolve_walk radio_accessor)
                                radio_to_terminator)).
  { intros Hm. apply mismatch_iff in Hm. vm_compute in Hm. discriminate Hm. }
  split; [vm_compute; reflexivity |].
  exists (run (resolve_walk radio_accessor) radio_to_terminator).
  split; [vm_compute; reflexivity |].
  split; [vm_compute; reflexivity |].
  split; [exact Hno |].
  split; [vm_compute; reflexivity |].
  intros H.
  destruct (H (run (resolve_walk radio_accessor) radio_to_terminator))
    as [_ Hok].
  - vm_compute. reflexivity.
  - specialize (Hok Hno). vm_compute in Hok. discriminate Hok.
Qed.

(** ** The order of the walk *)

Lemma advance_up size p :
  2 <= size -> S p < size ->
  advance size p true = (S p, true).
Proof.
  intros Hk Hp. unfold advance.
  destruct (Nat.eqb_spec (S p) size); [lia | reflexivity].
Qed.

Lemma advance_top size :
  2 <= size ->
  advance size (size - 1) true
  = (size - 2, if Nat.eqb (size - 2) 0 then true else false).
Proof.
  intros Hk. unfold advance.
  replace (S (size - 1)) with size by lia. rewrite Nat.eqb_refl. simpl.
  destruct (Nat.ltb_spec 1 size); [| lia].
  replace (Nat.pred (Nat.pred size)) with (size - 2) by lia.
  destruct (Nat.eqb (size - 2) 0); reflexivity.
Qed.

Lemma advance_down size p :
  2 <= size -> 1 <= p ->
  advance size p false = (p - 1, if Nat.eqb (p - 1) 0 then true else false).
Proof.
  intros Hk Hp. unfold advance. simpl.
  destruct (Nat.ltb_spec 1 size); [| lia].
  replace (Nat.pred p) with (p - 1) by lia.
  destruct (Nat.eqb (p - 1) 0); reflexivity.
Qed.

(** One step of the cursor is one step of the phase. *)
Lemma advance_phase size p :
  2 <= size -> p < period size ->
  let '(i, f) := phase_state size p in
  advance size i f
  = phase_state size (if Nat.eqb (S p) (period size) then 0 else S p).
Proof.
  intros Hk Hp. unfold phase_state, period in *.
  destruct (Nat.leb_spec p (size - 1)) as [Hle | Hgt].
  - destruct (Nat.eq_dec p (size - 1)) as [-> | Hne].
    + rewrite advance_top by exact Hk.
      destruct (Nat.eqb_spec (S (size - 1)) (2 * (size - 1))) as [E | E].
      * assert (size = 2) by lia. subst size. reflexivity.
      * destruct (Nat.leb_spec (S (size - 1)) (size - 1)); [lia |].
        destruct (Nat.eqb_spec (size - 2) 0); [lia |].
        f_equal. lia.
    + rewrite advance_up by lia.
      destruct (Nat.eqb_spec (S p) (2 * (size - 1))); [lia |].
      destruct (Nat.leb_spec (S p) (size - 1)); [reflexivity | lia].
  - rewrite advance_down by lia.
    destruct (Nat.eqb_spec (S p) (2 * (size - 1))) as [E | E].
    + destruct (Nat.eqb_spec (2 * (size - 1) - p - 1) 0); [| lia].
      simpl. f_equal. lia.
    + destruct (Nat.eqb_spec (2 * (size - 1) - p - 1) 0); [lia |].
      destruct (Nat.leb_spec (S p) (size - 1)); [lia |].
      f_equal. lia.
Qed.

Lemma phase_state_pos size p : fst (phase_state size p) = phase_pos size p.
Proof.
  unfold phase_state, phase_pos. destruct (Nat.leb p (size - 1)); reflexivity.
Qed.

(** The test "going forward, and the next node is the initial node" is the
    test that the phase is the one the walk started in. *)
Lemma phase_hit size p s :
  2 <= size -> p < period size -> s < size ->
  (let '(i, f) := phase_state size p in f && Nat.eqb i s) = Nat.eqb p s.
Proof.
  intros Hk Hp Hs. unfold phase_state, period in *.
  destruct (Nat.leb_spec p (size - 1)); simpl; [reflexivity |].
  destruct (Nat.eqb_spec p s); [lia | reflexivity].
Qed.

Lemma walk_idx_step fuel size s p n :
  2 <= size -> p < period size -> s < size ->
  walk_idx (S fuel) size s (fst (phase_state size p))
           (snd (phase_state size p)) n
  = let p' := if Nat.eqb (S p) (period size) then 0 else S p in
    if Nat.eqb p' s then
      if Z.eqb (n + 1) MAX_NUM_ITERATIONS then Some [phase_pos size p]
      else option_map (cons (phase_pos size p))
             (walk_idx fuel size s (fst (phase_state size p'))
                       (snd (phase_state size p')) (n + 1))
    else option_map (cons (phase_pos size p))
           (walk_idx fuel size s (fst (phase_state size p'))
                     (snd (phase_state size p')) n).
Proof.
  intros Hk Hp Hs. cbn zeta.
  pose proof (@advance_phase size p Hk Hp) as Ha.
  set (p' := if Nat.eqb (S p) (period size) then 0 else S p) in *.
  assert (Hp' : p' < period size).
  { unfold p'. destruct (Nat.eqb_spec (S p) (period size)); lia. }
  pose proof (@phase_hit size p' s Hk Hp' Hs) as Hh.
  rewrite <- (phase_state_pos size p).
  destruct (phase_state size p) as [i f].
  destruct (phase_state size p') as [i' f'].
  cbn [fst snd walk_idx]. rewrite Ha. cbv beta iota. rewrite Hh.
  reflexivity.
Qed.

(** A run of steps on which the starting phase is not met again. *)
Lemma walk_idx_run size s n len : forall p fuel,
  2 <= size -> s < size -> p + len < period size ->
  (forall j, 1 <= j <= len -> p + j <> s) ->
  walk_idx (len + fuel) size s (fst (phase_state size p))
           (snd (phase_state size p)) n
  = option_map (app (map (phase_pos size) (seq p len)))
      (walk_idx fuel size s (fst (phase_state size (p + len)))
                (snd (phase_state size (p + len))) n).
Proof.
  induction len as [| len IH]; intros p fuel Hk Hs Hp Hfree.
  - rewrite Nat.add_0_r. simpl.
    destruct (walk_idx fuel size s _ _ n); reflexivity.
  - change (S len + fuel) with (S (len + fuel)).
    rewrite walk_idx_step by lia. cbn zeta.
    destruct (Nat.eqb_spec (S p) (period size)); [lia |].
    destruct (Nat.eqb_spec (S p) s) as [E | _].
    { exfalso. apply (Hfree 1); lia. }
    rewrite IH; try lia.
    + replace (S p + len) with (p + S len) by lia.
      destruct (walk_idx fuel size s _ _ n); reflexivity.
    + intros j Hj. specialize (Hfree (S j)). lia.
Qed.

(** The step on which the starting phase is met again. *)
Lemma walk_idx_hit fuel size s p n :
  2 <= size -> p < period size -> s < size ->
  (if Nat.eqb (S p) (period size) then 0 else S p) = s ->
  walk_idx (S fuel) size s (fst (phase_state size p))
           (snd (phase_state size p)) n
  = if Z.eqb (n + 1) MAX_NUM_ITERATIONS then Some [phase_pos size p]
    else option_map (cons (phase_pos size p))
           (walk_idx fuel size s (fst (phase_state size s))
                     (snd (phase_state size s)) (n + 1)).
Proof.
  intros Hk Hp Hs E. rewrite walk_idx_step by assumption. cbn zeta.
  rewrite E, Nat.eqb_refl. reflexivity.
Qed.

Lemma option_map_app (A : Type) (l1 l2 : list A) (o : option (list A)) :
  option_map (app l1) (option_map (app l2) o) = option_map (app (l1 ++ l2)) o.
Proof. destruct o; simpl; [rewrite app_assoc |]; reflexivity. Qed.

Lemma option_map_cons_app (A : Type) (x : A) (l : list A)
    (o : option (list A)) :
  option_map (app l) (option_map (cons x) o)
  = option_map (app (l ++ [x])) o.
Proof.
  destruct o; simpl; [rewrite <- app_assoc |]; reflexivity.
Qed.

Lemma pass_trace_unfold size s :
  2 <= size ->
  pass_trace size s
  = map (phase_pos size) (seq s (period size - s) ++ seq 0 s).
Proof.
  intros Hk. unfold pass_trace.
  destruct size as [| [| k]]; [lia | lia | reflexivity].
Qed.

(** One full pass: from the starting phase round to the starting phase. *)
Lemma walk_idx_pass size s n fuel :
  2 <= size -> s < size ->
  walk_idx (period size + fuel) size s (fst (phase_state size s))
           (snd (phase_state size s)) n
  = if Z.eqb (n + 1) MAX_NUM_ITERATIONS then Some (pass_trace size s)
    else option_map (app (pass_trace size s))
           (walk_idx fuel size s (fst (phase_state size s))
                     (snd (phase_state size s)) (n + 1)).
Proof.
  intros Hk Hs. rewrite pass_trace_unfold by exact Hk.
  assert (HM : s < period size) by (unfold period; lia).
  destruct (Nat.eq_dec s 0) as [-> | Hs0].
  - (* started at the front: up and down, then the hit at the wrap *)
    replace (period size + fuel) with ((period size - 1) + S fuel) by lia.
    rewrite walk_idx_run; try lia.
    rewrite walk_idx_hit; try lia.
    2:{ destruct (Nat.eqb_spec (S (0 + (period size - 1))) (period size)); lia. }
    rewrite Nat.sub_0_r, app_nil_r.
    replace (seq 0 (period size))
      with (seq 0 (period size - 1) ++ [0 + (period size - 1)]).
    2:{ rewrite <- seq_S. f_equal. lia. }
    rewrite map_app. simpl map.
    destruct (Z.eqb (n + 1) MAX_NUM_ITERATIONS); simpl.
    + reflexivity.
    + apply option_map_cons_app.
  - (* started inside: to the wrap, over it, and on to the start *)
    replace (period size + fuel)
      with ((period size - 1 - s) + S ((s - 1) + S fuel)) by lia.
    rewrite walk_idx_run; try lia.
    replace (s + (period size - 1 - s)) with (period size - 1) by lia.
    rewrite walk_idx_step; try lia. cbn zeta.
    destruct (Nat.eqb_spec (S (period size - 1)) (period size)); [| lia].
    destruct (Nat.eqb_spec 0 s); [lia |].
    rewrite (@walk_idx_run size s n (s - 1) 0); try lia.
    rewrite walk_idx_hit; try lia.
    2:{ destruct (Nat.eqb_spec (S (0 + (s - 1))) (period size)); lia. }
    replace (seq s (period size - s))
      with (seq s (period size - 1 - s) ++ [period size - 1]).
    2:{ replace (period size - s) with (S (period size - 1 - s)) by lia.
        rewrite seq_S. do 2 f_equal. lia. }
    replace (seq 0 s) with (seq 0 (s - 1) ++ [0 + (s - 1)]).
    2:{ rewrite <- seq_S. f_equal. lia. }
    rewrite !map_app. simpl map.
    destruct (Z.eqb (n + 1) MAX_NUM_ITERATIONS); simpl.
    + rewrite <- !app_assoc. reflexivity.
    + destruct (walk_idx fuel size s _ _ (n + 1)); simpl; [| reflexivity].
      rewrite <- !app_assoc. reflexivity.
Qed.

Lemma phase_state_start size s :
  s < size -> phase_state size s = (s, true).
Proof.
  intros Hs. unfold phase_state.
  destruct (Nat.leb_spec s (size - 1)); [reflexivity | lia].
Qed.

(** The walk is two passes, and four steps per node are enough fuel. *)
Lemma walk_idx_two_passes size s fuel :
  1 <= size -> s < size -> 4 * size <= fuel ->
  walk_idx fuel size s s true 0 = Some (pass_trace size s ++ pass_trace size s).
Proof.
  intros Hk Hs Hf.
  destruct (Nat.eq_dec size 1) as [-> | Hne].
  - assert (s = 0) by lia. subst s.
    destruct fuel as [| [| fuel]]; [lia | lia | reflexivity].
  - assert (Hk2 : 2 <= size) by lia.
    replace fuel
      with (period size + (period size + (fuel - 2 * period size)))
      by (unfold period; lia).
    pose proof (walk_idx_pass (s := s) 0
                              (period size + (fuel - 2 * period size))
                              Hk2 Hs) as H1.
    pose proof (walk_idx_pass (s := s) (0 + 1) (fuel - 2 * period size)
                              Hk2 Hs) as H2.
    rewrite (phase_state_start Hs) in H1, H2. simpl fst in *. simpl snd in *.
    rewrite H1. change (Z.eqb (0 + 1) MAX_NUM_ITERATIONS) with false.
    cbv iota. rewrite H2.
    change (Z.eqb (0 + 1 + 1) MAX_NUM_ITERATIONS) with true. reflexivity.
Qed.

(** How often a pass comes by a position. *)
Lemma count_occ_seq i len : forall a,
  count_occ Nat.eq_dec (seq a len) i
  = if Nat.leb a i && Nat.ltb i (a + len) then 1 else 0.
Proof.
  induction len as [| len IH]; intros a.
  - simpl. destruct (Nat.leb_spec a i), (Nat.ltb_spec i (a + 0));
      simpl; try reflexivity; lia.
  - simpl seq. destruct (Nat.eq_dec a i) as [-> | Hne].
    + rewrite count_occ_cons_eq by reflexivity. rewrite IH.
      destruct (Nat.leb_spec (S i) i); [lia |].
      destruct (Nat.leb_spec i i); [| lia].
      destruct (Nat.ltb_spec i (i + S len)); [reflexivity | lia].
    + rewrite count_occ_cons_neq by exact Hne. rewrite IH.
      destruct (Nat.leb_spec (S a) i), (Nat.leb_spec a i),
        (Nat.ltb_spec i (S a + len)), (Nat.ltb_spec i (a + S len));
        simpl; try reflexivity; lia.
Qed.

Lemma count_occ_mirror m i len : forall a,
  a + len <= S m -> i <= m ->
  count_occ Nat.eq_dec (map (fun p => m - p) (seq a len)) i
  = if Nat.leb a (m - i) && Nat.ltb (m - i) (a + len) then 1 else 0.
Proof.
  induction len as [| len IH]; intros a Ha Hi.
  - simpl. destruct (Nat.leb_spec a (m - i)), (Nat.ltb_spec (m - i) (a + 0));
      simpl; try reflexivity; lia.
  - simpl seq. simpl map. destruct (Nat.eq_dec (m - a) i) as [E | Hne].
    + rewrite count_occ_cons_eq by exact E. rewrite IH by lia.
      destruct (Nat.leb_spec (S a) (m - i)); [lia |].
      destruct (Nat.leb_spec a (m - i)); [| lia].
      destruct (Nat.ltb_spec (m - i) (a + S len)); [reflexivity | lia].
    + rewrite count_occ_cons_neq by exact Hne. rewrite IH by lia.
      destruct (Nat.leb_spec (S a) (m - i)), (Nat.leb_spec a (m - i)),
        (Nat.ltb_spec (m - i) (S a + len)), (Nat.ltb_spec (m - i) (a + S len));
        simpl; try reflexivity; lia.
Qed.

(** One pass comes by each end of the list once and by every position in
    between twice. *)
Lemma pass_count size s i :
  1 <= size -> s < size -> i < size ->
  count_occ Nat.eq_dec (pass_trace size s) i
  = if Nat.eqb i 0 || Nat.eqb i (size - 1) then 1 else 2.
Proof.
  intros Hk Hs Hi.
  destruct (Nat.eq_dec size 1) as [-> | Hne].
  { assert (i = 0) by lia. subst i. reflexivity. }
  rewrite pass_trace_unfold by lia.
  assert (HM : period size = size + (size - 2)) by (unfold period; lia).
  assert (Hperm : Permutation (seq s (period size - s) ++ seq 0 s)
                              (seq 0 size ++ seq size (size - 2))).
  { rewrite Permutation_app_comm.
    replace (seq s (period size - s)) with (seq (0 + s) (period size - s))
      by reflexivity.
    rewrite <- seq_app.
    replace (s + (period size - s)) with (size + (size - 2)) by lia.
    rewrite seq_app. reflexivity. }
  rewrite (proj1 (Permutation_count_occ Nat.eq_dec _ _)
             (Permutation_map (phase_pos size) Hperm) i).
  rewrite map_app, count_occ_app.
  rewrite (map_ext_in (phase_pos size) (fun p => p)).
  2:{ intros p Hp. apply in_seq in Hp. unfold phase_pos.
      destruct (Nat.leb_spec p (size - 1)); [reflexivity | lia]. }
  rewrite map_id, count_occ_seq.
  rewrite (map_ext_in (phase_pos size) (fun p => period size - p)).
  2:{ intros p Hp. apply in_seq in Hp. unfold phase_pos.
      destruct (Nat.leb_spec p (size - 1)); [lia | reflexivity]. }
  rewrite count_occ_mirror by lia.
  destruct (Nat.leb_spec 0 i); [| lia].
  destruct (Nat.ltb_spec i (0 + size)); [| lia].
  destruct (Nat.eqb_spec i 0), (Nat.eqb_spec i (size - 1)),
    (Nat.leb_spec size (period size - i)),
    (Nat.ltb_spec (period size - i) (size + (size - 2)));
    simpl; try reflexivity; lia.
Qed.

Lemma pass_trace_range size s i :
  1 <= size -> s < size -> In i (pass_trace size s) -> i < size.
Proof.
  intros Hk Hs Hin.
  destruct (Nat.eq_dec size 1) as [-> | Hne].
  { destruct Hin as [<- | []]. lia. }
  rewrite pass_trace_unfold in Hin by lia.
  apply in_map_iff in Hin as [p [<- Hp]].
  apply in_app_iff in Hp. unfold phase_pos, period in *.
  destruct (Nat.leb_spec p (size - 1)); [lia |].
  destruct Hp as [Hp | Hp]; apply in_seq in Hp; lia.
Qed.

(** ** The calls of [resolve_props] along the walk *)

Lemma resolve_targets_app l l' :
  resolve_targets (l ++ l') = resolve_targets l ++ resolve_targets l'.
Proof. unfold resolve_targets. apply flat_map_app. Qed.

Lemma resolve_targets_none l : Forall not_resolve l -> resolve_targets l = [].
Proof.
  induction 1 as [| ev l H _ IH]; [reflexivity |].
  destruct ev; simpl in H; try contradiction; exact IH.
Qed.

Lemma resolves_refl w : resolves [] w w.
Proof.
  split; [reflexivity |]. exists []. rewrite app_nil_r. split; reflexivity.
Qed.

Lemma resolves_trans T1 T2 a b c :
  resolves T1 a b -> resolves T2 b c -> resolves (T1 ++ T2) a c.
Proof.
  intros [G1 [l1 [L1 R1]]] [G2 [l2 [L2 R2]]]. split; [congruence |].
  exists (l1 ++ l2). rewrite L2, L1, app_assoc, resolve_targets_app, R1, R2.
  split; reflexivity.
Qed.

(** A step that keeps the graph and logs no call of [resolve_props]. *)
Lemma resolves_silent A (m : M A) w r w' :
  respects (keeps graph) m -> respects (log_adds not_resolve) m ->
  m w = (r, w') -> resolves [] w w'.
Proof.
  intros Hg Hl E. specialize (Hg w). specialize (Hl w).
  rewrite E in Hg, Hl. simpl in Hg, Hl. destruct Hl as [l [Hl HF]].
  split; [exact Hg |]. exists l. split; [exact Hl |].
  apply resolve_targets_none, HF.
Qed.

Lemma resolves_reads A (m : M A) w r w' :
  reads m -> m w = (r, w') -> resolves [] w w'.
Proof.
  intros Hr E. specialize (Hr w). rewrite E in Hr. simpl in Hr. subst w'.
  apply resolves_refl.
Qed.

Lemma node_at_graph w w' topo i :
  graph w' = graph w -> node_at w' topo i = node_at w topo i.
Proof. unfold node_at. intros ->. reflexivity. Qed.

Lemma iter_deref_ok A (l : list A) i x w :
  nth_error l i = Some x -> iter_deref l i w = (ok x, w).
Proof. unfold iter_deref. intros ->. reflexivity. Qed.

Lemma iter_deref_inv A (l : list A) i x w w' :
  iter_deref l i w = (ok x, w') -> nth_error l i = Some x /\ w' = w.
Proof.
  unfold iter_deref. destruct (nth_error l i); intros E; inversion E.
  split; reflexivity.
Qed.

Lemma vertex_property_inv v n w w' :
  vertex_property v w = (ok n, w') ->
  nth_error (vertices (_graph (graph w))) v = Some n /\ w' = w.
Proof.
  unfold vertex_property, bind, get_graph. simpl.
  destruct (nth_error (vertices (_graph (graph w))) v); intros E; inversion E.
  split; reflexivity.
Qed.

Lemma advance_lt size node_it fwd :
  node_it < size -> fst (advance size node_it fwd) < size.
Proof.
  intros H. unfold advance.
  destruct fwd; [destruct (Nat.eqb_spec (S node_it) size) |];
    cbn [negb Nat.pred];
    destruct (Nat.ltb_spec 1 size); try (simpl; lia);
    match goal with
    | |- context [Nat.eqb ?x 0] => destruct (Nat.eqb x 0)
    end; simpl; lia.
Qed.

Lemma terminates_bind_ok A B (m : M A) (k : A -> M B) a :
  (forall w, m w = (ok a, w)) -> terminates (k a) -> terminates (bind m k).
Proof. intros Hm Hk w. unfold bind. rewrite Hm. apply Hk. Qed.

Lemma terminates_iter_deref A (l : list A) i : terminates (iter_deref l i).
Proof. unfold iter_deref. term_tac. Qed.

Lemma terminates_forward_edge_props na origin :
  terminates (_forward_edge_props na origin).
Proof. unfold _forward_edge_props. term_tac. Qed.

Lemma forward_edge_props_silent na origin :
  respects (log_adds not_resolve) (_forward_edge_props na origin).
Proof. unfold _forward_edge_props. frame. Qed.

Section Walk_order.

Variable na : node_accessor_t.
Variable topo : list vertex_descriptor.
Variable initial : vertex_descriptor.
Variable s : nat.
Hypothesis topo_nodup : NoDup topo.
Hypothesis s_initial : nth_error topo s = Some initial.

(** The test on the node is the test on the position. *)
Lemma hit_test node_it v :
  nth_error topo node_it = Some v -> Nat.eqb v initial = Nat.eqb node_it s.
Proof.
  intros H.
  destruct (Nat.eqb_spec v initial) as [E | E],
    (Nat.eqb_spec node_it s) as [F | F]; try reflexivity.
  - exfalso. apply F. subst v.
    apply (proj1 (NoDup_nth_error topo) topo_nodup).
    + apply nth_error_Some. congruence.
    + congruence.
  - exfalso. apply E. subst node_it. congruence.
Qed.

(** The loop ends within its budget whenever the cursor does. *)
Lemma walk_terminates : forall fuel node_it fwd num tr,
  node_it < length topo ->
  walk_idx fuel (length topo) s node_it fwd num = Some tr ->
  terminates (walk na fuel topo initial node_it fwd num).
Proof.
  induction fuel as [| fuel IH]; intros node_it fwd num tr Hlt Hidx;
    [discriminate |].
  simpl in Hidx. simpl walk.
  pose proof (advance_lt fwd Hlt) as Hlt'.
  destruct (advance (length topo) node_it fwd) as [node_it' fwd'].
  simpl in Hlt'.
  destruct (nth_error topo node_it') as [v' |] eqn:Hv';
    [| apply nth_error_None in Hv'; lia].
  apply terminates_bind; [apply terminates_iter_deref | intros v].
  apply terminates_bind; [apply terminates_vertex_property | intros n].
  apply terminates_bind; [apply terminates_UHD_LOG | intros _].
  apply terminates_bind; [apply terminates_on_nodes_ | intros _].
  apply terminates_bind; [apply terminates_forward_edge_props | intros _].
  apply terminates_bind; [apply terminates_UHD_LOG | intros _].
  apply terminates_bind; [apply terminates_on_nodes_ | intros _].
  apply terminates_bind_ok with (a := v');
    [intros w; apply iter_deref_ok; exact Hv' |].
  rewrite (hit_test _ Hv').
  destruct (fwd' && Nat.eqb node_it' s).
  - destruct (Z.eqb (num + 1) MAX_NUM_ITERATIONS).
    + apply terminates_ret.
    + destruct (walk_idx fuel (length topo) s node_it' fwd' (num + 1))
        as [tr' |] eqn:Hrec; [| discriminate].
      eapply IH; eassumption.
  - destruct (walk_idx fuel (length topo) s node_it' fwd' num)
      as [tr' |] eqn:Hrec; [| discriminate].
    eapply IH; eassumption.
Qed.

(** The calls of [resolve_props] of a walk that returns are on the nodes
    at the positions the cursor visits, in that order. *)
Lemma walk_targets : forall fuel node_it fwd num tr w w1,
  node_it < length topo ->
  walk_idx fuel (length topo) s node_it fwd num = Some tr ->
  walk na fuel topo initial node_it fwd num w = (ok tt, w1) ->
  resolves (map (node_at w topo) tr) w w1.
Proof.
  induction fuel as [| fuel IH]; intros node_it fwd num tr w w1 Hlt Hidx Hw;
    [discriminate |].
  simpl in Hidx. simpl walk in Hw.
  pose proof (advance_lt fwd Hlt) as Hlt'.
  destruct (advance (length topo) node_it fwd) as [node_it' fwd'].
  simpl in Hlt'.
  apply bind_inv_ok in Hw as (v & wa & Hv & Hw).
  apply iter_deref_inv in Hv as [Hv ->].
  apply bind_inv_ok in Hw as (n & wb & Hn & Hw).
  apply vertex_property_inv in Hn as [Hn ->].
  apply bind_inv_ok in Hw as ([] & w3 & H3 & Hw).
  apply bind_inv_ok in Hw as ([] & w4 & H4 & Hw).
  apply bind_inv_ok in Hw as ([] & w5 & H5 & Hw).
  apply bind_inv_ok in Hw as ([] & w6 & H6 & Hw).
  apply bind_inv_ok in Hw as ([] & w7 & H7 & Hw).
  apply bind_inv_ok in Hw as (v' & w8 & Hv' & Hw).
  apply iter_deref_inv in Hv' as [Hv' ->].
  rewrite (hit_test _ Hv') in Hw.
  assert (Hhere : node_at w topo node_it = n).
  { unfold node_at.
    replace (nth node_it topo 0) with v
      by (symmetry; apply nth_error_nth; exact Hv).
    apply nth_error_nth. exact Hn. }
  assert (Hbody : resolves [n] w w7).
  { assert (R3 : resolves [n] w w3).
    { inversion H3; subst w3. split; [reflexivity |].
      exists [call_resolve_props n]. split; reflexivity. }
    assert (R4 : resolves [] w3 w4).
    { eapply resolves_silent; [| | exact H4]; frame. }
    assert (R5 : resolves [] w4 w5).
    { eapply resolves_silent; [| | exact H5].
      - apply forward_edge_props_respects; typeclasses eauto.
      - apply forward_edge_props_silent. }
    assert (R6 : resolves [] w5 w6).
    { eapply resolves_silent; [| | exact H6]; frame. }
    assert (R7 : resolves [] w6 w7).
    { eapply resolves_silent; [| | exact H7]; frame. }
    pose proof (resolves_trans R3 (resolves_trans R4
                 (resolves_trans R5 (resolves_trans R6 R7)))) as R.
    exact R. }
  assert (Hrest : forall num' tr',
            walk_idx fuel (length topo) s node_it' fwd' num' = Some tr' ->
            walk na fuel topo initial node_it' fwd' num' w7 = (ok tt, w1) ->
            resolves (map (node_at w topo) (node_it :: tr')) w w1).
  { intros num' tr' Hidx' Hw'.
    pose proof (IH _ _ _ _ _ _ Hlt' Hidx' Hw') as R.
    rewrite (map_ext _ _ (fun i => @node_at_graph w w7 topo i (proj1 Hbody)))
      in R.
    simpl map. rewrite Hhere.
    exact (resolves_trans Hbody R). }
  destruct (fwd' && Nat.eqb node_it' s).
  - destruct (Z.eqb (num + 1) MAX_NUM_ITERATIONS).
    + inversion Hidx; subst tr. inversion Hw; subst w1.
      simpl map. rewrite Hhere. exact Hbody.
    + destruct (walk_idx fuel (length topo) s node_it' fwd' (num + 1))
        as [tr' |] eqn:Hrec; [| discriminate].
      inversion Hidx; subst tr. eapply Hrest; eassumption.
  - destruct (walk_idx fuel (length topo) s node_it' fwd' num)
      as [tr' |] eqn:Hrec; [| discriminate].
    inversion Hidx; subst tr. eapply Hrest; eassumption.
Qed.

End Walk_order.

(** ** The sorted list *)

Lemma find_it_nth x : forall l i,
  find_it l x = Some i -> nth_error l i = Some x.
Proof.
  induction l as [| v l IH]; intros i H; simpl in H; [discriminate |].
  destruct (Nat.eqb_spec v x) as [-> | Hne].
  - inversion H; subst. reflexivity.
  - destruct (find_it l x) as [j |]; [| discriminate].
    inversion H; subst. simpl. apply IH. reflexivity.
Qed.

Lemma get_topo_sorted_nodes_inv w topo w' :
  _get_topo_sorted_nodes w = (ok topo, w') ->
  w' = w
  /\ topological_sort (length (vertices (_graph (graph w))))
                      (forward_edges (_graph (graph w))) = Some topo.
Proof.
  unfold _get_topo_sorted_nodes, bind, get_graph. simpl.
  destruct (topological_sort _ _) as [l |]; intros E; inversion E.
  split; reflexivity.
Qed.

(** The budget of the walk is enough: four steps per node. *)
Lemma terminates_bind_post A B (m : M A) (k : A -> M B) (P : A -> Prop) :
  (forall w a w', m w = (ok a, w') -> P a) ->
  terminates m -> (forall a, P a -> terminates (k a)) ->
  terminates (bind m k).
Proof.
  intros HP Hm Hk w. unfold bind. specialize (Hm w). specialize (HP w).
  destruct (m w) as [[a | e |] w1]; simpl in *.
  - apply Hk. eapply HP. reflexivity.
  - discriminate.
  - exfalso. apply Hm. reflexivity.
Qed.

Lemma terminates_find_dirty_nodes : terminates _find_dirty_nodes.
Proof.
  unfold _find_dirty_nodes, DirtyNodePredicate, get_dirty_props. term_tac.
Qed.

Lemma terminates_get_topo_sorted_nodes : terminates _get_topo_sorted_nodes.
Proof. unfold _get_topo_sorted_nodes. term_tac. Qed.

Lemma terminates_UHD_ASSERT_THROW b : terminates (UHD_ASSERT_THROW b).
Proof. unfold UHD_ASSERT_THROW. term_tac. Qed.

Lemma resolve_walk_terminates na : terminates (resolve_walk na).
Proof.
  unfold resolve_walk.
  apply terminates_bind; [apply terminates_find_dirty_nodes | intros dirty].
  apply terminates_bind.
  { destruct (Nat.ltb 1 (length dirty)); term_tac. }
  intros _.
  apply terminates_bind; [apply terminates_UHD_ASSERT_THROW | intros _].
  apply terminates_bind_post
    with (P := fun topo : list vertex_descriptor => NoDup topo);
    [| apply terminates_get_topo_sorted_nodes |].
  - intros w topo w' H. apply get_topo_sorted_nodes_inv in H as [_ H].
    apply topological_sort_sound in H. apply H.
  - intros topo Hnd.
    destruct (find_it topo _) as [s |] eqn:Hs; [| apply terminates_raise].
    apply find_it_nth in Hs.
    assert (Hlt : s < length topo) by (apply nth_error_Some; congruence).
    eapply walk_terminates; [exact Hnd | exact Hs | exact Hlt |].
    apply walk_idx_two_passes; lia.
Qed.

Lemma terminates_props_match_loop dst e : forall src b,
  terminates (props_match_loop src dst e b).
Proof. induction src as [| [k p] src IH]; intros b; simpl; term_tac. Qed.

Lemma terminates_back_edges_loop : forall es b,
  terminates (back_edges_loop es b).
Proof.
  induction es as [| e es IH]; intros b; simpl; [term_tac |].
  destruct b.
  - apply terminates_bind; [| intros r; apply IH].
    unfold _assert_edge_props_consistent, get_prop_map.
    pose proof terminates_props_match_loop. term_tac.
  - term_tac.
Qed.

Lemma terminates_quiescence_check : terminates quiescence_check.
Proof.
  unfold quiescence_check.
  apply terminates_bind; [apply terminates_find_dirty_nodes | intros dirty].
  destruct dirty; [apply terminates_ret |].
  unfold get_dirty_props. term_tac.
Qed.

Lemma terminates_back_edge_check : terminates back_edge_check.
Proof.
  unfold back_edge_check.
  apply terminates_bind; [apply terminates_get_graph | intros g].
  apply terminates_bind; [apply terminates_back_edges_loop | intros b].
  term_tac.
Qed.

Lemma resolve_all_properties_terminates na :
  terminates (resolve_all_properties na).
Proof.
  unfold resolve_all_properties.
  apply terminates_bind; [apply terminates_get_graph | intros g].
  destruct (Nat.eqb _ 0); [apply terminates_ret |].
  destruct (negb _); [apply terminates_ret |].
  apply terminates_bind; [apply resolve_walk_terminates | intros _].
  apply terminates_bind; [apply terminates_quiescence_check | intros _].
  apply terminates_back_edge_check.
Qed.

(** The calls of [resolve_props] of the walk, when it returns. *)
Lemma resolve_walk_targets na w w1 :
  resolve_walk na w = (ok tt, w1) ->
  exists topo s,
    topological_sort (length (vertices (_graph (graph w))))
                     (forward_edges (_graph (graph w))) = Some topo
    /\ s < length topo
    /\ resolves (map (node_at w topo)
                     (pass_trace (length topo) s ++ pass_trace (length topo) s))
                w w1.
Proof.
  unfold resolve_walk. intros H.
  apply bind_inv_ok in H as (dirty & wa & Hd & H).
  pose proof (reads_find_dirty_nodes w) as E. rewrite Hd in E. simpl in E.
  subst wa.
  apply bind_inv_ok in H as ([] & wb & Hwarn & H).
  assert (Rb : resolves [] w wb).
  { destruct (Nat.ltb 1 (length dirty)).
    - eapply resolves_silent; [| | exact Hwarn]; frame.
    - inversion Hwarn; subst. apply resolves_refl. }
  apply bind_inv_ok in H as ([] & wc & Hassert & H).
  match type of Hassert with
  | UHD_ASSERT_THROW ?b _ = _ =>
      pose proof (@reads_UHD_ASSERT_THROW b wb) as E
  end.
  rewrite Hassert in E. simpl in E. subst wc.
  apply bind_inv_ok in H as (topo & wd & Htopo & H).
  apply get_topo_sorted_nodes_inv in Htopo as [-> Htopo].
  rewrite (proj1 Rb) in Htopo.
  destruct (find_it topo _) as [s |] eqn:Hs; [| discriminate].
  apply find_it_nth in Hs.
  assert (Hlt : s < length topo) by (apply nth_error_Some; congruence).
  destruct (topological_sort_sound _ _ Htopo) as [Hnd _].
  exists topo, s. split; [exact Htopo | split; [exact Hlt |]].
  assert (Hk : 1 <= length topo) by lia.
  pose proof (walk_idx_two_passes Hk Hlt (le_n (4 * length topo))) as Hidx.
  pose proof (@walk_targets na topo _ s Hnd Hs _ _ _ _ _ _ _ Hlt Hidx H) as R.
  rewrite (map_ext _ _ (fun i => @node_at_graph w wb topo i (proj1 Rb))) in R.
  exact (resolves_trans Rb R).
Qed.

(** The two checks after the walk call no resolver. *)
Lemma props_match_loop_silent dst e : forall src b,
  respects (log_adds not_resolve) (props_match_loop src dst e b).
Proof. induction src as [| [k p] src IH]; intros b; simpl; frame. Qed.

Lemma back_edges_loop_silent : forall es b,
  respects (log_adds not_resolve) (back_edges_loop es b).
Proof.
  pose proof props_match_loop_silent as Hp.
  induction es as [| e es IH]; intros b; simpl; [frame |].
  unfold _assert_edge_props_consistent. frame.
Qed.

Lemma back_edge_check_silent : respects (log_adds not_resolve) back_edge_check.
Proof.
  pose proof back_edges_loop_silent as Hb. unfold back_edge_check. frame.
Qed.

Lemma quiescence_check_silent :
  respects (log_adds not_resolve) quiescence_check.
Proof. unfold quiescence_check. frame. Qed.

Lemma count_occ_map_inj (f : nat -> nat) i : forall l,
  (forall j, In j l -> f j = f i -> j = i) ->
  count_occ Nat.eq_dec (map f l) (f i) = count_occ Nat.eq_dec l i.
Proof.
  induction l as [| j l IH]; intros Hinj; [reflexivity |].
  simpl map. destruct (Nat.eq_dec j i) as [-> | Hne].
  - rewrite !count_occ_cons_eq by reflexivity. f_equal. apply IH.
    intros j Hj. apply Hinj. right. exact Hj.
  - rewrite !count_occ_cons_neq.
    + apply IH. intros k Hk. apply Hinj. right. exact Hk.
    + exact Hne.
    + intros E. apply Hne. apply Hinj; [left; reflexivity | exact E].
Qed.

(** Distinct positions of the sorted list hold distinct nodes. *)
Lemma node_at_inj w topo i j :
  NoDup (vertices (_graph (graph w))) -> NoDup topo ->
  (forall v, In v topo -> v < length (vertices (_graph (graph w)))) ->
  i < length topo -> j < length topo ->
  node_at w topo j = node_at w topo i -> j = i.
Proof.
  intros Hvs Htopo Hrange Hi Hj E. unfold node_at in E.
  apply (proj1 (NoDup_nth topo 0) Htopo); try assumption.
  apply (proj1 (NoDup_nth (vertices (_graph (graph w))) 0) Hvs);
    try (apply Hrange, nth_In; assumption).
  exact E.
Qed.



(** The counters of the fan-out after the commit and after one more call:
    C, in the middle of the order, counts four per call. *)
Example fan_out_counters :
  fst (_get_topo_sorted_nodes fan_out_committed) = ok [0; 2; 1]
  /\ map (rssi_of fan_out_committed) [0; 1; 2]
     = [Some 2%Z; Some 2%Z; Some 4%Z]
  /\ map (rssi_of (run (resolve_all_properties fan_out_accessor)
                       fan_out_committed)) [0; 1; 2]
     = [Some 4%Z; Some 4%Z; Some 8%Z].
Proof. vm_compute. auto. Qed.


(** [_get_topo_sorted_nodes] throws the cycle error exactly when the
    propagating edges contain a cycle; otherwise it returns every vertex
    once, in an order in which every propagating edge goes from an earlier
    to a later vertex.  Edges that do not propagate play no part. *)
Theorem topo_sorted_nodes_exact w :
  graph_wf (graph w) = true ->
  (cyclic (forward_edges (_graph (graph w))) ->
   _get_topo_sorted_nodes w = (throw (rfnoc_error cycle_what), w))
  /\ (~ cyclic (forward_edges (_graph (graph w))) ->
      exists topo,
        _get_topo_sorted_nodes w = (ok topo, w)
        /\ Permutation topo (seq 0 (length (vertices (_graph (graph w)))))
        /\ forall u v,
             In (u, v) (forward_edges (_graph (graph w))) -> before topo u v).
Proof.
  intros Hwf. apply graph_wf_spec in Hwf as [Hedges _].
  pose proof (forward_edges_range (_graph (graph w)) Hedges) as Hrange.
  unfold _get_topo_sorted_nodes, bind, get_graph. simpl. split.
  - intros Hc. rewrite (topological_sort_cyclic Hrange Hc). reflexivity.
  - intros Hn.
    destruct (topological_sort _ _) as [topo |] eqn:Hs.
    + exists topo. split; [reflexivity |].
      apply (@topological_sort_order _ _ _ Hrange Hs).
    + exfalso. apply Hn. eapply topological_sort_none. exact Hs.
Qed.

Lemma topo_sorted_nodes_exact_witness :
  exists topo,
    _get_topo_sorted_nodes chain_connected = (ok topo, chain_connected)
    /\ Permutation topo [0; 1; 2]
    /\ forall u v,
         In (u, v) (forward_edges (_graph (graph chain_connected))) ->
         before topo u v.
Proof.
  apply (proj2 (@topo_sorted_nodes_exact chain_connected eq_refl)).
  apply sorted_not_cyclic with (n := 3) (l := [0; 1; 2]).
  - vm_compute. intros u v [E | [E | []]]; inversion E; subst; lia.
  - vm_compute. reflexivity.
Defined.

(** ** The outcomes of [connect] *)

Lemma finish_edge_eval sv dv new w :
  finish_edge sv dv new w
  = match topological_sort (length (vertices (_graph (graph w))))
            (forward_edges (_graph (with_edge (graph w) sv dv new))) with
    | Some _ =>
        (ok tt, mk_world (nodes w) (with_edge (graph w) sv dv new) (log w))
    | None =>
        (throw (rfnoc_error unresolvable_what),
         mk_world (nodes w) (graph w) (log w ++ [log_unresolvable_edge new]))
    end.
Proof.
  destruct w as [ns g l]. destruct g as [[vs es] nm rc q flag].
  unfold finish_edge, with_edge, bind, add_edge, bind, get_graph,
    modify_graph, UHD_ASSERT_THROW, try_catch_rfnoc, _get_topo_sorted_nodes,
    bind, get_graph, ret, raise, UHD_LOG, remove_edge, modify_graph.
  simpl.
  destruct (topological_sort (length vs) _); simpl; [reflexivity |].
  rewrite remove_nth_app. reflexivity.
Qed.

Lemma assert_edge_new_conflict new ex w :
  no_conflict new ex = false ->
  exists msg w',
    assert_edge_new new ex w = (throw (rfnoc_error msg), w')
    /\ logs_only w w'.
Proof.
  unfold no_conflict, assert_edge_new. intros H.
  apply orb_false_iff in H as [Heq H]. rewrite Heq.
  apply negb_false_iff in H.
  destruct (Nat.eqb (src_port ex) (src_port new)
            && String.eqb (src_blockid ex) (src_blockid new)
            && Nat.eqb (dst_port ex) (dst_port new)
            && String.eqb (dst_blockid ex) (dst_blockid new)).
  { do 2 eexists. split; reflexivity. }
  destruct (String.eqb (src_blockid new) (src_blockid ex)
            && Nat.eqb (src_port new) (src_port ex)).
  { do 2 eexists. split; reflexivity. }
  simpl in H. rewrite H.
  do 2 eexists. split; reflexivity.
Qed.

(** The comparisons pass when no edge of the list conflicts with the new
    edge, and throw an [rfnoc_error] otherwise; they only write the log. *)
Lemma checks_outcome new : forall l w,
  exists w',
    logs_only w w'
    /\ ((for_each l (fun e : nat * nat * graph_edge_t =>
                       assert_edge_new new (snd e)) w = (ok tt, w')
         /\ forall ex, In ex l -> no_conflict new (snd ex) = true)
        \/ exists ex msg,
             In ex l /\ no_conflict new (snd ex) = false
             /\ for_each l (fun e : nat * nat * graph_edge_t =>
                              assert_edge_new new (snd e)) w
                = (throw (rfnoc_error msg), w')).
Proof.
  induction l as [| ex l IH]; intros w.
  - exists w. split; [reflexivity |]. left. split; [reflexivity |].
    intros ex [].
  - destruct (no_conflict new (snd ex)) eqn:Hc.
    + destruct (assert_edge_new_no_conflict new (snd ex) w Hc)
        as [w1 [H1 L1]].
      destruct (IH w1) as [w2 [L2 Hcases]].
      exists w2. split; [etransitivity; eassumption |].
      simpl. rewrite (@bind_ok _ _ _ _ _ _ _ H1).
      destruct Hcases as [[Hok Hall] | [ex' [msg [Hin [Hc' Hthrow]]]]].
      * left. split; [exact Hok |].
        intros y [<- | Hy]; [exact Hc | apply Hall; exact Hy].
      * right. exists ex', msg. split; [right; exact Hin |].
        split; assumption.
    + destruct (assert_edge_new_conflict new (snd ex) w Hc)
        as [msg [w1 [H1 L1]]].
      exists w1. split; [exact L1 |]. right. exists ex, msg.
      split; [left; reflexivity |]. split; [exact Hc |].
      simpl. rewrite (@bind_throw _ _ _ _ _ _ _ H1). reflexivity.
Qed.

Lemma registered_finds s d g :
  exists sv dv,
    node_map_find (_node_map (registered s d g)) s = Some sv
    /\ node_map_find (_node_map (registered s d g)) d = Some dv.
Proof.
  unfold registered.
  destruct (add_node_g_finds s g) as [sv Hsv].
  destruct (add_node_g_finds d (add_node_g s g)) as [dv Hdv].
  exists sv, dv. split; [| exact Hdv].
  apply add_node_g_keeps. exact Hsv.
Qed.

Lemma bind_for_each_app A B (l1 l2 : list A) (body : A -> M unit)
    (k : unit -> M B) w :
  bind (for_each (l1 ++ l2) body) k w
  = bind (for_each l1 body) (fun _ => bind (for_each l2 body) k) w.
Proof.
  unfold bind at 1. rewrite for_each_app. unfold bind.
  destruct (for_each l1 body w) as [[[] | e |] w1]; reflexivity.
Qed.

Lemma insert_edge_split s d new w sv dv :
  node_map_find (_node_map (graph w)) s = Some sv ->
  node_map_find (_node_map (graph w)) d = Some dv ->
  insert_edge s d new w
  = bind (for_each (rivals sv dv (graph w))
                   (fun e : nat * nat * graph_edge_t =>
                      assert_edge_new new (snd e)))
         (fun _ => finish_edge sv dv new) w.
Proof.
  intros Hs Hd. unfold insert_edge, rivals.
  assert (Hat_s : node_map_at s w = (ok sv, w)).
  { unfold node_map_at, bind, get_graph. simpl. rewrite Hs. reflexivity. }
  assert (Hat_d : node_map_at d w = (ok dv, w)).
  { unfold node_map_at, bind, get_graph. simpl. rewrite Hd. reflexivity. }
  rewrite (@bind_ok _ _ _ _ _ _ _ Hat_s).
  rewrite (@bind_ok _ _ _ _ _ _ _ Hat_d).
  unfold bind at 1, get_graph. cbn [fst snd].
  symmetry.
  exact (@bind_for_each_app _ _ (out_edges sv (_graph (graph w)))
           (in_edges dv (_graph (graph w)))
           (fun e => assert_edge_new new (snd e))
           (fun _ => finish_edge sv dv new) w).
Qed.

(** What [connect] does, by cases: the new edge is held against the edges
    at the two ports, then against the order of the graph. *)
Lemma connect_cases w s d e src dst :
  nth_error (nodes w) s = Some src ->
  nth_error (nodes w) d = Some dst ->
  exists sv dv l,
    node_map_find (_node_map (registered s d (graph w))) s = Some sv
    /\ node_map_find (_node_map (registered s d (graph w))) d = Some dv
    /\ (((forall ex, In ex (rivals sv dv (registered s d (graph w))) ->
            no_conflict (populated src dst e) (snd ex) = true)
         /\ connect s d e w
            = match topological_sort
                      (length (vertices (_graph (registered s d (graph w)))))
                      (forward_edges
                         (_graph (with_edge (registered s d (graph w))
                                            sv dv (populated src dst e))))
              with
              | Some _ =>
                  (ok tt,
                   mk_world (installed s d (nodes w))
                            (with_edge (registered s d (graph w)) sv dv
                                       (populated src dst e)) l)
              | None =>
                  (throw (rfnoc_error unresolvable_what),
                   mk_world (installed s d (nodes w))
                            (registered s d (graph w))
                            (l ++ [log_unresolvable_edge
                                     (populated src dst e)]))
              end)
        \/ (exists ex msg,
              In ex (rivals sv dv (registered s d (graph w)))
              /\ no_conflict (populated src dst e) (snd ex) = false
              /\ connect s d e w
                 = (throw (rfnoc_error msg),
                    mk_world (installed s d (nodes w))
                             (registered s d (graph w)) l))).
Proof.
  intros Hs Hd.
  destruct (registered_finds s d (graph w)) as [sv [dv [Hsv Hdv]]].
  rewrite (connect_split s d e w Hs Hd).
  rewrite (@bind_ok _ _ _ _ _ _ _ (register_nodes_eval s d w Hs Hd)).
  fold (registered s d (graph w)).
  set (w3 := mk_world (installed s d (nodes w)) (registered s d (graph w))
                      (log w)).
  rewrite (@insert_edge_split s d (populated src dst e) w3 sv dv Hsv Hdv).
  destruct (checks_outcome (populated src dst e)
              (rivals sv dv (graph w3)) w3)
    as [w4 [L4 [[Hok Hall] | [ex [msg [Hin [Hc Hthrow]]]]]]];
    unfold logs_only, keeps in L4; injection L4 as Hn4 Hg4;
    exists sv, dv, (log w4);
    (split; [exact Hsv | split; [exact Hdv |]]).
  - left. split; [exact Hall |].
    rewrite (@bind_ok _ _ _ _ _ _ _ Hok), finish_edge_eval, Hn4, Hg4.
    reflexivity.
  - right. exists ex, msg. split; [exact Hin | split; [exact Hc |]].
    rewrite (@bind_throw _ _ _ _ _ _ _ Hthrow).
    destruct w4 as [ns4 g4 l4]. simpl in *. subst. reflexivity.
Qed.

Lemma add_node_g_vertices n g :
  exists added,
    vertices (_graph (add_node_g n g)) = vertices (_graph g) ++ added.
Proof.
  unfold add_node_g. destruct (node_map_find (_node_map g) n).
  - exists []. rewrite app_nil_r. reflexivity.
  - exists [n]. reflexivity.
Qed.

Lemma registered_edges s d g :
  edges (_graph (registered s d g)) = edges (_graph g).
Proof. unfold registered. rewrite !add_node_g_edges. reflexivity. Qed.

Lemma registered_vertices s d g :
  exists added,
    vertices (_graph (registered s d g)) = vertices (_graph g) ++ added.
Proof.
  unfold registered.
  destruct (add_node_g_vertices s g) as [a1 E1].
  destruct (add_node_g_vertices d (add_node_g s g)) as [a2 E2].
  exists (a1 ++ a2). rewrite E2, E1, app_assoc. reflexivity.
Qed.

Lemma registered_members s d g :
  _release_count (registered s d g) = _release_count g
  /\ _action_queue (registered s d g) = _action_queue g
  /\ _action_handling_ongoing (registered s d g) = _action_handling_ongoing g.
Proof.
  unfold registered.
  destruct (add_node_g_members s g) as [A1 [A2 A3]].
  destruct (add_node_g_members d (add_node_g s g)) as [B1 [B2 B3]].
  repeat split; congruence.
Qed.

Lemma rivals_registered sv dv s d g :
  rivals sv dv (registered s d g) = rivals sv dv g.
Proof.
  unfold rivals, out_edges, in_edges. rewrite registered_edges. reflexivity.
Qed.

Lemma forward_edges_with_edge g sv dv new :
  forward_edges (_graph (with_edge g sv dv new))
  = forward_edges (_graph g)
    ++ (if property_propagation_active new then [(sv, dv)] else []).
Proof.
  unfold forward_edges, with_edge. simpl. rewrite filter_app, map_app. simpl.
  unfold ForwardEdgePredicate at 2. simpl.
  destruct (property_propagation_active new); reflexivity.
Qed.

Lemma forward_edges_registered s d g :
  forward_edges (_graph (registered s d g)) = forward_edges (_graph g).
Proof. unfold forward_edges. rewrite registered_edges. reflexivity. Qed.

(** [connect] accepts an edge that conflicts with no edge at the two ports
    and closes no cycle of propagating edges: it returns normally with the
    edge, its block ids filled in, appended to the edges, both nodes in the
    graph and their callbacks installed.  An edge that does not propagate
    is not held against the cycles at all. *)
Theorem connect_accepts w s d e src dst sv dv :
  nth_error (nodes w) s = Some src ->
  nth_error (nodes w) d = Some dst ->
  node_map_find (_node_map (registered s d (graph w))) s = Some sv ->
  node_map_find (_node_map (registered s d (graph w))) d = Some dv ->
  (forall ex, In ex (rivals sv dv (graph w)) ->
     no_conflict (populated src dst e) (snd ex) = true) ->
  ~ cyclic (forward_edges (_graph (graph w))
            ++ (if property_propagation_active e then [(sv, dv)] else [])) ->
  exists l,
    connect s d e w
    = (ok tt,
       mk_world (installed s d (nodes w))
                (with_edge (registered s d (graph w)) sv dv
                           (populated src dst e)) l).
Proof.
  intros Hs Hd Hsv Hdv Hfit Hacyc.
  destruct (@connect_cases w s d e src dst Hs Hd)
    as [sv' [dv' [l [Hsv' [Hdv' [[_ Hrun] | [ex [msg [Hin [Hc _]]]]]]]]]];
    rewrite Hsv in Hsv'; rewrite Hdv in Hdv';
    inversion Hsv'; inversion Hdv'; subst sv' dv'.
  - exists l. rewrite Hrun.
    destruct (topological_sort _ _) eqn:Hsort; [reflexivity |].
    exfalso. apply Hacyc. apply topological_sort_none in Hsort.
    rewrite forward_edges_with_edge, forward_edges_registered in Hsort.
    exact Hsort.
  - rewrite rivals_registered in Hin. rewrite (Hfit ex Hin) in Hc.
    discriminate.
Qed.

Lemma connect_accepts_witness :
  fst (connect 2 0 (edge_request 0 0 false) chain_connected) = ok tt
  /\ edges (_graph (graph (run (connect 2 0 (edge_request 0 0 false))
                               chain_connected)))
     = edges (_graph (graph chain_connected))
       ++ [(2, 0, mk_edge "C" 0 "A" 0 false)].
Proof.
  destruct (@connect_accepts chain_connected 2 0 (edge_request 0 0 false)
              (mk_node "C" [mk_prop "rssi" (mk_src USER 0) (data_t "double" 0)
                                    false] cb_graph cb_graph)
              (mk_node "A" [mk_prop "rssi" (mk_src USER 0) (data_t "double" 0)
                                    false] cb_graph cb_graph)
              2 0)
    as [l Hrun].
  - vm_compute. reflexivity.
  - vm_compute. reflexivity.
  - vm_compute. reflexivity.
  - vm_compute. reflexivity.
  - vm_compute. intros ex [].
  - apply sorted_not_cyclic with (n := 3) (l := [0; 1; 2]).
    + vm_compute. intros u v [E | [E | []]]; inversion E; subst; lia.
    + vm_compute. reflexivity.
  - unfold run. rewrite Hrun. split; reflexivity.
Defined.

Lemma connect_no_node s d e w :
  nth_error (nodes w) s = None \/ nth_error (nodes w) d = None ->
  connect s d e w = (throw bad_node_ref, w).
Proof.
  intros H. unfold connect, bind, deref.
  destruct (nth_error (nodes w) s); [| reflexivity].
  destruct H as [H | H]; [discriminate |]. rewrite H. reflexivity.
Qed.

(** Whatever its outcome, [connect] either appends exactly one edge (when
    it returns normally) or leaves the edges as they were (when it
    throws); it never removes or renumbers a vertex, and it never touches
    the release counter, the action queue or the action handling flag. *)
Theorem connect_all_or_nothing s d e w :
  match fst (connect s d e w) with
  | ok _ =>
      exists sv dv info,
        edges (_graph (graph (run (connect s d e) w)))
        = edges (_graph (graph w)) ++ [(sv, dv, info)]
  | throw _ =>
      edges (_graph (graph (run (connect s d e) w)))
      = edges (_graph (graph w))
  | out_of_fuel => False
  end
  /\ (exists added,
        vertices (_graph (graph (run (connect s d e) w)))
        = vertices (_graph (graph w)) ++ added)
  /\ _release_count (graph (run (connect s d e) w))
     = _release_count (graph w)
  /\ _action_queue (graph (run (connect s d e) w))
     = _action_queue (graph w)
  /\ _action_handling_ongoing (graph (run (connect s d e) w))
     = _action_handling_ongoing (graph w).
Proof.
  unfold run.
  destruct (nth_error (nodes w) s) as [src |] eqn:Hs;
    [destruct (nth_error (nodes w) d) as [dst |] eqn:Hd |].
  - destruct (registered_members s d (graph w)) as [M1 [M2 M3]].
    destruct (registered_vertices s d (graph w)) as [added Hadd].
    pose proof (registered_edges s d (graph w)) as Hedges.
    destruct (@connect_cases w s d e src dst Hs Hd)
      as [sv [dv [l [_ [_ [[_ Hrun] | [ex [msg [_ [_ Hrun]]]]]]]]]];
      rewrite Hrun.
    + destruct (topological_sort _ _); cbn [fst snd graph].
      * split; [| split; [exists added; exact Hadd | auto]].
        exists sv, dv, (populated src dst e).
        unfold with_edge. simpl. rewrite Hedges. reflexivity.
      * split; [exact Hedges | split; [exists added; exact Hadd | auto]].
    + cbn [fst snd graph].
      split; [exact Hedges | split; [exists added; exact Hadd | auto]].
  - rewrite connect_no_node by (right; exact Hd). simpl.
    split; [reflexivity | split; [| auto]].
    exists []. rewrite app_nil_r. reflexivity.
  - rewrite connect_no_node by (left; exact Hs). simpl.
    split; [reflexivity | split; [| auto]].
    exists []. rewrite app_nil_r. reflexivity.
Qed.

(** ** The shape of the graphs that [connect] builds *)

Lemma node_map_find_app_none m m' n :
  node_map_find m n = None ->
  node_map_find (m ++ m') n = node_map_find m' n.
Proof.
  induction m as [| [k u] m IH]; simpl; [reflexivity |].
  destruct (Nat.eqb k n); [discriminate | exact IH].
Qed.

Lemma graph_inv_init : graph_inv graph_init.
Proof.
  unfold graph_inv, graph_init. simpl. split; [constructor |].
  split; [| split].
  - intros n v. split; [discriminate |]. destruct v; discriminate.
  - intros u v info [].
  - intros [v Hv]. apply path_first in Hv as [z []].
Qed.

Lemma graph_inv_add_node n g : graph_inv g -> graph_inv (add_node_g n g).
Proof.
  intros [Hnd [Hmap [Hrange Hacyc]]]. unfold add_node_g.
  destruct (node_map_find (_node_map g) n) as [v |] eqn:Hn.
  { split; [exact Hnd | split; [exact Hmap | split; assumption]]. }
  unfold graph_inv. simpl. split; [| split; [| split]].
  - apply NoDup_app; [exact Hnd | repeat constructor; intros [] |].
    intros x Hx [<- | []].
    apply In_nth_error in Hx as [v Hv]. apply Hmap in Hv. congruence.
  - intros m v. split.
    + intros H. destruct (node_map_find (_node_map g) m) as [v' |] eqn:Hm.
      * erewrite node_map_find_app in H by exact Hm. inversion H; subst v'.
        apply Hmap in Hm. rewrite nth_error_app1; [exact Hm |].
        apply nth_error_Some. congruence.
      * rewrite (@node_map_find_app_none _ _ _ Hm) in H. simpl in H.
        destruct (Nat.eqb_spec n m) as [-> | Hne]; [| discriminate].
        inversion H; subst v.
        rewrite nth_error_app2, Nat.sub_diag by lia. reflexivity.
    + intros H.
      destruct (Nat.lt_ge_cases v (length (vertices (_graph g))))
        as [Hlt | Hge].
      * rewrite nth_error_app1 in H by exact Hlt.
        apply node_map_find_app. apply Hmap. exact H.
      * rewrite nth_error_app2 in H by exact Hge.
        destruct (v - length (vertices (_graph g))) as [| k] eqn:Hk;
          [| destruct k; discriminate].
        simpl in H. inversion H; subst m.
        replace v with (length (vertices (_graph g))) by lia.
        apply node_map_find_app_new. exact Hn.
  - intros u v info Hin. destruct (Hrange u v info Hin).
    rewrite length_app. simpl. lia.
  - exact Hacyc.
Qed.

Lemma graph_inv_with_edge g s d sv dv new topo :
  graph_inv g ->
  node_map_find (_node_map g) s = Some sv ->
  node_map_find (_node_map g) d = Some dv ->
  topological_sort (length (vertices (_graph g)))
                   (forward_edges (_graph (with_edge g sv dv new)))
  = Some topo ->
  graph_inv (with_edge g sv dv new).
Proof.
  intros [Hnd [Hmap [Hrange Hacyc]]] Hs Hd Hsort.
  assert (Hsv : sv < length (vertices (_graph g))).
  { apply nth_error_Some. apply Hmap in Hs. congruence. }
  assert (Hdv : dv < length (vertices (_graph g))).
  { apply nth_error_Some. apply Hmap in Hd. congruence. }
  assert (Hrange' : forall u v info,
            In (u, v, info) (edges (_graph (with_edge g sv dv new))) ->
            u < length (vertices (_graph g))
            /\ v < length (vertices (_graph g))).
  { intros u v info Hin. unfold with_edge in Hin. simpl in Hin.
    apply in_app_or in Hin as [Hin | [E | []]].
    - eapply Hrange. exact Hin.
    - inversion E; subst. split; assumption. }
  unfold graph_inv. split; [exact Hnd | split; [exact Hmap | split]].
  - exact Hrange'.
  - eapply sorted_not_cyclic; [| exact Hsort].
    apply (@forward_edges_range (_graph (with_edge g sv dv new))).
    exact Hrange'.
Qed.

Lemma connect_graph_inv s d e w :
  graph_inv (graph w) -> graph_inv (graph (run (connect s d e) w)).
Proof.
  intros Hinv. unfold run.
  destruct (nth_error (nodes w) s) as [src |] eqn:Hs;
    [destruct (nth_error (nodes w) d) as [dst |] eqn:Hd |].
  - assert (Hreg : graph_inv (registered s d (graph w))).
    { unfold registered. apply graph_inv_add_node, graph_inv_add_node.
      exact Hinv. }
    destruct (@connect_cases w s d e src dst Hs Hd)
      as [sv [dv [l [Hsv [Hdv [[_ Hrun] | [ex [msg [_ [_ Hrun]]]]]]]]]];
      rewrite Hrun.
    + destruct (topological_sort _ _) as [topo |] eqn:Hsort;
        cbn [snd graph]; [| exact Hreg].
      eapply graph_inv_with_edge; eassumption.
    + exact Hreg.
  - rewrite connect_no_node by (right; exact Hd). exact Hinv.
  - rewrite connect_no_node by (left; exact Hs). exact Hinv.
Qed.

(** Every graph built by calls of [connect], starting from the empty
    graph and whatever the calls and their outcomes, has distinct nodes as
    vertices, a node map that gives each node its vertex, edges that run
    between vertices, and no cycle of propagating edges. *)
Theorem connect_builds_sound_graphs calls ns :
  graph_inv (graph (connect_all calls (world_init ns))).
Proof.
  unfold connect_all.
  assert (H : forall w, graph_inv (graph w) ->
            graph_inv
              (graph (fold_left
                        (fun w c => run (connect (fst (fst c)) (snd (fst c))
                                                 (snd c)) w) calls w))).
  { induction calls as [| c calls IH]; intros w Hw; [exact Hw |].
    simpl. apply IH. apply connect_graph_inv. exact Hw. }
  apply H. exact graph_inv_init.
Qed.

(** ** Actions on a graph that is not committed, and the handling flag *)

(** While the release counter is not zero, [enqueue_action] drops the
    action: every call logs the warning and returns; nothing is queued,
    nothing is delivered, no node is called and the flag is not touched,
    so the actions are not delivered after a later [commit] either. *)
Theorem enqueue_action_dropped na : forall calls w,
  _release_count (graph w) <> 0%N ->
  for_each calls
    (fun c : queued_action =>
       enqueue_action na (fst (fst c)) (snd (fst c)) (snd c)) w
  = (ok tt,
     with_log w (log w ++ map (fun c : queued_action =>
                                 log_not_committed (snd c)) calls)).
Proof.
  induction calls as [| [[n p] a] calls IH]; intros w Hrc.
  - simpl. rewrite app_nil_r. destruct w; reflexivity.
  - simpl. unfold bind at 1.
    rewrite enqueue_action_unfold, head_cases.
    destruct (N.eqb_spec (_release_count (graph w)) 0) as [E | _];
      [contradiction |].
    simpl. rewrite IH by exact Hrc. simpl.
    unfold with_log. simpl. rewrite <- app_assoc. reflexivity.
Qed.

Lemma enqueue_action_dropped_witness :
  for_each [(0, mk_src OUTPUT_EDGE 0, stream_cmd);
            (1, mk_src INPUT_EDGE 0, stream_cmd)]
    (fun c : queued_action =>
       enqueue_action (chain_accessor echo_handler)
                      (fst (fst c)) (snd (fst c)) (snd c)) chain_connected
  = (ok tt,
     with_log chain_connected
       (log chain_connected
        ++ [log_not_committed stream_cmd; log_not_committed stream_cmd])).
Proof.
  apply (@enqueue_action_dropped (chain_accessor echo_handler)
           [(0, mk_src OUTPUT_EDGE 0, stream_cmd);
            (1, mk_src INPUT_EDGE 0, stream_cmd)] chain_connected).
  vm_compute. discriminate.
Defined.

(** A top-level call of [enqueue_action] on a committed graph ends in one
    of two ways: it returns with the queue empty and the flag cleared, or
    an exception leaves it, whatever its kind and whoever threw it, and
    then the flag is left set. *)
Theorem enqueue_action_flag na n p a w :
  _release_count (graph w) = 0%N ->
  _action_handling_ongoing (graph w) = false ->
  match enqueue_action na n p a w with
  | (ok _, w1) =>
      _action_handling_ongoing (graph w1) = false
      /\ _action_queue (graph w1) = []
  | (throw _, w1) => _action_handling_ongoing (graph w1) = true
  | (out_of_fuel, _) => False
  end.
Proof.
  intros Hrc Hflag.
  rewrite enqueue_action_unfold, head_cases, Hrc, Hflag. simpl.
  match goal with
  | |- context [drain na 201 a 0 ?w0] => set (w0' := w0)
  end.
  pose proof (@drain_terminates na a 201 0%N w0') as Ht.
  pose proof (drain_flag_stays na a 201 0%N w0') as Hf.
  pose proof (@drain_ok_empty na a 201 0%N w0') as He.
  destruct (drain na 201 a 0 w0') as [[[] | ex |] w1]; cbn [fst snd] in *.
  - split; [reflexivity |]. simpl. apply (He w1). reflexivity.
  - apply Hf. reflexivity.
  - apply Ht; [lia | lia | reflexivity].
Qed.

Lemma enqueue_action_flag_witness :
  _action_handling_ongoing
    (graph (run (enqueue_action (chain_accessor drop_handler) 0
                   (mk_src OUTPUT_EDGE 0) stream_cmd) chain_committed))
  = false
  /\ _action_handling_ongoing
       (graph (run (enqueue_action (chain_accessor echo_handler) 0
                      (mk_src OUTPUT_EDGE 0) stream_cmd) chain_committed))
     = true.
Proof.
  split.
  - pose proof (@enqueue_action_flag (chain_accessor drop_handler) 0
                  (mk_src OUTPUT_EDGE 0) stream_cmd chain_committed
                  eq_refl eq_refl) as H.
    unfold run.
    destruct (enqueue_action (chain_accessor drop_handler) 0
                (mk_src OUTPUT_EDGE 0) stream_cmd chain_committed)
      as [[[] | ex |] w1] eqn:E.
    + apply H.
    + vm_compute in E. discriminate E.
    + destruct H.
  - pose proof (@enqueue_action_flag (chain_accessor echo_handler) 0
                  (mk_src OUTPUT_EDGE 0) stream_cmd chain_committed
                  eq_refl eq_refl) as H.
    unfold run.
    destruct (enqueue_action (chain_accessor echo_handler) 0
                (mk_src OUTPUT_EDGE 0) stream_cmd chain_committed)
      as [[[] | ex |] w1] eqn:E.
    + vm_compute in E. discriminate E.
    + apply H.
    + destruct H.
Defined.

(** ** The port an action is delivered on *)

Lemma find_neighbour_port v port w m e :
  fst (_find_neighbour v port w) = ok (Some (m, e)) ->
  (if source_eqb (type port) INPUT_EDGE then dst_port e else src_port e)
  = instance port.
Proof.
  unfold _find_neighbour, bind, get_graph, vertex_property, bind, get_graph.
  simpl. destruct (type port); simpl; try discriminate.
  - destruct (find _ (in_edges v _)) as [ed |] eqn:Hf; [| discriminate].
    apply find_some in Hf as [_ Hp]. apply Nat.eqb_eq in Hp.
    destruct (nth_error _ _); simpl; [| discriminate].
    intros H. inversion H; subst. exact Hp.
  - destruct (find _ (out_edges v _)) as [ed |] eqn:Hf; [| discriminate].
    apply find_some in Hf as [_ Hp]. apply Nat.eqb_eq in Hp.
    destruct (nth_error _ _); simpl; [| discriminate].
    intros H. inversion H; subst. exact Hp.
Qed.

(** The port that [send_action] is called with carries the index of the
    port the action was posted on, with the direction inverted: the index
    of the recipient's own end of the edge is not used.  The call is the
    real one: the node store after the iteration is the store which
    [send_action], called for the neighbour with this port, returned. *)
Theorem delivery_keeps_port_index na action n port a w v m e :
  node_map_find (_node_map (graph w)) n = Some v ->
  fst (_find_neighbour v port w) = ok (Some (m, e)) ->
  match send_action na m (mk_src (invert_edge (type port)) (instance port))
                    a (nodes w) with
  | inr (ns', posted) =>
      deliver_next na action (n, port, a) w
      = for_each posted (post_action m)
          (mk_world ns' (graph (popped a w))
             (log w ++ [pop_front a;
                        call_send_action m
                          (mk_src (invert_edge (type port)) (instance port))
                          a]))
      /\ nodes (snd (deliver_next na action (n, port, a) w)) = ns'
  | inl ex =>
      deliver_next na action (n, port, a) w
      = (throw ex,
         mk_world (nodes w) (graph (popped a w))
           (log w ++ [pop_front a;
                      call_send_action m
                        (mk_src (invert_edge (type port)) (instance port))
                        a]))
  end.
Proof.
  intros Hv Hn.
  pose proof (@deliver_next_outcome na action n port a w v m e Hv Hn) as H.
  unfold recipient_port_of in H.
  rewrite (find_neighbour_port v port w Hn) in H.
  exact H.
Qed.

(** Output 0 of A feeds input 1 of B.  An action that B posts on its input
    1 reaches A as an action on output 1, and the echo that A posts is
    queued for that port. *)
Lemma delivery_keeps_port_index_witness :
  match send_action (chain_accessor echo_handler) 0
                    (mk_src (invert_edge INPUT_EDGE) 1)
                    stream_cmd (nodes skew_live) with
  | inr (ns', posted) =>
      deliver_next (chain_accessor echo_handler) stream_cmd
                   (1, mk_src INPUT_EDGE 1, stream_cmd) skew_live
      = for_each posted (post_action 0)
          (mk_world ns' (graph (popped stream_cmd skew_live))
             (log skew_live
              ++ [pop_front stream_cmd;
                  call_send_action 0 (mk_src (invert_edge INPUT_EDGE) 1)
                                   stream_cmd]))
      /\ nodes (snd (deliver_next (chain_accessor echo_handler) stream_cmd
                       (1, mk_src INPUT_EDGE 1, stream_cmd) skew_live))
         = ns'
  | inl ex =>
      deliver_next (chain_accessor echo_handler) stream_cmd
                   (1, mk_src INPUT_EDGE 1, stream_cmd) skew_live
      = (throw ex,
         mk_world (nodes skew_live) (graph (popped stream_cmd skew_live))
           (log skew_live
            ++ [pop_front stream_cmd;
                call_send_action 0 (mk_src (invert_edge INPUT_EDGE) 1)
                                 stream_cmd]))
  end
  /\ _action_queue
       (graph (snd (deliver_next (chain_accessor echo_handler) stream_cmd
                      (1, mk_src INPUT_EDGE 1, stream_cmd) skew_live)))
     = [(0, mk_src OUTPUT_EDGE 1, stream_cmd)].
Proof.
  split.
  - apply (@delivery_keeps_port_index (chain_accessor echo_handler)
             stream_cmd 1 (mk_src INPUT_EDGE 1) stream_cmd skew_live 1 0
             (mk_edge "A" 0 "B" 1 true)).
    + vm_compute. reflexivity.
    + vm_compute. reflexivity.
  - vm_compute. reflexivity.
Defined.

(** ** The verdict of the topology check *)

Lemma check_topology_loop_record na : forall vs b w,
  vertices_valid w = true ->
  (forall u, In u vs -> u < length (vertices (_graph (graph w)))) ->
  check_topology_loop na vs b w
  = (ok (b && forallb (accepts na w) vs),
     with_log w (log w ++ flat_map (topology_record na w) vs)).
Proof.
  induction vs as [| v vs IH]; intros b w Hvalid Hrange.
  - simpl. rewrite andb_true_r, app_nil_r. destruct w; reflexivity.
  - assert (Hv : v < length (vertices (_graph (graph w))))
      by (apply Hrange; left; reflexivity).
    destruct (nth_error (vertices (_graph (graph w))) v) as [n |] eqn:Hn;
      [| apply nth_error_None in Hn; lia].
    destruct (@vertices_valid_spec w n Hvalid (nth_error_In _ _ Hn))
      as [nd Hnd].
    assert (Hnth : nth v (vertices (_graph (graph w))) 0 = n)
      by (apply nth_error_nth; exact Hn).
    assert (Hacc : accepts na w v
                   = check_topology na n
                       (connected_inputs_of v (_graph (graph w)))
                       (connected_outputs_of v (_graph (graph w)))
                       (nodes w)).
    { unfold accepts. rewrite Hnth. reflexivity. }
    assert (Hrec : topology_record na w v
                   = call_check_topology n
                       (connected_inputs_of v (_graph (graph w)))
                       (connected_outputs_of v (_graph (graph w)))
                     :: (if accepts na w v then []
                         else [log_bad_topology (get_unique_id nd)])).
    { unfold topology_record. rewrite Hnth, Hnd. reflexivity. }
    assert (Hnext : forall b' ev,
              check_topology_loop na vs b' (with_log w (log w ++ ev))
              = (ok (b' && forallb (accepts na w) vs),
                 with_log w (log w ++ ev
                             ++ flat_map (topology_record na w) vs))).
    { intros b' ev.
      rewrite (IH b' (with_log w (log w ++ ev))).
      - unfold with_log. simpl. rewrite <- app_assoc. reflexivity.
      - exact Hvalid.
      - intros u Hu. apply Hrange. right. exact Hu. }
    cbn [flat_map forallb]. rewrite Hrec, Hacc.
    simpl. unfold bind at 1, vertex_property, bind at 1, get_graph. simpl.
    rewrite Hn. simpl.
    unfold bind at 1. simpl. unfold bind at 1. simpl. unfold bind at 1. simpl.
    destruct (check_topology na n _ _ (nodes w)); simpl.
    + pose proof (Hnext b [call_check_topology n
                             (connected_inputs_of v (_graph (graph w)))
                             (connected_outputs_of v (_graph (graph w)))])
        as Hl.
      unfold with_log in Hl. simpl in Hl. rewrite Hl. reflexivity.
    + unfold bind at 1, deref. simpl. rewrite Hnd.
      unfold bind at 1. simpl.
      pose proof (Hnext false
                    [call_check_topology n
                       (connected_inputs_of v (_graph (graph w)))
                       (connected_outputs_of v (_graph (graph w)));
                     log_bad_topology (get_unique_id nd)])
        as Hl.
      unfold with_log in Hl. simpl in Hl.
      rewrite <- app_assoc. simpl. rewrite Hl, andb_false_r. reflexivity.
Qed.

(** [_check_topology] calls [check_topology] for every node of the graph,
    in the order of the vertices and with the ports connected at the
    vertex, also after a node has refused, and writes an error line for
    each node that refuses; it returns normally when every node accepts
    and throws the runtime error of the topology check otherwise.  The
    members of the graph stay as they are. *)
Theorem check_topology_verdict na w :
  vertices_valid w = true ->
  _check_topology na w
  = (if forallb (accepts na w)
                (seq 0 (length (vertices (_graph (graph w)))))
     then ok tt else throw (runtime_error topology_what),
     with_log w
       (log w ++ flat_map (topology_record na w)
                          (seq 0 (length (vertices (_graph (graph w))))))).
Proof.
  intros Hvalid.
  assert (Hl := @check_topology_loop_record na
                  (seq 0 (length (vertices (_graph (graph w))))) true w
                  Hvalid).
  unfold _check_topology, bind at 1, get_graph. cbn [fst snd].
  rewrite (@bind_ok _ _ _ _ _ _ _ (Hl ltac:(intros u Hu; apply in_seq in Hu; lia))).
  simpl. destruct (forallb _ _); reflexivity.
Qed.

(** In the chain, with nodes that each want one input and one output, A
    and C refuse; B and C are asked all the same. *)
Lemma check_topology_verdict_witness :
  _check_topology (mock_accessor (fun _ => (1, 1)) drop_handler)
                  chain_connected
  = (throw (runtime_error topology_what),
     with_log chain_connected
       (log chain_connected
        ++ [call_check_topology 0 [] [0]; log_bad_topology "A";
            call_check_topology 1 [0] [0];
            call_check_topology 2 [0] []; log_bad_topology "C"])).
Proof.
  etransitivity.
  - apply (@check_topology_verdict
             (mock_accessor (fun _ => (1, 1)) drop_handler) chain_connected).
    vm_compute. reflexivity.
  - vm_compute. reflexivity.
Defined.

(** ** What never changes the topology *)

#[export] Instance keeps_topology_logging : Logging (keeps topology).
Proof. intros w e. reflexivity. Qed.

#[export] Instance keeps_topology_writing : NodeWriting (keeps topology).
Proof. intros w ns. reflexivity. Qed.

Lemma head_keeps_topology n port a :
  respects (keeps topology) (enqueue_action_head n port a).
Proof. unfold enqueue_action_head. frame. Qed.

Lemma post_keeps_topology n posted :
  respects (keeps topology) (post_action n posted).
Proof.
  pose proof head_keeps_topology as Hh. unfold post_action. frame.
Qed.

Lemma deliver_keeps_topology na action item :
  respects (keeps topology) (deliver_next na action item).
Proof.
  pose proof post_keeps_topology as Hp.
  unfold deliver_next. destruct item as [[n port] a]. frame.
Qed.

Lemma drain_keeps_topology na action fuel : forall c,
  respects (keeps topology) (drain na fuel action c).
Proof.
  pose proof (deliver_keeps_topology na action) as Hd.
  induction fuel as [| fuel IH]; intros c.
  - intros w; reflexivity.
  - rewrite drain_S. frame; apply IH.
Qed.

Lemma enqueue_action_keeps_topology na n p a :
  respects (keeps topology) (enqueue_action na n p a).
Proof.
  pose proof head_keeps_topology as Hh.
  pose proof (drain_keeps_topology na a) as Hd.
  unfold enqueue_action. frame.
Qed.

Lemma commit_keeps_topology na : respects (keeps topology) (commit na).
Proof. unfold commit. frame. Qed.

(** Neither property propagation nor the commit gate nor action delivery
    changes the vertices, the edges or the node map, whatever the nodes
    do and whether or not the call throws: only [connect] does. *)
Theorem topology_is_stable na w :
  topology (snd (resolve_all_properties na w)) = topology w
  /\ topology (snd (commit na w)) = topology w
  /\ topology (snd (release w)) = topology w
  /\ forall n p a, topology (snd (enqueue_action na n p a w)) = topology w.
Proof.
  split; [| split; [| split]].
  - apply (resolve_all_properties_respects (R := keeps topology) na w).
  - apply (commit_keeps_topology na w).
  - reflexivity.
  - intros n p a. apply (enqueue_action_keeps_topology na n p a w).
Qed.

(** ** A property without counterpart on a back-edge *)

Lemma props_match_loop_unpaired dst info : forall src b w,
  maps_paired src dst = false ->
  exists w',
    props_match_loop src dst info b w = (throw out_of_range, w')
    /\ logs_only w w'.
Proof.
  induction src as [| [k p] src IH]; intros b w Hp; [discriminate |].
  simpl in Hp. simpl.
  destruct (prop_map_find dst (get_id p)) as [q |].
  - simpl in Hp. destruct (equal p q); simpl.
    + apply IH. exact Hp.
    + destruct (IH false (mk_world (nodes w) (graph w)
                            (log w ++ [log_inconsistent (get_id p) info])) Hp)
        as [w' [Hrun Hlog]].
      exists w'. split.
      * unfold bind, UHD_LOG. rewrite Hrun. reflexivity.
      * unfold logs_only, keeps in *. simpl in Hlog. exact Hlog.
  - exists w. split; reflexivity.
Qed.

(** When a property on the output side of an edge has no property with the
    same id on the input side, [_assert_edge_props_consistent] does not
    return a verdict: the lookup throws [std::out_of_range], whatever the
    other properties of the edge are. *)
Theorem unpaired_property_out_of_range w e sm dm :
  prop_maps_of w e = Some (sm, dm) ->
  maps_paired sm dm = false ->
  exists w',
    _assert_edge_props_consistent e w = (throw out_of_range, w')
    /\ nodes w' = nodes w /\ graph w' = graph w.
Proof.
  unfold prop_maps_of. intros Hmaps Hp.
  destruct (nth_error (vertices (_graph (graph w))) (fst (fst e)))
    as [sn |] eqn:Hsn; [| discriminate].
  destruct (nth_error (vertices (_graph (graph w))) (snd (fst e)))
    as [dn |] eqn:Hdn; [| discriminate].
  destruct (nth_error (nodes w) sn) as [s |] eqn:Hs; [| discriminate].
  destruct (nth_error (nodes w) dn) as [d |] eqn:Hd; [| discriminate].
  inversion Hmaps; subst. clear Hmaps.
  destruct (props_match_loop_unpaired
              (get_prop_map (dst_port (snd e)) INPUT_EDGE d) (snd e)
              (get_prop_map (src_port (snd e)) OUTPUT_EDGE s) true w Hp)
    as [w' [Hrun Hlog]].
  exists w'. unfold logs_only, keeps in Hlog. injection Hlog as Hn Hg.
  split; [| split; assumption].
  unfold _assert_edge_props_consistent, bind, vertex_property, bind,
    get_graph, deref.
  simpl. rewrite Hsn. simpl. rewrite Hdn. simpl. rewrite Hs, Hd.
  exact Hrun.
Qed.

Lemma unpaired_property_out_of_range_witness :
  exists w',
    _assert_edge_props_consistent (0, 1, mk_edge "RADIO_A" 0 "TERM" 0 false)
                                  radio_to_terminator
    = (throw out_of_range, w')
    /\ nodes w' = nodes radio_to_terminator
    /\ graph w' = graph radio_to_terminator.
Proof.
  eapply (@unpaired_property_out_of_range radio_to_terminator
            (0, 1, mk_edge "RADIO_A" 0 "TERM" 0 false)).
  - vm_compute. reflexivity.
  - vm_compute. reflexivity.
Defined.

(** ** Neighbours *)

Lemma find_neighbour_output u p w :
  _find_neighbour u (mk_src OUTPUT_EDGE p) w
  = match find (fun e => Nat.eqb (src_port (snd e)) p)
               (out_edges u (_graph (graph w))) with
    | Some e =>
        match nth_error (vertices (_graph (graph w))) (snd (fst e)) with
        | Some n => (ok (Some (n, snd e)), w)
        | None => (throw bad_node_ref, w)
        end
    | None => (ok None, w)
    end.
Proof.
  unfold _find_neighbour, bind, get_graph, vertex_property, bind, get_graph.
  simpl. destruct (find _ _) as [e |]; [| reflexivity].
  destruct (nth_error _ _); reflexivity.
Qed.

Lemma find_neighbour_input v p w :
  _find_neighbour v (mk_src INPUT_EDGE p) w
  = match find (fun e => Nat.eqb (dst_port (snd e)) p)
               (in_edges v (_graph (graph w))) with
    | Some e =>
        match nth_error (vertices (_graph (graph w))) (fst (fst e)) with
        | Some n => (ok (Some (n, snd e)), w)
        | None => (throw bad_node_ref, w)
        end
    | None => (ok None, w)
    end.
Proof.
  unfold _find_neighbour, bind, get_graph, vertex_property, bind, get_graph.
  simpl. destruct (find _ _) as [e |]; [| reflexivity].
  destruct (nth_error _ _); reflexivity.
Qed.

Lemma find_first (A : Type) (f : A -> bool) (l : list A) x :
  In x l -> f x = true -> (forall y, In y l -> f y = true -> y = x) ->
  find f l = Some x.
Proof.
  intros Hin Hf Huniq.
  destruct (find f l) as [y |] eqn:E.
  - apply find_some in E as [Hy Hfy]. f_equal. apply Huniq; assumption.
  - rewrite (find_none _ _ E x Hin) in Hf. discriminate.
Qed.

(** In a graph with distinct vertices and at most one edge per port, being
    neighbours is mutual: when the node behind output port [p] of [u] is
    [m], reached over edge [e], then the node behind the input port of [m]
    that [e] enters is the node of [u], over the same edge; and the other
    way round. *)
Theorem find_neighbour_symmetric w u v n m :
  NoDup (vertices (_graph (graph w))) ->
  port_exclusive (graph w) ->
  nth_error (vertices (_graph (graph w))) u = Some n ->
  nth_error (vertices (_graph (graph w))) v = Some m ->
  forall e,
    (forall p,
       fst (_find_neighbour u (mk_src OUTPUT_EDGE p) w) = ok (Some (m, e)) ->
       fst (_find_neighbour v (mk_src INPUT_EDGE (dst_port e)) w)
       = ok (Some (n, e)))
    /\ (forall p,
          fst (_find_neighbour v (mk_src INPUT_EDGE p) w) = ok (Some (n, e)) ->
          fst (_find_neighbour u (mk_src OUTPUT_EDGE (src_port e)) w)
          = ok (Some (m, e))).
Proof.
  intros Hnd Hex Hu Hv e. split; intros p H.
  - rewrite find_neighbour_output in H.
    destruct (find _ (out_edges u _)) as [[[u' v'] info] |] eqn:Hf;
      [| discriminate].
    apply find_some in Hf as [Hin _].
    apply filter_In in Hin as [Hin Hu']. simpl in Hu'.
    apply Nat.eqb_eq in Hu'. subst u'. simpl in H.
    destruct (nth_error (vertices (_graph (graph w))) v') as [m' |] eqn:Hv';
      [| discriminate].
    simpl in H. inversion H; subst m' info. clear H.
    assert (v' = v).
    { apply (proj1 (NoDup_nth_error _) Hnd).
      - apply nth_error_Some. congruence.
      - congruence. }
    subst v'.
    rewrite find_neighbour_input.
    rewrite (@find_first _ _ _ (u, v, e)).
    + simpl. rewrite Hu. reflexivity.
    + apply filter_In. split; [exact Hin | apply Nat.eqb_refl].
    + apply Nat.eqb_refl.
    + intros y Hy Hp. apply filter_In in Hy as [Hy Hyv].
      apply Nat.eqb_eq in Hyv, Hp.
      apply (proj2 (Hex y (u, v, e) Hy Hin)); assumption.
  - rewrite find_neighbour_input in H.
    destruct (find _ (in_edges v _)) as [[[u' v'] info] |] eqn:Hf;
      [| discriminate].
    apply find_some in Hf as [Hin _].
    apply filter_In in Hin as [Hin Hv']. simpl in Hv'.
    apply Nat.eqb_eq in Hv'. subst v'. simpl in H.
    destruct (nth_error (vertices (_graph (graph w))) u') as [n' |] eqn:Hu';
      [| discriminate].
    simpl in H. inversion H; subst n' info. clear H.
    assert (u' = u).
    { apply (proj1 (NoDup_nth_error _) Hnd).
      - apply nth_error_Some. congruence.
      - congruence. }
    subst u'.
    rewrite find_neighbour_output.
    rewrite (@find_first _ _ _ (u, v, e)).
    + simpl. rewrite Hv. reflexivity.
    + apply filter_In. split; [exact Hin | apply Nat.eqb_refl].
    + apply Nat.eqb_refl.
    + intros y Hy Hp. apply filter_In in Hy as [Hy Hyu].
      apply Nat.eqb_eq in Hyu, Hp.
      apply (proj1 (Hex y (u, v, e) Hy Hin)); assumption.
Qed.

Lemma find_neighbour_symmetric_witness :
  fst (_find_neighbour 1 (mk_src INPUT_EDGE 1) skew_pair)
  = ok (Some (0, mk_edge "A" 0 "B" 1 true)).
Proof.
  refine (proj1 (@find_neighbour_symmetric skew_pair 0 1 0 1 _ _ eq_refl
                   eq_refl (mk_edge "A" 0 "B" 1 true)) 0 _).
  - vm_compute. repeat constructor; simpl; intuition discriminate.
  - intros x y Hx Hy. vm_compute in Hx, Hy.
    destruct Hx as [<- | []]. destruct Hy as [<- | []].
    split; reflexivity.
  - vm_compute. reflexivity.
Defined.

(** ** Forwarding of edge properties *)

Lemma combine_seq_nth A (l : list A) : forall a i p,
  In (i, p) (combine (seq a (length l)) l) ->
  a <= i /\ nth_error l (i - a) = Some p.
Proof.
  induction l as [| x l IH]; intros a i p Hin; [destruct Hin |].
  simpl in Hin. destruct Hin as [E | Hin].
  - inversion E; subst. rewrite Nat.sub_diag. split; [lia | reflexivity].
  - destruct (IH (S a) i p Hin) as [Hle Hn]. split; [lia |].
    replace (i - a) with (S (i - S a)) by lia. exact Hn.
Qed.

Lemma filter_props_slot nd predicate i p :
  In (i, p) (filter_props nd predicate) ->
  nth_error (_props nd) i = Some p /\ predicate p = true.
Proof.
  unfold filter_props. rewrite filter_In. intros [Hin Hp].
  split; [| exact Hp].
  apply combine_seq_nth in Hin as [_ Hn]. rewrite Nat.sub_0_r in Hn.
  exact Hn.
Qed.

Lemma find_neighbour_graph origin port w w' :
  graph w' = graph w ->
  _find_neighbour origin port w'
  = (fst (_find_neighbour origin port w), w').
Proof.
  intros Hg.
  rewrite (reads_result w' (reads_find_neighbour origin port)).
  rewrite (find_neighbour_ext origin port w' w) by (rewrite Hg; reflexivity).
  reflexivity.
Qed.

(** [_forward_edge_props] forwards nothing but edge properties of the node
    it is called for, each to the node at the other end of the edge on the
    property's port and for the port number at that end, and only over
    edges whose [property_propagation_active] flag is set; it never
    forwards over a back-edge. *)
Theorem forward_stays_on_propagating_edges na origin w :
  exists l,
    log (snd (_forward_edge_props na origin w)) = log w ++ l
    /\ Forall (lawful_forward w origin) l.
Proof.
  unfold _forward_edge_props.
  unfold bind at 1, vertex_property, bind at 1, get_graph. simpl.
  destruct (nth_error (vertices (_graph (graph w))) origin) as [o |] eqn:Ho;
    simpl; [| exists []; rewrite app_nil_r; split; [reflexivity | constructor]].
  unfold bind at 1, deref. simpl.
  destruct (nth_error (nodes w) o) as [nd |] eqn:Hnd; simpl;
    [| exists []; rewrite app_nil_r; split; [reflexivity | constructor]].
  set (pred := fun prop : property_base_t =>
                 source_eqb (type (get_src_info prop)) INPUT_EDGE
                 || source_eqb (type (get_src_info prop)) OUTPUT_EDGE).
  set (body := fun ip : nat * property_base_t =>
                 (neighbour_node_info <-
                    _find_neighbour origin (get_src_info (snd ip)) ;;
                  match neighbour_node_info with
                  | Some (neighbour, e) =>
                      if property_propagation_active e then
                        UHD_LOG (call_forward_edge_property neighbour
                                   (if source_eqb
                                         (type (get_src_info (snd ip)))
                                         INPUT_EDGE
                                    then src_port e else dst_port e)
                                   (o, fst ip)) ;;
                        on_nodes_ (forward_edge_property na neighbour
                                     (if source_eqb
                                           (type (get_src_info (snd ip)))
                                           INPUT_EDGE
                                      then src_port e else dst_port e)
                                     (o, fst ip))
                      else ret tt
                  | None => ret tt
                  end)%m).
  assert (Hloop : forall items w0,
            graph w0 = graph w ->
            (forall ip, In ip items -> In ip (filter_props nd pred)) ->
            exists l,
              log (snd (for_each items body w0)) = log w0 ++ l
              /\ Forall (lawful_forward w origin) l).
  { induction items as [| [i p] items IH]; intros w0 Hg Hitems.
    - exists []. simpl. rewrite app_nil_r. split; [reflexivity | constructor].
    - assert (Hrest : forall w1, graph w1 = graph w ->
                forall l1, log w1 = log w0 ++ l1 ->
                Forall (lawful_forward w origin) l1 ->
                exists l,
                  log (snd (for_each items body w1)) = log w0 ++ l
                  /\ Forall (lawful_forward w origin) l).
      { intros w1 Hg1 l1 Hl1 F1.
        destruct (IH w1 Hg1 (fun ip Hip => Hitems ip (or_intror Hip)))
          as [l2 [Hl2 F2]].
        exists (l1 ++ l2). rewrite Hl2, Hl1, app_assoc.
        split; [reflexivity | apply Forall_app; split; assumption]. }
      destruct (filter_props_slot nd pred i p (Hitems _ (or_introl eq_refl)))
        as [Hslot Hpred].
      cbn [for_each]. unfold bind at 1. unfold body at 1. cbn [fst snd].
      unfold bind at 1.
      rewrite (@find_neighbour_graph origin (get_src_info p) w w0 Hg).
      destruct (fst (_find_neighbour origin (get_src_info p) w))
        as [[[m e] |] | ex |] eqn:Hfind; cbn [fst snd].
      + destruct (property_propagation_active e) eqn:Hppa.
        * unfold bind at 1. cbn [UHD_LOG fst snd].
          set (ev := call_forward_edge_property m _ (o, i)).
          assert (Hev : lawful_forward w origin ev).
          { unfold ev. simpl. exists nd, p.
            unfold _find_neighbour, bind, get_graph, vertex_property, bind,
              get_graph in Hfind. simpl in Hfind.
            unfold pred in Hpred.
            destruct (type (get_src_info p)) eqn:Ht; simpl in Hpred;
              try discriminate; simpl in Hfind.
            - destruct (find _ (in_edges origin _)) as [[[u v] info] |] eqn:Hf;
                [| discriminate].
              apply find_some in Hf as [Hin Hp]. simpl in Hp.
              apply Nat.eqb_eq in Hp.
              apply filter_In in Hin as [Hin Hv]. simpl in Hv.
              apply Nat.eqb_eq in Hv. subst v. simpl in Hfind.
              destruct (nth_error (vertices (_graph (graph w))) u)
                as [n' |] eqn:Hu; [| discriminate].
              simpl in Hfind. inversion Hfind; subst n' info.
              exists u, origin, e.
              repeat split; try assumption. right.
              repeat split; try assumption; reflexivity.
            - destruct (find _ (out_edges origin _)) as [[[u v] info] |] eqn:Hf;
                [| discriminate].
              apply find_some in Hf as [Hin Hp]. simpl in Hp.
              apply Nat.eqb_eq in Hp.
              apply filter_In in Hin as [Hin Hu]. simpl in Hu.
              apply Nat.eqb_eq in Hu. subst u. simpl in Hfind.
              destruct (nth_error (vertices (_graph (graph w))) v)
                as [n' |] eqn:Hv; [| discriminate].
              simpl in Hfind. inversion Hfind; subst n' info.
              exists origin, v, e.
              repeat split; try assumption. left.
              repeat split; try assumption; reflexivity. }
          unfold on_nodes_, on_nodes. cbn [nodes graph log].
          destruct (forward_edge_property na m _ (o, i) (nodes w0))
            as [ex | ns'].
          -- cbn [fst snd]. exists [ev]. split; [reflexivity |].
             repeat constructor. exact Hev.
          -- cbn [fst snd].
             apply (Hrest (mk_world ns' (graph w0) (log w0 ++ [ev])) Hg [ev]);
               [reflexivity | repeat constructor; exact Hev].
        * cbn [ret fst snd].
          apply (Hrest w0 Hg []); [rewrite app_nil_r; reflexivity |
                                   constructor].
      + cbn [ret fst snd].
        apply (Hrest w0 Hg []); [rewrite app_nil_r; reflexivity | constructor].
      + exists []. rewrite app_nil_r. split; [reflexivity | constructor].
      + exists []. rewrite app_nil_r. split; [reflexivity | constructor]. }
  apply (Hloop (filter_props nd pred) w eq_refl). intros ip Hip. exact Hip.
Qed.

(** ** An output port that is already connected *)

Lemma assert_edge_new_source_taken new info w :
  src_blockid info = src_blockid new ->
  src_port info = src_port new ->
  edge_eqb info new = false ->
  assert_edge_new new info w
  = (throw (rfnoc_error
              (if String.eqb (dst_blockid info) (dst_blockid new)
                  && Nat.eqb (dst_port info) (dst_port new)
               then modify_what else reconnect_output_what)),
     with_log w (log w ++ [if String.eqb (dst_blockid info) (dst_blockid new)
                              && Nat.eqb (dst_port info) (dst_port new)
                           then log_modify_edge info
                           else log_reconnect_output info])).
Proof.
  intros Hb Hp Hne. unfold assert_edge_new. rewrite Hne, Hb, Hp.
  rewrite !Nat.eqb_refl, !String.eqb_refl. simpl.
  destruct (String.eqb_spec (dst_blockid info) (dst_blockid new)) as [E | E];
    destruct (Nat.eqb_spec (dst_port info) (dst_port new)) as [F | F];
    simpl; reflexivity.
Qed.

Lemma checks_throw_at new info msg :
  (forall w, exists w',
     assert_edge_new new info w = (throw (rfnoc_error msg), w')
     /\ logs_only w w') ->
  forall (l : list (nat * nat * graph_edge_t)) w,
    (exists ex, In ex l /\ snd ex = info) ->
    (forall ex, In ex l ->
       snd ex = info \/ no_conflict new (snd ex) = true) ->
    exists w',
      for_each l (fun e : nat * nat * graph_edge_t =>
                    assert_edge_new new (snd e)) w
      = (throw (rfnoc_error msg), w')
      /\ logs_only w w'.
Proof.
  intros Hthrow. induction l as [| x l IH]; intros w [ex [Hin Hex]] Hall.
  - destruct Hin.
  - simpl. destruct (Hall x (or_introl eq_refl)) as [Hx | Hx].
    + destruct (Hthrow w) as [w' [Hrun Hlog]].
      exists w'. split; [| exact Hlog].
      rewrite Hx. rewrite (@bind_throw _ _ _ _ _ _ _ Hrun). reflexivity.
    + destruct (assert_edge_new_no_conflict new (snd x) w Hx)
        as [w1 [H1 L1]].
      rewrite (@bind_ok _ _ _ _ _ _ _ H1).
      destruct Hin as [-> | Hin].
      * destruct (Hthrow w) as [w' [Hrun _]].
        rewrite Hex in H1. rewrite H1 in Hrun. discriminate.
      * destruct (IH w1) as [w' [Hrun Hlog]].
        -- exists ex. split; assumption.
        -- intros y Hy. apply Hall. right. exact Hy.
        -- exists w'. split; [exact Hrun | etransitivity; eassumption].
Qed.

(** When the requested output port is already the source of an edge that
    is not the requested edge itself, [connect] throws: the error for
    modifying an edge when that edge has the requested destination (so it
    differs in [property_propagation_active] only), and the error for
    reconnecting an output port otherwise.  The edges are as before. *)
Theorem connect_source_port_taken w s d e src dst sv v info :
  nth_error (nodes w) s = Some src ->
  nth_error (nodes w) d = Some dst ->
  node_map_find (_node_map (graph w)) s = Some sv ->
  In (sv, v, info) (edges (_graph (graph w))) ->
  src_blockid info = get_unique_id src ->
  src_port info = src_port e ->
  edge_eqb info (populated src dst e) = false ->
  (forall ex, In ex (out_edges sv (_graph (graph w))) ->
     snd ex = info \/ no_conflict (populated src dst e) (snd ex) = true) ->
  fst (connect s d e w)
  = throw (rfnoc_error
             (if String.eqb (dst_blockid info) (get_unique_id dst)
                 && Nat.eqb (dst_port info) (dst_port e)
              then modify_what else reconnect_output_what))
  /\ edges (_graph (graph (run (connect s d e) w)))
     = edges (_graph (graph w)).
Proof.
  intros Hs Hd Hsv Hin Hb Hp Hne Hall.
  destruct (registered_finds s d (graph w)) as [sv' [dv [Hsv' Hdv]]].
  assert (sv' = sv).
  { unfold registered in Hsv'.
    rewrite (add_node_g_keeps d _ s
               (add_node_g_keeps s (graph w) s Hsv)) in Hsv'.
    congruence. }
  subst sv'.
  unfold run.
  rewrite (connect_split s d e w Hs Hd).
  rewrite (@bind_ok _ _ _ _ _ _ _ (register_nodes_eval s d w Hs Hd)).
  fold (registered s d (graph w)).
  set (w3 := mk_world (installed s d (nodes w)) (registered s d (graph w))
                      (log w)).
  rewrite (@insert_edge_split s d (populated src dst e) w3 sv dv Hsv' Hdv).
  unfold rivals. rewrite bind_for_each_app.
  assert (Hout : out_edges sv (_graph (graph w3))
                 = out_edges sv (_graph (graph w))).
  { unfold out_edges, w3. simpl. rewrite registered_edges. reflexivity. }
  rewrite Hout.
  destruct (@checks_throw_at (populated src dst e) info
              (if String.eqb (dst_blockid info) (get_unique_id dst)
                  && Nat.eqb (dst_port info) (dst_port e)
               then modify_what else reconnect_output_what))
    with (l := out_edges sv (_graph (graph w))) (w := w3)
    as [w' [Hrun Hlog]].
  - intros w0. eexists. split.
    + apply (assert_edge_new_source_taken (populated src dst e) info w0);
        assumption.
    + reflexivity.
  - exists (sv, v, info). split; [| reflexivity].
    apply filter_In. split; [exact Hin | apply Nat.eqb_refl].
  - exact Hall.
  - rewrite (@bind_throw _ _ _ _ _ _ _ Hrun). simpl.
    split; [reflexivity |].
    unfold logs_only, keeps in Hlog. injection Hlog as _ Hg.
    rewrite Hg. unfold w3. simpl. apply registered_edges.
Qed.

Lemma connect_source_port_taken_witness :
  fst (connect 0 1 (edge_request 0 0 false) chain_connected)
  = throw (rfnoc_error modify_what)
  /\ fst (connect 0 2 (edge_request 0 0 true) chain_connected)
     = throw (rfnoc_error reconnect_output_what).
Proof.
  split.
  - refine (proj1 (@connect_source_port_taken chain_connected 0 1
                     (edge_request 0 0 false)
                     (mk_node "A" [mk_prop "rssi" (mk_src USER 0)
                                           (data_t "double" 0) false]
                              cb_graph cb_graph)
                     (mk_node "B" [mk_prop "rssi" (mk_src USER 0)
                                           (data_t "double" 0) false]
                              cb_graph cb_graph)
                     0 1 (mk_edge "A" 0 "B" 0 true)
                     eq_refl eq_refl eq_refl _ eq_refl eq_refl eq_refl _)).
    + vm_compute. auto.
    + intros ex Hex. vm_compute in Hex. destruct Hex as [<- | []].
      left. reflexivity.
  - refine (proj1 (@connect_source_port_taken chain_connected 0 2
                     (edge_request 0 0 true)
                     (mk_node "A" [mk_prop "rssi" (mk_src USER 0)
                                           (data_t "double" 0) false]
                              cb_graph cb_graph)
                     (mk_node "C" [mk_prop "rssi" (mk_src USER 0)
                                           (data_t "double" 0) false]
                              cb_graph cb_graph)
                     0 1 (mk_edge "A" 0 "B" 0 true)
                     eq_refl eq_refl eq_refl _ eq_refl eq_refl eq_refl _)).
    + vm_compute. auto.
    + intros ex Hex. vm_compute in Hex. destruct Hex as [<- | []].
      left. reflexivity.
Defined.

(** ** The route of the walk *)

Lemma mirror_rev m : forall len a,
  a + len <= S m ->
  map (fun p => m - p) (seq a len) = rev (seq (S m - a - len) len).
Proof.
  induction len as [| len IH]; intros a Ha; [reflexivity |].
  rewrite (seq_S len (S m - a - S len)), rev_app_distr.
  cbn [seq map rev app]. rewrite IH by lia.
  replace (S m - a - S len + len) with (m - a) by lia.
  replace (S m - S a - len) with (S m - a - S len) by lia.
  reflexivity.
Qed.

Lemma pass_trace_route size s :
  1 <= size -> s < size -> pass_trace size s = route size s.
Proof.
  intros Hk Hs.
  destruct (Nat.eq_dec size 1) as [-> | Hne]; [reflexivity |].
  rewrite pass_trace_unfold by lia.
  unfold route. destruct size as [| [| k]]; [lia | lia |].
  set (size := S (S k)) in *.
  assert (HM : period size = size + (size - 2)) by (unfold period; lia).
  replace (period size - s) with ((size - s) + (size - 2)) by lia.
  rewrite seq_app, !map_app.
  replace (s + (size - s)) with size by lia.
  rewrite (map_ext_in (phase_pos size) (fun p => p)).
  2:{ intros p Hp. apply in_seq in Hp. unfold phase_pos.
      destruct (Nat.leb_spec p (size - 1)); [reflexivity | lia]. }
  rewrite map_id.
  rewrite (map_ext_in (phase_pos size) (fun p => period size - p)
                      (seq size (size - 2))).
  2:{ intros p Hp. apply in_seq in Hp. unfold phase_pos.
      destruct (Nat.leb_spec p (size - 1)); [lia | reflexivity]. }
  rewrite mirror_rev by lia.
  replace (S (period size) - size - (size - 2)) with 1 by lia.
  rewrite (map_ext_in (phase_pos size) (fun p => p) (seq 0 s)).
  2:{ intros p Hp. apply in_seq in Hp. unfold phase_pos.
      destruct (Nat.leb_spec p (size - 1)); [reflexivity | lia]. }
  rewrite map_id, <- app_assoc. reflexivity.
Qed.



(** ** The queue discipline of the drain *)

Lemma post_action_all m nd : forall posted w,
  _release_count (graph w) = 0%N ->
  nth_error (nodes w) m = Some nd ->
  _post_action_cb nd = cb_graph ->
  exists w',
    for_each posted (post_action m) w = (ok tt, w')
    /\ nodes w' = nodes w
    /\ log w' = log w
    /\ _action_queue (graph w')
       = _action_queue (graph w)
         ++ map (fun pa : res_source_info * action_info =>
                   (m, fst pa, snd pa)) posted.
Proof.
  induction posted as [| [p a] posted IH]; intros w Hrc Hnd Hcb.
  - exists w. simpl. rewrite app_nil_r. auto.
  - set (w1 := mk_world (nodes w)
                        (set_action_queue
                           (set_action_handling_ongoing (graph w) true)
                           (_action_queue (graph w) ++ [(m, p, a)]))
                        (log w)).
    assert (Hpost : post_action m (p, a) w = (ok tt, w1)).
    { unfold post_action, bind at 1, deref. rewrite Hnd. cbn [fst snd].
      rewrite Hcb. unfold bind. rewrite head_cases, Hrc. reflexivity. }
    destruct (IH w1) as [w' [Hrun [Hn [Hl Hq]]]];
      [exact Hrc | exact Hnd | exact Hcb |].
    exists w'. cbn [for_each]. rewrite (@bind_ok _ _ _ _ _ _ _ Hpost).
    simpl in Hn, Hl, Hq.
    split; [exact Hrun | split; [exact Hn | split; [exact Hl |]]].
    rewrite Hq, <- app_assoc. reflexivity.
Qed.

(** One iteration of the drain on a committed graph takes the action at
    the head of the queue and delivers it; the actions that the recipient
    posts while it handles the action are put at the tail of the queue, in
    the order of posting, as actions of the recipient. *)
Theorem drain_is_first_in_first_out na action n port a w v m e ns' posted nd :
  _release_count (graph w) = 0%N ->
  node_map_find (_node_map (graph w)) n = Some v ->
  fst (_find_neighbour v port w) = ok (Some (m, e)) ->
  send_action na m (mk_src (invert_edge (type port)) (instance port)) a
              (nodes w) = inr (ns', posted) ->
  nth_error ns' m = Some nd ->
  _post_action_cb nd = cb_graph ->
  exists w',
    deliver_next na action (n, port, a) w = (ok tt, w')
    /\ nodes w' = ns'
    /\ _action_queue (graph w')
       = tl (_action_queue (graph w))
         ++ map (fun pa : res_source_info * action_info =>
                   (m, fst pa, snd pa)) posted.
Proof.
  intros Hrc Hv Hn Hsend Hnd Hcb.
  assert (Hn' : _find_neighbour v port (popped a w)
                = (ok (Some (m, e)), popped a w)).
  { rewrite (reads_result (popped a w) (reads_find_neighbour v port)).
    rewrite <- (find_neighbour_ext v port w (popped a w)) by reflexivity.
    rewrite Hn. reflexivity. }
  unfold deliver_next. unfold bind at 1. simpl. unfold bind at 1. simpl.
  fold (popped a w).
  assert (Hat : node_map_at n (popped a w) = (ok v, popped a w)).
  { unfold node_map_at, bind, get_graph. simpl. rewrite Hv. reflexivity. }
  rewrite (@bind_ok _ _ _ _ _ _ _ Hat). rewrite (@bind_ok _ _ _ _ _ _ _ Hn').
  rewrite (find_neighbour_port v port w Hn).
  unfold bind at 1. cbn [UHD_LOG fst snd].
  unfold bind at 1, on_nodes. cbn [nodes graph log popped].
  rewrite Hsend.
  match goal with
  | |- context [for_each posted (post_action m) ?w1] =>
      destruct (@post_action_all m nd posted w1)
        as [w' [Hrun [Hns [_ Hq]]]];
        [exact Hrc | exact Hnd | exact Hcb |]
  end.
  exists w'. rewrite Hrun. split; [reflexivity |].
  split; [exact Hns | exact Hq].
Qed.

Lemma drain_is_first_in_first_out_witness :
  exists w',
    deliver_next (chain_accessor echo_handler) stream_cmd
                 (0, mk_src OUTPUT_EDGE 0, stream_cmd)
                 (appended [(0, mk_src OUTPUT_EDGE 0, stream_cmd);
                            (2, mk_src INPUT_EDGE 0, stream_cmd)]
                           chain_committed)
    = (ok tt, w')
    /\ _action_queue (graph w')
       = [(2, mk_src INPUT_EDGE 0, stream_cmd);
          (1, mk_src INPUT_EDGE 0, stream_cmd)].
Proof.
  destruct (@drain_is_first_in_first_out (chain_accessor echo_handler)
              stream_cmd 0 (mk_src OUTPUT_EDGE 0) stream_cmd
              (appended [(0, mk_src OUTPUT_EDGE 0, stream_cmd);
                         (2, mk_src INPUT_EDGE 0, stream_cmd)]
                        chain_committed)
              0 1 (mk_edge "A" 0 "B" 0 true)
              (nodes chain_committed)
              [(mk_src INPUT_EDGE 0, stream_cmd)]
              (mk_node "B" [mk_prop "rssi" (mk_src USER 0)
                                    (data_t "double" 4) false]
                       cb_graph cb_graph))
    as [w' [Hrun [_ Hq]]].
  - vm_compute. reflexivity.
  - vm_compute. reflexivity.
  - vm_compute. reflexivity.
  - vm_compute. reflexivity.
  - vm_compute. reflexivity.
  - reflexivity.
  - exists w'. split; [exact Hrun | exact Hq].
Defined.

(** ** The decimation of the mock DDC *)

Lemma coerce_decim_even (d : Z) :
  (1 < d)%Z ->
  exists q, (1 <= q)%Z /\ (d - Z.rem d 2 = 2 * q)%Z.
Proof.
  intros Hd. exists (d / 2)%Z.
  rewrite Z.rem_mod_nonneg by lia.
  pose proof (Z.div_mod d 2 ltac:(lia)) as Hdm.
  pose proof (Z.mod_pos_bound d 2 ltac:(lia)) as Hb.
  split; lia.
Qed.

(** [coerce_decim] answers 1 or an even number, between 1 and [MAX_DECIM]
    and not above a request of at least 1; coercing what it answers
    changes nothing. *)
Theorem coerce_decim_sound (d : Z) :
  (1 <= coerce_decim d <= MAX_DECIM)%Z
  /\ (coerce_decim d = 1%Z \/ Z.even (coerce_decim d) = true)
  /\ ((1 <= d)%Z -> (coerce_decim d <= d)%Z)
  /\ coerce_decim (coerce_decim d) = coerce_decim d.
Proof.
  unfold coerce_decim, MAX_DECIM.
  destruct (Z.leb_spec d 1) as [Hle | Hgt].
  - split; [lia | split; [left; reflexivity | split; [lia | reflexivity]]].
  - destruct (coerce_decim_even Hgt) as [q [Hq E]]. rewrite E.
    assert (Hmin : exists c, (1 <= c)%Z /\ Z.min (2 * q) 512 = (2 * c)%Z).
    { destruct (Z.le_ge_cases (2 * q) 512).
      - exists q. split; [exact Hq | apply Z.min_l; assumption].
      - exists 256%Z. split; [lia | rewrite Z.min_r by lia; reflexivity]. }
    destruct Hmin as [c [Hc Hm]].
    assert (Hrem : Z.rem (2 * c) 2 = 0%Z).
    { rewrite Z.rem_mod_nonneg by lia.
      rewrite Z.mul_comm. apply Z.mod_mul. lia. }
    split; [lia | split; [| split]].
    + right. rewrite Hm. rewrite Z.even_mul. reflexivity.
    + intros _. pose proof (Z.rem_bound_pos d 2 ltac:(lia) ltac:(lia)). lia.
    + rewrite Hm.
      destruct (Z.leb_spec (2 * c) 1) as [H1 | H1]; [lia |].
      rewrite Hrem, Z.sub_0_r. rewrite <- Hm.
      apply Z.min_l, Z.le_min_r.
Qed.

(** ** Actions that cannot be delivered *)

(** An action posted on a port without an edge is taken off the queue and
    dropped: the iteration logs the warning (which names the action the
    drain was started for), calls no node and returns, so that the drain
    goes on.  An action whose posting node is not in the node map is taken
    off the queue as well, and the lookup throws [std::out_of_range]. *)
Theorem undeliverable_action na action n port a w :
  (forall v,
     node_map_find (_node_map (graph w)) n = Some v ->
     fst (_find_neighbour v port w) = ok None ->
     deliver_next na action (n, port, a) w
     = (ok tt,
        mk_world (nodes w)
                 (set_action_queue (graph w) (tl (_action_queue (graph w))))
                 (log w ++ [pop_front a; log_no_neighbour action])))
  /\ (node_map_find (_node_map (graph w)) n = None ->
      deliver_next na action (n, port, a) w
      = (throw out_of_range,
         mk_world (nodes w)
                  (set_action_queue (graph w) (tl (_action_queue (graph w))))
                  (log w ++ [pop_front a]))).
Proof.
  split.
  - intros v Hv Hn.
    assert (Hn' : _find_neighbour v port (popped a w)
                  = (ok None, popped a w)).
    { rewrite (reads_result (popped a w) (reads_find_neighbour v port)).
      rewrite <- (find_neighbour_ext v port w (popped a w)) by reflexivity.
      rewrite Hn. reflexivity. }
    unfold deliver_next. unfold bind at 1. simpl. unfold bind at 1. simpl.
    fold (popped a w).
    assert (Hat : node_map_at n (popped a w) = (ok v, popped a w)).
    { unfold node_map_at, bind, get_graph. simpl. rewrite Hv. reflexivity. }
    rewrite (@bind_ok _ _ _ _ _ _ _ Hat).
    rewrite (@bind_ok _ _ _ _ _ _ _ Hn').
    unfold UHD_LOG, popped. simpl. rewrite <- app_assoc. reflexivity.
  - intros Hv.
    unfold deliver_next. unfold bind at 1. simpl. unfold bind at 1. simpl.
    unfold bind at 1, node_map_at, bind at 1, get_graph. simpl.
    rewrite Hv. reflexivity.
Qed.

Lemma undeliverable_action_witness :
  deliver_next (chain_accessor echo_handler) stream_cmd
               (2, mk_src OUTPUT_EDGE 0, stream_cmd) chain_committed
  = (ok tt,
     mk_world (nodes chain_committed)
              (set_action_queue (graph chain_committed)
                                (tl (_action_queue (graph chain_committed))))
              (log chain_committed
               ++ [pop_front stream_cmd; log_no_neighbour stream_cmd])).
Proof.
  apply (proj1 (@undeliverable_action (chain_accessor echo_handler)
                  stream_cmd 2 (mk_src OUTPUT_EDGE 0) stream_cmd
                  chain_committed) 2).
  - vm_compute. reflexivity.
  - vm_compute. reflexivity.
Defined.
